(** * LRUCache: the storage engines of wsss777/LRUCache, embedded in Rocq

    The development follows the Go package [store]:
    - [Go]    : fixed-width integers and slice indexing as Go defines them;
    - [Lru2]  : the slot cache ([cache]) and the sharded two-tier engine
                ([lru2Store]) of the LRU-2 source file;
    - [Lru]   : the single-tier engine of store/lru.go;
    - [Clock] : the background task that maintains the package clock.

    A Go panic (slice index out of range) is the [None] of the option monad.
    Calls of the eviction callback are returned as a list of events, in call
    order.  Every read of the package clock ([Now()]) is an argument of the
    operation that performs it.  Each store operation runs under the lock of
    its shard, so it is one step of the model; the lines written with
    [fmt.Println] are left out. *)

From Stdlib Require Import ZArith Lia Bool List Ascii String.
From stdpp Require Import base option list gmap strings.

Local Open Scope Z_scope.

(* ===================================================================== *)
(** ** Go integers, slices and values *)
(* ===================================================================== *)

Module Go.

(** Conversions to the fixed-width types: the result of an arithmetic
    operation of that type. *)
Definition uint16 (x : Z) : Z := x mod 65536.
Definition int32 (x : Z) : Z := (x + 2147483648) mod 4294967296 - 2147483648.
Definition int64 (x : Z) : Z :=
  (x + 9223372036854775808) mod 18446744073709551616 - 9223372036854775808.

(** [s[i]]: a panic when [i] is out of range. *)
Definition index {A} (s : list A) (i : Z) : option A :=
  if i <? 0 then None else s !! Z.to_nat i.

(** [s[i] = x]. *)
Definition assign {A} (s : list A) (i : Z) (x : A) : option (list A) :=
  _ ← index s i; Some (<[Z.to_nat i := x]> s).

(** A [Value] is an interface value: [None] is the nil interface, and a
    payload reports its size through [Len()]. *)
Definition Value : Type := option string.

Definition Len (v : string) : Z := Z.of_nat (String.length v).

(** Comparisons and sums of int64 timestamps and durations. *)
Definition after (a b : Z) : bool := b <? a.
Definition at_or_after (a b : Z) : bool := b <=? a.
Definition plus64 (a b : Z) : Z := int64 (a + b).

Global Arguments uint16 : simpl never.
Global Arguments int32 : simpl never.
Global Arguments int64 : simpl never.
Global Arguments after : simpl never.
Global Arguments at_or_after : simpl never.
Global Arguments plus64 : simpl never.

End Go.

Import Go.

(** One call of the eviction callback: [onEvicted(key, value)]. *)
Definition event : Type := string * Value.

(* ===================================================================== *)
(** ** The LRU-2 source file *)
(* ===================================================================== *)

Module Lru2.

Definition Head : Z := 0.
Definition Tail : Z := 1.

(** [var clock, p, n = time.Now().UnixNano(), uint16(0), uint16(1)] *)
Definition p : Z := 0.
Definition n : Z := 1.

Record node := Node { k : string; v : Value; expireAt : Z }.

(** [dlnk] is a [[][2]uint16]: a pair stands for the two-element array,
    [sel]/[upd] for its indexing by 0 or 1. *)
Definition links : Type := list (Z * Z).

Record cache := Cache {
  dlnk : links;
  m : list node;
  hmap : gmap string Z;
  last : Z
}.

Definition sel (x : Z * Z) (j : Z) : Z := if j =? 0 then x.1 else x.2.

Definition upd (x : Z * Z) (j y : Z) : Z * Z :=
  if j =? 0 then (y, x.2) else (x.1, y).

(** [c.dlnk[i][j]] *)
Definition ld (d : links) (i j : Z) : option Z :=
  x ← index d i; Some (sel x j).

(** [c.dlnk[i][j] = y] *)
Definition st (d : links) (i j y : Z) : option links :=
  x ← index d i; assign d i (upd x j y).

(** [a > 0] on an expiry stamp: the slot is live. *)
Definition gt0 (a : Z) : bool := after a 0.

Global Arguments gt0 : simpl never.

(** [Create(cap)]: [cap+1] is computed in uint16. *)
Definition Create (cap : Z) : cache :=
  {| dlnk := replicate (Z.to_nat (uint16 (cap + 1))) (0, 0);
     m := replicate (Z.to_nat cap) (Node "" None 0);
     hmap := ∅;
     last := 0 |}.

(** [adjust] touches the link table only. *)
Definition adjust_links (d : links) (idx f t : Z) : option links :=
  if idx =? 0 then Some d else
  prev ← ld d idx p;
  next ← ld d idx n;
  d ← (if prev =? 0 then Some d else st d prev n next);
  d ← (if next =? 0 then Some d else st d next p prev);
  h ← ld d 0 Head;
  d ← (if h =? idx then st d 0 Head next else Some d);
  tl ← ld d 0 Tail;
  d ← (if tl =? idx then st d 0 Tail prev else Some d);
  if t =? Head then
    d ← st d idx p 0;
    h ← ld d 0 Head;
    d ← st d idx n h;
    h ← ld d 0 Head;
    d ← (if h =? 0 then Some d else h' ← ld d 0 Head; st d h' p idx);
    st d 0 Head idx
  else
    d ← st d idx n 0;
    tl ← ld d 0 Tail;
    d ← st d idx p tl;
    tl ← ld d 0 Tail;
    d ← (if tl =? 0 then Some d else tl' ← ld d 0 Tail; st d tl' n idx);
    st d 0 Tail idx.

Definition adjust (c : cache) (idx f t : Z) : option cache :=
  d ← adjust_links (dlnk c) idx f t;
  Some {| dlnk := d; m := m c; hmap := hmap c; last := last c |}.

(** [put]: the new cache, the callback calls, and the returned int. *)
Definition put (c : cache) (key : string) (val : Value) (expireAt_ : Z)
    (onEvicted : bool) : option (cache * list event * Z) :=
  match hmap c !! key with
  | Some idx =>
      nd ← index (m c) (uint16 (idx - 1));
      m' ← assign (m c) (uint16 (idx - 1)) (Node (k nd) val expireAt_);
      c' ← adjust (Cache (dlnk c) m' (hmap c) (last c)) idx Tail Head;
      Some (c', [], 0)
  | None =>
      if last c =? uint16 (Z.of_nat (length (m c))) then
        t ← ld (dlnk c) 0 Tail;
        tail ← index (m c) (uint16 (t - 1));
        let evs :=
          if onEvicted && gt0 (expireAt tail)
          then [(k tail, v tail)] else [] in
        let h' := delete (k tail) (hmap c) in
        m' ← assign (m c) (uint16 (t - 1)) (Node key val expireAt_);
        let c1 := Cache (dlnk c) m' (<[key := t]> h') (last c) in
        t' ← ld (dlnk c1) 0 Tail;
        c' ← adjust c1 t' Tail Head;
        Some (c', evs, 1)
      else
        let last' := uint16 (last c + 1) in
        d ← (if Z.of_nat (size (hmap c)) <=? 0
             then st (dlnk c) 0 Tail last'
             else h ← ld (dlnk c) 0 Head; st (dlnk c) h p last');
        _ ← index (m c) (uint16 (last' - 1));
        m' ← assign (m c) (uint16 (last' - 1)) (Node key val expireAt_);
        h ← ld d 0 Head;
        d ← assign d last' (0, h);
        h ← ld d 0 Head;
        d ← (if h =? 0 then Some d else h' ← ld d 0 Head; st d h' p last');
        d ← st d 0 Head last';
        tl ← ld d 0 Tail;
        d ← (if tl =? 0 then st d 0 Tail last' else Some d);
        Some (Cache d m' (<[key := last']> (hmap c)) last', [], 1)
  end.

(** [get]: the node is returned by value; its int is 1 on a hit. *)
Definition get (c : cache) (key : string) : option (cache * option node * Z) :=
  match hmap c !! key with
  | Some idx =>
      c' ← adjust c idx Tail Head;
      nd ← index (m c') (uint16 (idx - 1));
      Some (c', Some nd, 1)
  | None => Some (c, None, 0)
  end.

(** [del]: the returned node is the slot after its stamp was zeroed. *)
Definition del (c : cache) (key : string)
    : option (cache * option node * Z * Z) :=
  match hmap c !! key with
  | Some idx =>
      nd ← index (m c) (uint16 (idx - 1));
      if gt0 (expireAt nd) then
        let e := expireAt nd in
        let nd' := Node (k nd) (v nd) 0 in
        m' ← assign (m c) (uint16 (idx - 1)) nd';
        c' ← adjust (Cache (dlnk c) m' (hmap c) (last c)) idx Head Tail;
        Some (c', Some nd', 1, e)
      else Some (c, None, 0, 0)
  | None => Some (c, None, 0, 0)
  end.

(** [walk]: the loop follows next links until it reads 0; [fuel] bounds the
    number of iterations, and running out of it is the inner [None]. *)
Fixpoint walk_from {A} (fuel : nat) (c : cache) (idx : Z)
    (walker : A → string → Value → Z → A * bool) (acc : A)
    : option (option A) :=
  if idx =? 0 then Some (Some acc) else
  match fuel with
  | O => Some None
  | S fuel' =>
      nd ← index (m c) (uint16 (idx - 1));
      let '(acc', continue) :=
        if gt0 (expireAt nd)
        then walker acc (k nd) (v nd) (expireAt nd)
        else (acc, true) in
      if continue then
        next ← ld (dlnk c) idx n;
        walk_from fuel' c next walker acc'
      else Some (Some acc')
  end.

Definition walk {A} (fuel : nat) (c : cache)
    (walker : A → string → Value → Z → A * bool) (acc : A)
    : option (option A) :=
  h ← ld (dlnk c) 0 Head; walk_from fuel c h walker acc.

(* ------------------------------------------------------------------- *)
(** *** Hash and shard routing *)

Definition byte (a : ascii) : Z := Z.of_N (N_of_ascii a).

(** The loop of [hashBKRD], started from an intermediate [hash]. *)
Fixpoint hashBKRD_from (hash : Z) (key : string) : Z :=
  match key with
  | EmptyString => hash
  | String a key' => hashBKRD_from (int32 (int32 (hash * 131) + byte a)) key'
  end.

Definition hashBKRD (key : string) : Z := hashBKRD_from 0 key.

Definition maskOfNextPowOf2 (cap : Z) : Z :=
  if (0 <? cap) && (Z.land cap (uint16 (cap - 1)) =? 0) then uint16 (cap - 1)
  else
    let cap := Z.lor cap (Z.shiftr cap 1) in
    let cap := Z.lor cap (Z.shiftr cap 2) in
    let cap := Z.lor cap (Z.shiftr cap 4) in
    Z.lor cap (Z.shiftr cap 8).

(* ------------------------------------------------------------------- *)
(** *** The store *)

(** [Options], with [OnEvicted] reduced to whether it is non-nil. *)
Record Options := {
  MaxBytes : Z;
  BucketCount : Z;
  CapPerBucket : Z;
  Level2Cap : Z;
  CleanupInterval : Z;
  OnEvicted : bool
}.

(** The locks and the ticker carry no data. *)
Record lru2Store := Store {
  caches : list (cache * cache);
  onEvicted : bool;
  mask : Z
}.

Definition newLRU2Cache (opts : Options) : lru2Store :=
  let bucketCount := if BucketCount opts =? 0 then 16 else BucketCount opts in
  let capPerBucket := if CapPerBucket opts =? 0 then 1024 else CapPerBucket opts in
  let level2Cap := if Level2Cap opts =? 0 then 1024 else Level2Cap opts in
  let mask_ := maskOfNextPowOf2 bucketCount in
  {| caches := replicate (Z.to_nat (uint16 (mask_ + 1)))
                 (Create capPerBucket, Create level2Cap);
     onEvicted := OnEvicted opts;
     mask := mask_ |}.

(** [hashBKRD(key) & s.mask] *)
Definition shard (s : lru2Store) (key : string) : Z :=
  Z.land (hashBKRD key) (mask s).

(** [s.caches[idx][level]] as a value and as an assignment target. *)
Definition tier (s : lru2Store) (idx level : Z) : option cache :=
  sh ← index (caches s) idx; Some (if level =? 0 then sh.1 else sh.2).

Definition set_tier (s : lru2Store) (idx level : Z) (c : cache)
    : option lru2Store :=
  sh ← index (caches s) idx;
  cs ← assign (caches s) idx (if level =? 0 then (c, sh.2) else (sh.1, c));
  Some (Store cs (onEvicted s) (mask s)).

Definition _get (s : lru2Store) (key : string) (idx level : Z) (now : Z)
    : option (lru2Store * option node * Z) :=
  c ← tier s idx level;
  '(c', n_, st_) ← get c key;
  s' ← set_tier s idx level c';
  match n_ with
  | Some nd =>
      if 0 <? st_ then
        let currentTime := now in
        if negb (gt0 (expireAt nd)) || at_or_after currentTime (expireAt nd)
        then Some (s', None, 0)
        else Some (s', Some nd, st_)
      else Some (s', None, 0)
  | None => Some (s', None, 0)
  end.

Definition delete (s : lru2Store) (key : string) (idx : Z)
    : option (lru2Store * bool * list event) :=
  c0 ← tier s idx 0;
  '(c0', n1, s1, _) ← del c0 key;
  s ← set_tier s idx 0 c0';
  c1 ← tier s idx 1;
  '(c1', n2, s2, _) ← del c1 key;
  s ← set_tier s idx 1 c1';
  let deleted := (0 <? s1) || (0 <? s2) in
  let evs :=
    if deleted && onEvicted s then
      match n1 with
      | Some (Node _ (Some x) _) => [(key, Some x)]
      | _ =>
          match n2 with
          | Some (Node _ (Some x) _) => [(key, Some x)]
          | _ => []
          end
      end
    else [] in
  Some (s, deleted, evs).

(** [Get]: [now] is the clock read on entry, [now'] the one read inside
    [_get]. The result is the pair returned, the store and the callback
    calls. *)
Definition Get (s : lru2Store) (key : string) (now now' : Z)
    : option (Value * bool * lru2Store * list event) :=
  let idx := shard s key in
  let currentTime := now in
  c0 ← tier s idx 0;
  '(c0', n1, status1, expireAt_) ← del c0 key;
  s ← set_tier s idx 0 c0';
  if 0 <? status1 then
    match n1 with
    | None =>
        '(s, _, evs) ← delete s key idx; Some (None, false, s, evs)
    | Some nd1 =>
        if gt0 expireAt_ && at_or_after currentTime expireAt_ then
          '(s, _, evs) ← delete s key idx; Some (None, false, s, evs)
        else
          c1 ← tier s idx 1;
          '(c1', evs, _) ← put c1 key (v nd1) expireAt_ (onEvicted s);
          s ← set_tier s idx 1 c1';
          Some (v nd1, true, s, evs)
    end
  else
    '(s, n2, status2) ← _get s key idx 1 now';
    match n2 with
    | Some nd2 =>
        if 0 <? status2 then
          if gt0 (expireAt nd2) && at_or_after currentTime (expireAt nd2)
          then '(s, _, evs) ← delete s key idx; Some (None, false, s, evs)
          else Some (v nd2, true, s, [])
        else Some (None, false, s, [])
    | None => Some (None, false, s, [])
    end.

(** [SetWithExpiration]: [expiration] is the duration in nanoseconds and
    [now] the clock, read only when the duration is positive. *)
Definition SetWithExpiration (s : lru2Store) (key : string) (value : Value)
    (expiration : Z) (now : Z) : option (lru2Store * list event) :=
  let expireAt_ := if gt0 expiration then plus64 now expiration else 0 in
  let idx := shard s key in
  c0 ← tier s idx 0;
  '(c0', evs, _) ← put c0 key value expireAt_ (onEvicted s);
  s ← set_tier s idx 0 c0';
  Some (s, evs).

(** [Set] ([Set] is reserved in Rocq). *)
Definition Set_ (s : lru2Store) (key : string) (value : Value) (now : Z)
    : option (lru2Store * list event) :=
  SetWithExpiration s key value 10000000 now.

Definition Delete (s : lru2Store) (key : string)
    : option (lru2Store * bool * list event) :=
  delete s key (shard s key).

(** The walker of [Len]: [count++; return true]. *)
Definition count_walker (count : Z) (_ : string) (_ : Value) (_ : Z)
    : Z * bool := (count + 1, true).

Fixpoint Len_from (fuel : nat) (cs : list (cache * cache)) (count : Z)
    : option (option Z) :=
  match cs with
  | [] => Some (Some count)
  | sh :: cs' =>
      r0 ← walk fuel sh.1 count_walker count;
      match r0 with
      | None => Some None
      | Some count =>
          r1 ← walk fuel sh.2 count_walker count;
          match r1 with
          | None => Some None
          | Some count => Len_from fuel cs' count
          end
      end
  end.

Definition Len (fuel : nat) (s : lru2Store) : option (option Z) :=
  Len_from fuel (caches s) 0.

(** The walker of [cleanupLoop] on tier 1. *)
Definition expired_walker (currentTime : Z) (expiredKeys : list string)
    (key : string) (_ : Value) (expireAt_ : Z) : list string * bool :=
  if gt0 expireAt_ && at_or_after currentTime expireAt_
  then (expiredKeys ++ [key], true) else (expiredKeys, true).

(** ... and on tier 2, which skips the keys already collected. *)
Definition expired_walker2 (currentTime : Z) (expiredKeys : list string)
    (key : string) (_ : Value) (expireAt_ : Z) : list string * bool :=
  if gt0 expireAt_ && at_or_after currentTime expireAt_
  then if bool_decide (key ∈ expiredKeys) then (expiredKeys, true)
       else (expiredKeys ++ [key], true)
  else (expiredKeys, true).

Fixpoint delete_all (s : lru2Store) (keys : list string) (idx : Z)
    : option (lru2Store * list event) :=
  match keys with
  | [] => Some (s, [])
  | key :: keys' =>
      '(s, _, evs) ← delete s key idx;
      '(s, evs') ← delete_all s keys' idx;
      Some (s, evs ++ evs')
  end.

(** The body of [cleanupLoop] for shard [i], at one tick. *)
Definition cleanupShard (fuel : nat) (s : lru2Store) (i : Z)
    (currentTime : Z) : option (option (lru2Store * list event)) :=
  c0 ← tier s i 0;
  r0 ← walk fuel c0 (expired_walker currentTime) [];
  match r0 with
  | None => Some None
  | Some expiredKeys =>
      c1 ← tier s i 1;
      r1 ← walk fuel c1 (expired_walker2 currentTime) expiredKeys;
      match r1 with
      | None => Some None
      | Some expiredKeys => Some <$> delete_all s expiredKeys i
      end
  end.

(* ------------------------------------------------------------------- *)
(** *** Observations used in the statements *)

(** The slot the key index gives for [key]. *)
Definition slot (c : cache) (key : string) : option node :=
  idx ← hmap c !! key; index (m c) (uint16 (idx - 1)).

(** ... when its stamp is positive: what [del] and [walk] regard as
    present. *)
Definition live (c : cache) (key : string) : option node :=
  nd ← slot c key; if gt0 (expireAt nd) then Some nd else None.

(** Keys, values and stamps of the live slots in walk order. *)
Definition entries_walker (acc : list (string * Value * Z)) (key : string)
    (val : Value) (e : Z) : list (string * Value * Z) * bool :=
  (acc ++ [(key, val, e)], true).

Definition entries (fuel : nat) (c : cache)
    : option (option (list (string * Value * Z))) :=
  walk fuel c entries_walker [].

(* ------------------------------------------------------------------- *)
(** *** Representation invariant *)

(** Every link of [d] is a slot number in [0, L], and [d] has a row for
    each of them. *)
Definition links_ok (d : links) (L : Z) : Prop :=
  L < Z.of_nat (length d) ∧
  Forall (λ x : Z * Z, (0 <= x.1 <= L) ∧ (0 <= x.2 <= L)) d.

(** What every operation relies on to stay inside its slices: the sizes
    fixed by [Create], the used slots numbered [1..last], a key index that
    points at the slot carrying the key. *)
Record wf (c : cache) : Prop := {
  wf_dlnk : length (dlnk c) = S (length (m c));
  wf_cap : Z.of_nat (length (m c)) < 65535;
  wf_last : 0 <= last c <= Z.of_nat (length (m c));
  wf_links : links_ok (dlnk c) (last c);
  wf_hmap : ∀ key idx, hmap c !! key = Some idx →
      1 <= idx <= last c ∧
      ∃ nd, m c !! Z.to_nat (idx - 1) = Some nd ∧ k nd = key
}.

Record wf_store (s : lru2Store) : Prop := {
  wf_mask : 0 <= mask s;
  wf_shards : Z.of_nat (length (caches s)) = mask s + 1;
  wf_tiers : Forall (λ sh : cache * cache, wf sh.1 ∧ wf sh.2) (caches s)
}.

(** [put] of [key] can proceed: the key is indexed, or a fresh slot is
    left, or the sentinel names a tail slot to recycle. *)
Definition put_ready (c : cache) (key : string) : bool :=
  match hmap c !! key with
  | Some _ => true
  | None =>
      negb (last c =? Z.of_nat (length (m c)))
      || match ld (dlnk c) 0 Tail with
         | Some t => negb (t =? 0)
         | None => false
         end
  end.

(** The store with shard [idx] replaced. *)
Definition with_shard (s : lru2Store) (idx : Z) (sh : cache * cache)
    : lru2Store :=
  Store (<[Z.to_nat idx := sh]> (caches s)) (onEvicted s) (mask s).

(** The live entry of [key] in tier [level] of its shard. *)
Definition present (s : lru2Store) (key : string) (level : Z) : option node :=
  c ← tier s (shard s key) level; live c key.

(** The non-nil value of a returned node. *)
Definition value_of (o : option node) : Value := nd ← o; v nd.

(** The callback calls of [delete], given the entries it removed from
    tier 1 and tier 2. *)
Definition delete_events (cb : bool) (key : string) (n1 n2 : option node)
    : list event :=
  if cb then
    match value_of n1, value_of n2 with
    | Some x, _ => [(key, Some x)]
    | None, Some x => [(key, Some x)]
    | None, None => []
    end
  else [].

(** [put] of [key] on tier [level] of its shard can proceed. *)
Definition ready (s : lru2Store) (key : string) (level : Z) : bool :=
  match tier s (shard s key) level with
  | Some c => put_ready c key
  | None => false
  end.


(** A clock reading after the epoch to which the ten milliseconds of
    [Set] can be added in int64. *)
Definition clock_ok (now : Z) : Prop :=
  0 <= now ∧ now + 10000000 < 9223372036854775808.

(** [f] holds of [from], [from+1], ..., [count] numbers in all. *)
Fixpoint forall_range (f : Z → bool) (from : Z) (count : nat) : bool :=
  match count with
  | O => true
  | S count' => f from && forall_range f (from + 1) count'
  end.

(** Following the specification: the least power of two that is not
    below [n]. *)
Definition next_power_of_two (n_ : Z) : Z := 2 ^ Z.log2_up n_.

(** The property of [maskOfNextPowOf2] that is checked for each bucket
    count from 1 to 32768. *)
Definition mask_check (i : Z) : bool :=
  (maskOfNextPowOf2 i =? next_power_of_two i - 1) &&
  (0 <=? maskOfNextPowOf2 i) && (maskOfNextPowOf2 i <=? 32767).

(** Options for which [newLRU2Cache] builds slices of the sizes it asks
    for: the uint16 sums [mask+1] and [cap+1] do not wrap. *)
Definition options_ok (opts : Options) : Prop :=
  0 <= BucketCount opts <= 32768 ∧
  0 <= CapPerBucket opts < 65535 ∧
  0 <= Level2Cap opts < 65535.

(** The store of the concrete scenario: one bucket, two slots per tier,
    an eviction callback. *)
Definition scenario_options : Options :=
  {| MaxBytes := 0; BucketCount := 1; CapPerBucket := 2; Level2Cap := 2;
     CleanupInterval := 0; OnEvicted := true |}.

(** The same with a single slot per tier. *)
Definition single_slot_options : Options :=
  {| MaxBytes := 0; BucketCount := 1; CapPerBucket := 1; Level2Cap := 1;
     CleanupInterval := 0; OnEvicted := true |}.

(** The scenario store after [Set(a,1)], then after [Get(a)], then after
    [Set(a,9)], all at clock 0: in the last one tier 2 holds (a,1) and
    tier 1 holds (a,9). *)
Definition written_store : lru2Store :=
  let s0 := newLRU2Cache scenario_options in
  from_option fst s0 (Set_ s0 "a" (Some "1") 0).

Definition promoted_store : lru2Store :=
  from_option (λ r, r.1.2) written_store (Get written_store "a" 0 0).

Definition both_tiers_store : lru2Store :=
  from_option fst promoted_store (Set_ promoted_store "a" (Some "9") 0).

(** The stores a program can hold: built by [newLRU2Cache] and taken
    through calls that returned. *)
Inductive reachable : lru2Store → Prop :=
  | reach_new opts :
      options_ok opts → reachable (newLRU2Cache opts)
  | reach_SetWithExpiration s key value expiration now s' evs :
      reachable s →
      SetWithExpiration s key value expiration now = Some (s', evs) →
      reachable s'
  | reach_Get s key now now' r b s' evs :
      reachable s → Get s key now now' = Some (r, b, s', evs) →
      reachable s'
  | reach_Delete s key s' r evs :
      reachable s → Delete s key = Some (s', r, evs) → reachable s'.

(** A run of [SetWithExpiration] calls, each with the clock it reads. *)
Fixpoint SetAll (s : lru2Store) (calls : list (string * Value * Z * Z))
    : option (lru2Store * list event) :=
  match calls with
  | [] => Some (s, [])
  | (key, value, expiration, now) :: calls' =>
      '(s, evs) ← SetWithExpiration s key value expiration now;
      '(s, evs') ← SetAll s calls';
      Some (s, evs ++ evs')
  end.

(* ------------------------------------------------------------------- *)
(** *** Observations, list structure and sample stores for the further
    properties *)

(** The number of slots of the two tiers of every shard. *)
Definition capacities (s : lru2Store) : list (nat * nat) :=
  (λ sh : cache * cache, (length (m sh.1), length (m sh.2))) <$> caches s.

(** What the constructor fixes: slot counts, mask and callback. *)
Definition shape (s : lru2Store) : list (nat * nat) * Z * bool :=
  (capacities s, mask s, onEvicted s).

(** The slot that tier [level] of the key's shard indexes for [key], live
    or not. *)
Definition stored (s : lru2Store) (key : string) (level : Z) : option node :=
  c ← tier s (shard s key) level; slot c key.



(** The property of [maskOfNextPowOf2] that is checked for each bucket
    count from 32769 to 65535. *)
Definition oversize_check (i : Z) : bool := maskOfNextPowOf2 i =? 65535.

(** The slots [o] are linked one after the other, the first one after
    [prev] and the last one before [next]. *)
Fixpoint seg (d : links) (prev : Z) (o : list Z) (next : Z) : Prop :=
  match o with
  | [] => True
  | x :: o' =>
      ld d x p = Some prev ∧ ld d x n = Some (List.hd next o') ∧ seg d x o' next
  end.

(** [d] links exactly the slots [o], head first, between the two ends of
    the sentinel row. *)
Definition dll (d : links) (o : list Z) : Prop :=
  ld d 0 Head = Some (List.hd 0 o) ∧ ld d 0 Tail = Some (List.last o 0) ∧
  seg d 0 o 0.

(** [written_store] after [Delete(a)], and its tier 1. *)
Definition emptied_store : lru2Store :=
  from_option (λ r, r.1.1) written_store (Delete written_store "a").

Definition emptied_tier : cache :=
  from_option id (Create 0) (tier emptied_store 0 0).

(** The live entry of [key] in tier [level] of shard [i]. *)
Definition held (s : lru2Store) (i level : Z) (key : string) : option node :=
  c ← tier s i level; live c key.

(** A slot of [c] carries [key] with a positive stamp that [currentTime]
    has reached. *)
Definition expired_slot (c : cache) (currentTime : Z) (key : string) : Prop :=
  ∃ nd, nd ∈ m c ∧ k nd = key ∧ 0 < expireAt nd <= currentTime.

(** A cache whose list is [o]: every used slot is on it and the key index
    is its inverse. *)
Record lru (c : cache) (o : list Z) : Prop := {
  lru_wf : wf c;
  lru_dll : dll (dlnk c) o;
  lru_nodup : NoDup o;
  lru_range : ∀ x, x ∈ o → 1 <= x <= last c;
  lru_length : Z.of_nat (length o) = last c;
  lru_size : size (hmap c) = length o;
  lru_back : ∀ x nd, x ∈ o → m c !! Z.to_nat (x - 1) = Some nd →
                     hmap c !! k nd = Some x
}.

(** The slots [o] carry the nodes [ns]. *)
Definition holds (c : cache) (o : list Z) (ns : list node) : Prop :=
  Forall2 (λ x nd, m c !! Z.to_nat (x - 1) = Some nd) o ns.

(** A run of [put] calls on one cache. *)
Fixpoint putAll (c : cache) (kvs : list (string * Value * Z)) (cb : bool)
    : option (cache * list event) :=
  match kvs with
  | [] => Some (c, [])
  | (key, val, e) :: kvs' =>
      '(c, evs, _) ← put c key val e cb;
      '(c, evs') ← putAll c kvs' cb;
      Some (c, evs ++ evs')
  end.

(** A call as the node it writes, a node as the callback call and as the
    entry [walk] reports. *)
Definition node_of (kv : string * Value * Z) : node := Node kv.1.1 kv.1.2 kv.2.
Definition event_of (nd : node) : event := (k nd, v nd).
Definition entry_of (nd : node) : string * Value * Z := (k nd, v nd, expireAt nd).

(** [promoted_store] after a write of another key. *)
Definition churned_store : lru2Store :=
  from_option fst promoted_store
    (SetAll promoted_store [("b", Some "2", 10000000, 0)]).

(** Options with a bucket count above 2^15. *)
Definition oversized_options : Options :=
  {| MaxBytes := 0; BucketCount := 40000; CapPerBucket := 2; Level2Cap := 2;
     CleanupInterval := 0; OnEvicted := true |}.

(** The tiers of [written_store]. *)
Definition written_tier (level : Z) : cache :=
  from_option id (Create 0) (tier written_store 0 level).

End Lru2.

(* ===================================================================== *)
(** ** store/lru.go: the single-tier engine *)
(* ===================================================================== *)

Module Lru.

Record lruEntry := Entry { key : string; value : Value }.

(** [c.list] is the sequence of its elements, front first.  [c.items] maps a
    key to the element that carries it, and every path that links or
    unlinks an element updates [items] in the same step, so [c.items[key]]
    is resolved in [elems]. Times are nanosecond counts. *)
Record lruCache := LruCache {
  elems : list lruEntry;
  expires : gmap string Z;
  maxBytes : Z;
  usedBytes : Z;
  onEvicted : bool
}.

Definition newLRUCache (maxBytes_ : Z) (onEvicted_ : bool) : lruCache :=
  LruCache [] ∅ maxBytes_ 0 onEvicted_.

(** [c.items[key]] *)
Definition items (c : lruCache) (key_ : string) : option lruEntry :=
  List.find (λ e, bool_decide (key e = key_)) (elems c).

(** [value.Len()]: a nil interface has no method to call. *)
Definition valueLen (x : Value) : option Z := Len <$> x.

Definition keyLen (s : string) : Z := Z.of_nat (String.length s).

(** [c.list.Remove(elem)] for the element of that key. *)
Definition unlink (key_ : string) (l : list lruEntry) : list lruEntry :=
  List.filter (λ e, negb (bool_decide (key e = key_))) l.

Definition removeElement (c : lruCache) (entry : lruEntry)
    : option (lruCache * list event) :=
  len ← valueLen (value entry);
  Some (LruCache (unlink (key entry) (elems c))
                 (delete (key entry) (expires c))
                 (maxBytes c)
                 (int64 (usedBytes c - int64 (keyLen (key entry) + len)))
                 (onEvicted c),
        if onEvicted c then [(key entry, value entry)] else []).

(** The first loop of [evict], over the pairs of [c.expires] in the order
    [range] yields them. *)
Fixpoint evictExpired (c : lruCache) (now : Z) (pairs : list (string * Z))
    : option (lruCache * list event) :=
  match pairs with
  | [] => Some (c, [])
  | (key_, expTime) :: pairs' =>
      '(c, evs) ←
        (if after now expTime then
           match items c key_ with
           | Some elem => removeElement c elem
           | None => Some (c, [])
           end
         else Some (c, []));
      '(c, evs') ← evictExpired c now pairs';
      Some (c, evs ++ evs')
  end.

(** The second loop of [evict]. Each round unlinks an element, so
    [length (elems c)] rounds are enough (see [evictOver_exits]). *)
Fixpoint evictOver (rounds : nat) (c : lruCache)
    : option (lruCache * list event) :=
  match rounds with
  | O => Some (c, [])
  | S rounds' =>
      if (0 <? maxBytes c) && (maxBytes c <? usedBytes c)
         && (0 <? Z.of_nat (length (elems c))) then
        match List.last (Some <$> elems c) None, elems c with
        | Some _, front :: _ =>
            '(c, evs) ← removeElement c front;
            '(c, evs') ← evictOver rounds' c;
            Some (c, evs ++ evs')
        | _, _ => Some (c, [])
        end
      else Some (c, [])
  end.

(** [for key, expTime := range c.expires] visits the pairs of the map in an
    order the language leaves open. [order] is the one taken: a permutation
    of the pairs of [c.expires], see [ranges]. *)
Definition evict (c : lruCache) (now : Z) (order : list (string * Z))
    : option (lruCache * list event) :=
  '(c, evs) ← evictExpired c now order;
  '(c, evs') ← evictOver (length (elems c)) c;
  Some (c, evs ++ evs').

(** [order] is an order in which [range] can visit the map [exp]. *)
Definition ranges (order : list (string * Z)) (exp : gmap string Z) : Prop :=
  order ≡ₚ map_to_list exp.

Definition Delete (c : lruCache) (key_ : string)
    : option (lruCache * bool * list event) :=
  match items c key_ with
  | Some elem => '(c, evs) ← removeElement c elem; Some (c, true, evs)
  | None => Some (c, false, [])
  end.

(** The expiry map after the first step of [SetWithExpiration]. *)
Definition expiresAfter (c : lruCache) (key_ : string) (expiration now : Z)
    : gmap string Z :=
  if 0 <? expiration then <[key_ := now + expiration]> (expires c)
  else delete key_ (expires c).

(** [now] is read when the duration is positive, [now'] inside [evict],
    which ranges over the expiry map in [order]. *)
Definition SetWithExpiration (c : lruCache) (key_ : string) (value_ : Value)
    (expiration : Z) (now now' : Z) (order : list (string * Z))
    : option (lruCache * list event) :=
  match value_ with
  | None => '(c, _, evs) ← Delete c key_; Some (c, evs)
  | Some x =>
      let expires' := expiresAfter c key_ expiration now in
      match items c key_ with
      | Some oldEntry =>
          old ← valueLen (value oldEntry);
          Some (LruCache (Entry key_ value_ :: unlink key_ (elems c))
                         expires' (maxBytes c)
                         (int64 (usedBytes c + int64 (Len x - old)))
                         (onEvicted c), [])
      | None =>
          evict (LruCache (Entry key_ value_ :: elems c) expires'
                          (maxBytes c)
                          (int64 (usedBytes c + int64 (keyLen key_ + Len x)))
                          (onEvicted c)) now' order
      end
  end.

Definition Set_ (c : lruCache) (key_ : string) (value_ : Value) (now now' : Z)
    (order : list (string * Z)) : option (lruCache * list event) :=
  SetWithExpiration c key_ value_ 0 now now' order.

(** The keys of the recency list, most recently used first. *)
Definition keys (c : lruCache) : list string := key <$> elems c.

(** [c.list.MoveToFront(elem)] for the element of that key. *)
Definition moveToFront (key_ : string) (l : list lruEntry) : list lruEntry :=
  match List.find (λ e, bool_decide (key e = key_)) l with
  | Some elem => elem :: unlink key_ l
  | None => l
  end.

(** [Get]: the read under the read lock and the move under the write lock,
    run back to back. The last component is the key of the [Delete] call
    that [go c.Delete(key)] starts, which runs after [Get] has returned.
    [now] is [time.Now()]. *)
Definition Get (c : lruCache) (key_ : string) (now : Z)
    : Value * bool * lruCache * option string :=
  match items c key_ with
  | None => (None, false, c, None)
  | Some elem =>
      let hit :=
        (value elem, true,
         LruCache (moveToFront key_ (elems c)) (expires c) (maxBytes c)
                  (usedBytes c) (onEvicted c), None) in
      match expires c !! key_ with
      | Some expTime =>
          if after now expTime then (None, false, c, Some key_) else hit
      | None => hit
      end
  end.

(** [for _, elem := range c.items] visits the elements in an order the
    language leaves open: [order] is the one taken. *)
Definition Clear (c : lruCache) (order : list lruEntry)
    : lruCache * list event :=
  (LruCache [] ∅ (maxBytes c) 0 (onEvicted c),
   if onEvicted c then (λ e, (key e, value e)) <$> order else []).

Definition Len (c : lruCache) : Z := Z.of_nat (length (elems c)).

(** [expTime.Sub(now)]: a Duration, which saturates at the ends of int64. *)
Definition Sub (t u : Z) : Z :=
  Z.max (- 9223372036854775808) (Z.min 9223372036854775807 (t - u)).

Definition GetWithExpiration (c : lruCache) (key_ : string) (now : Z)
    : Value * Z * bool * lruCache :=
  match items c key_ with
  | None => (None, 0, false, c)
  | Some elem =>
      let c' := LruCache (moveToFront key_ (elems c)) (expires c) (maxBytes c)
                         (usedBytes c) (onEvicted c) in
      match expires c !! key_ with
      | Some expTime =>
          if after now expTime then (None, 0, false, c)
          else (value elem, Sub expTime now, true, c')
      | None => (value elem, 0, true, c')
      end
  end.

(** [GetExpiration]: [None] stands for the pair of the zero time and
    false. *)
Definition GetExpiration (c : lruCache) (key_ : string) : option Z :=
  expires c !! key_.

Definition UpdateExpiration (c : lruCache) (key_ : string) (expiration : Z)
    (now : Z) : bool * lruCache :=
  match items c key_ with
  | None => (false, c)
  | Some _ =>
      (true,
       LruCache (elems c)
                (if 0 <? expiration then <[key_ := now + expiration]> (expires c)
                 else delete key_ (expires c))
                (maxBytes c) (usedBytes c) (onEvicted c))
  end.

Definition UsedBytes (c : lruCache) : Z := usedBytes c.

Definition SetMaxBytes (c : lruCache) (maxBytes_ : Z) (now : Z)
    (order : list (string * Z)) : option (lruCache * list event) :=
  let c := LruCache (elems c) (expires c) maxBytes_ (usedBytes c)
                    (onEvicted c) in
  if 0 <? maxBytes_ then evict c now order else Some (c, []).

(* ------------------------------------------------------------------- *)
(** *** Representation invariant *)

(** [len(entry.key) + entry.value.Len()] *)
Definition entrySize (e : lruEntry) : Z :=
  keyLen (key e) + from_option Go.Len 0 (value e).

Definition totalSize (l : list lruEntry) : Z :=
  foldr (λ e acc, entrySize e + acc) 0 l.

(** One element per key, no nil value, an expiry only for a key that is
    held, and the byte count of what is held. *)
Record inv (c : lruCache) : Prop := {
  inv_keys : NoDup (keys c);
  inv_values : Forall (λ e, is_Some (value e)) (elems c);
  inv_expires : ∀ key_, is_Some (expires c !! key_) → key_ ∈ keys c;
  inv_used : usedBytes c = int64 (totalSize (elems c))
}.

(** The caches a program can hold. A tick of [cleanupLoop] is a call of
    [evict]. *)
Inductive reachable : lruCache → Prop :=
  | reach_new maxBytes_ onEvicted_ :
      reachable (newLRUCache maxBytes_ onEvicted_)
  | reach_SetWithExpiration c key_ value_ expiration now now' order c' evs :
      reachable c →
      ranges order (expiresAfter c key_ expiration now) →
      SetWithExpiration c key_ value_ expiration now now' order =
        Some (c', evs) →
      reachable c'
  | reach_Get c key_ now :
      reachable c → reachable (Get c key_ now).1.2
  | reach_GetWithExpiration c key_ now :
      reachable c → reachable (GetWithExpiration c key_ now).2
  | reach_Delete c key_ c' r evs :
      reachable c → Delete c key_ = Some (c', r, evs) → reachable c'
  | reach_Clear c order :
      reachable c → reachable (Clear c order).1
  | reach_UpdateExpiration c key_ expiration now :
      reachable c → reachable (UpdateExpiration c key_ expiration now).2
  | reach_SetMaxBytes c maxBytes_ now order c' evs :
      reachable c → ranges order (expires c) →
      SetMaxBytes c maxBytes_ now order = Some (c', evs) →
      reachable c'
  | reach_tick c now order c' evs :
      reachable c → ranges order (expires c) →
      evict c now order = Some (c', evs) → reachable c'.

(* ------------------------------------------------------------------- *)
(** *** Observations and sample caches *)

(** [key] is in [pairs] with a time before [now]. *)
Definition expiredIn (now : Z) (pairs : list (string * Z)) (x : string) : bool :=
  existsb (λ p, bool_decide (p.1 = x) && after now p.2) pairs.

(** The key has an expiry before [now]. *)
Definition expiredAt (c : lruCache) (now : Z) (key_ : string) : bool :=
  match expires c !! key_ with
  | Some expTime => after now expTime
  | None => false
  end.

(** The cache that the insert path hands to [evict]. *)
Definition inserted (c : lruCache) (key_ : string) (x : string)
    (expiration now : Z) : lruCache :=
  LruCache (Entry key_ (Some x) :: elems c)
    (expiresAfter c key_ expiration now)
    (maxBytes c)
    (int64 (usedBytes c + int64 (keyLen key_ + Go.Len x)))
    (onEvicted c).

(** Sample caches: no budget, a with expiry 5, then also b without expiry;
    a budget of 4 bytes holding a; three entries with expiries 5, 6
    and 20. *)
Definition one_entry_cache : lruCache :=
  from_option fst (newLRUCache 0 true)
    (SetWithExpiration (newLRUCache 0 true) "a" (Some "1") 5 0 0 [("a", 5)]).

Definition two_entry_cache : lruCache :=
  from_option fst one_entry_cache
    (Set_ one_entry_cache "b" (Some "2") 0 0 [("a", 5)]).

Definition budget_cache : lruCache :=
  from_option fst (newLRUCache 4 true)
    (Set_ (newLRUCache 4 true) "a" (Some "1") 0 0 []).


End Lru.

(* ===================================================================== *)
(** ** The package clock and its background task *)
(* ===================================================================== *)

Module Clock.

Definition Nanosecond : Z := 1.
Definition Microsecond : Z := 1000 * Nanosecond.
Definition Millisecond : Z := 1000 * Microsecond.

(** [clock] is the package variable; [wall] is what [time.Now().UnixNano()]
    would return at this point of the run. *)
Record world := World { clock : Z; wall : Z }.

Definition Now (w : world) : Z := clock w.

(** [atomic.StoreInt64(&clock, time.Now().UnixNano())] *)
Definition sample (w : world) : world := World (wall w) (wall w).

(** [time.Sleep(time.Millisecond * 100)], which returns after [elapsed]
    nanoseconds of wall time. *)
Definition sleep (elapsed : Z) (w : world) : world :=
  World (clock w) (wall w + elapsed).

(** [atomic.AddInt64(&clock, int64(100*time.Microsecond))] *)
Definition advance (w : world) : world :=
  World (plus64 (clock w) (int64 (100 * Microsecond))) (wall w).

(** [for i := 0; i < 9; i++ { Sleep; AddInt64 }], run for [i] rounds;
    [elapsed j] is the wall time the sleep of round [j] took. *)
Fixpoint rounds (i : nat) (elapsed : nat → Z) (w : world) : world :=
  match i with
  | O => w
  | S i' => advance (sleep (elapsed i') (rounds i' elapsed w))
  end.

(** One iteration of the outer [for]. *)
Definition iteration (elapsed : nat → Z) (w : world) : world :=
  sleep (elapsed 9%nat) (rounds 9 elapsed (sample w)).

(** The nominal duration of each sleep. *)
Definition nominal : Z := Millisecond * 100.

(** How far [Now()] is behind the wall clock. *)
Definition staleness (w : world) : Z := wall w - Now w.

(* ------------------------------------------------------------------- *)
(** *** Wall time spent asleep *)

(** The wall time the first [i] sleeps of an iteration took. *)
Fixpoint slept (i : nat) (elapsed : nat → Z) : Z :=
  match i with
  | O => 0
  | S i' => slept i' elapsed + elapsed i'
  end.

(** A world whose wall clock reads 1.7e18 ns. *)
Definition epoch_world : world := World 0 1700000000000000000.

End Clock.

(* ===================================================================== *)
(** ** Facts about the slot cache and the LRU-2 store *)
(* ===================================================================== *)

Module Lru2Facts.

Import Lru2.

Lemma uint16_small x : 0 <= x < 65536 → uint16 x = x.
Proof. intros. unfold uint16. apply Z.mod_small. lia. Qed.

Lemma index_lookup {A} (s : list A) i : 0 <= i → index s i = s !! Z.to_nat i.
Proof. intros. unfold index. destruct (Z.ltb_spec i 0); [lia | done]. Qed.

Lemma index_in_range {A} (s : list A) i :
  0 <= i < Z.of_nat (length s) → ∃ x, index s i = Some x.
Proof.
  intros [H0 H1]. rewrite index_lookup by done.
  apply lookup_lt_is_Some_2. lia.
Qed.

Lemma index_Some_range {A} (s : list A) i x :
  index s i = Some x → 0 <= i < Z.of_nat (length s).
Proof.
  unfold index. destruct (Z.ltb_spec i 0); [done |].
  intros H1%lookup_lt_Some. lia.
Qed.

Lemma assign_in_range {A} (s : list A) i x :
  0 <= i < Z.of_nat (length s) → assign s i x = Some (<[Z.to_nat i := x]> s).
Proof.
  intros H. unfold assign. destruct (index_in_range s i H) as [y ->]. done.
Qed.

Lemma sel_bounds x j L :
  (0 <= x.1 <= L) ∧ (0 <= x.2 <= L) → 0 <= sel x j <= L.
Proof. unfold sel. destruct (j =? 0); tauto. Qed.

Lemma upd_bounds x j y L :
  (0 <= x.1 <= L) ∧ (0 <= x.2 <= L) → 0 <= y <= L →
  (0 <= (upd x j y).1 <= L) ∧ (0 <= (upd x j y).2 <= L).
Proof. unfold upd. destruct (j =? 0); simpl; tauto. Qed.

Lemma ld_ok d L i j :
  links_ok d L → 0 <= i <= L → ∃ y, ld d i j = Some y ∧ 0 <= y <= L.
Proof.
  intros [Hlen Hall] Hi. unfold ld.
  destruct (index_in_range d i) as [x Hx]; [lia |].
  rewrite Hx. simpl. eexists; split; [done |].
  apply sel_bounds. rewrite index_lookup in Hx by lia.
  eapply Forall_lookup_1 in Hall; eauto.
Qed.

Lemma st_ok d L i j y :
  links_ok d L → 0 <= i <= L → 0 <= y <= L →
  ∃ d', st d i j y = Some d' ∧ links_ok d' L ∧ length d' = length d.
Proof.
  intros [Hlen Hall] Hi Hy. unfold st.
  destruct (index_in_range d i) as [x Hx]; [lia |].
  rewrite Hx. simpl. rewrite assign_in_range by lia.
  eexists; split; [done |]. unfold links_ok. rewrite length_insert.
  split; [| done]. split; [done |]. apply Forall_insert; [done |].
  apply upd_bounds; [| done]. rewrite index_lookup in Hx by lia.
  eapply Forall_lookup_1 in Hall; eauto.
Qed.

Ltac links_step :=
  match goal with
  | H : links_ok ?d ?L |- context [ld ?d ?i ?j] =>
      let y := fresh "y" in let E := fresh "E" in let B := fresh "B" in
      destruct (ld_ok d L i j H ltac:(lia)) as (y & E & B);
      rewrite E; clear E; simpl
  | H : links_ok ?d ?L |- context [st ?d ?i ?j ?y] =>
      let d' := fresh "d" in let E := fresh "E" in
      let B := fresh "B" in let N := fresh "N" in
      destruct (st_ok d L i j y H ltac:(lia) ltac:(lia)) as (d' & E & B & N);
      rewrite E; clear E; simpl
  | |- context [if ?b then _ else _] => destruct b; simpl
  end.

Lemma adjust_links_ok d L idx f t :
  links_ok d L → 0 <= idx <= L →
  ∃ d', adjust_links d idx f t = Some d' ∧ links_ok d' L ∧ length d' = length d.
Proof.
  intros Hd Hidx. unfold adjust_links.
  repeat links_step; eauto; try (eexists; split; [done|]; split; [done|]; congruence).
Qed.

Lemma adjust_ok c idx f t :
  links_ok (dlnk c) (last c) → 0 <= idx <= last c →
  ∃ d', adjust c idx f t = Some (Cache d' (m c) (hmap c) (last c)) ∧
        links_ok d' (last c) ∧ length d' = length (dlnk c).
Proof.
  intros Hd Hidx. unfold adjust.
  destruct (adjust_links_ok _ _ idx f t Hd Hidx) as (d' & -> & ? & ?).
  simpl. eauto.
Qed.

(** Rewriting one slot without changing its key keeps the invariant. *)
Lemma wf_rewrite_slot c d' i nd' :
  wf c → links_ok d' (last c) → length d' = length (dlnk c) →
  (∀ nd, m c !! i = Some nd → k nd' = k nd) →
  wf (Cache d' (<[i := nd']> (m c)) (hmap c) (last c)).
Proof.
  intros [H1 H2 H3 H4 H5] Hd Hlen Hk.
  constructor; simpl; rewrite ?length_insert; try done; [congruence |].
  intros key idx Hkey. destruct (H5 key idx Hkey) as (Hr & nd & Hnd & Hkn).
  split; [done |]. destruct (decide (i = Z.to_nat (idx - 1))) as [-> | Hne].
  - exists nd'. split; [| rewrite (Hk nd Hnd); done].
    apply list_lookup_insert_eq. by eapply lookup_lt_Some.
  - exists nd. by rewrite list_lookup_insert_ne.
Qed.

Lemma wf_slot c key idx :
  wf c → hmap c !! key = Some idx →
  1 <= idx <= last c ∧ uint16 (idx - 1) = idx - 1 ∧
  0 <= idx - 1 < Z.of_nat (length (m c)) ∧
  ∃ nd, index (m c) (uint16 (idx - 1)) = Some nd ∧
        m c !! Z.to_nat (idx - 1) = Some nd ∧ k nd = key.
Proof.
  intros Hwf Hkey. destruct (wf_hmap c Hwf key idx Hkey) as (Hr & nd & Hnd & Hk).
  pose proof (wf_last c Hwf). pose proof (wf_cap c Hwf).
  assert (uint16 (idx - 1) = idx - 1) as E by (apply uint16_small; lia).
  repeat split; try lia. exists nd. rewrite E, index_lookup by lia. done.
Qed.

Lemma slot_wf c key nd : wf c → slot c key = Some nd → k nd = key.
Proof.
  intros Hwf. unfold slot. destruct (hmap c !! key) as [idx |] eqn:E; [| done].
  simpl. destruct (wf_slot c key idx Hwf E) as (_ & _ & _ & nd' & -> & _ & Hk).
  congruence.
Qed.

Lemma live_slot c key nd :
  live c key = Some nd → slot c key = Some nd ∧ gt0 (expireAt nd) = true.
Proof.
  unfold live. destruct (slot c key) as [nd' |]; [| done]. simpl.
  destruct (gt0 (expireAt nd')) eqn:E; [| done]. by intros [= <-].
Qed.

Lemma live_wf c key nd : wf c → live c key = Some nd → k nd = key.
Proof. intros Hwf [H _]%live_slot. by eapply slot_wf. Qed.

(** Two keys never share a slot. *)
Lemma wf_hmap_inj c key key' idx :
  wf c → hmap c !! key = Some idx → hmap c !! key' = Some idx → key = key'.
Proof.
  intros Hwf H1 H2.
  destruct (wf_hmap c Hwf _ _ H1) as (_ & nd & Hnd & <-).
  destruct (wf_hmap c Hwf _ _ H2) as (_ & nd' & Hnd' & <-).
  congruence.
Qed.

Lemma del_live c key nd :
  wf c → live c key = Some nd →
  ∃ c', del c key = Some (c', Some (Node key (v nd) 0), 1, expireAt nd) ∧
        wf c' ∧ hmap c' = hmap c ∧ last c' = last c ∧
        length (m c') = length (m c) ∧
        slot c' key = Some (Node key (v nd) 0) ∧
        (∀ key', key' ≠ key → slot c' key' = slot c key').
Proof.
  intros Hwf Hl. destruct (live_slot _ _ _ Hl) as [Hs Hpos].
  unfold slot in Hs. destruct (hmap c !! key) as [idx |] eqn:Hidx; [| done].
  simpl in Hs.
  destruct (wf_slot c key idx Hwf Hidx) as (Hr & E16 & Hi & nd' & Hnd' & Hm & Hk).
  assert (nd' = nd) as -> by congruence.
  unfold del. rewrite Hidx, Hnd'. simpl. rewrite Hpos.
  rewrite E16, assign_in_range by done. simpl.
  destruct (adjust_ok (Cache (dlnk c) (<[Z.to_nat (idx - 1) := Node (k nd) (v nd) 0]> (m c))
                         (hmap c) (last c)) idx Head Tail)
    as (d' & -> & Hd' & Hlen); simpl; [apply Hwf | lia |].
  simpl. rewrite Hk. eexists; split; [done |]. simpl.
  split; [apply wf_rewrite_slot; try done; [by intros ? [= <-]%(eq_trans (eq_sym Hm))] |].
  rewrite length_insert. repeat split; try done.
  - unfold slot; simpl. rewrite Hidx; simpl. rewrite E16, index_lookup by lia.
    apply list_lookup_insert_eq. lia.
  - intros key' Hne. unfold slot; simpl.
    destruct (hmap c !! key') as [idx' |] eqn:Hidx'; [| done]. simpl.
    destruct (wf_slot c key' idx' Hwf Hidx') as (Hr' & E16' & Hi' & _).
    rewrite E16', !index_lookup by lia.
    apply list_lookup_insert_ne. intros Heq.
    assert (idx = idx') as <- by lia.
    apply Hne. by eapply wf_hmap_inj.
Qed.

Lemma slot_None_wf c key : wf c → slot c key = None → hmap c !! key = None.
Proof.
  intros Hwf. unfold slot. destruct (hmap c !! key) as [idx |] eqn:E; [| done].
  simpl. destruct (wf_slot c key idx Hwf E) as (_ & _ & _ & nd & -> & _). done.
Qed.

Lemma del_dead c key :
  wf c → live c key = None → del c key = Some (c, None, 0, 0).
Proof.
  intros Hwf. unfold live, slot, del.
  destruct (hmap c !! key) as [idx |] eqn:E; [| done]. simpl.
  destruct (wf_slot c key idx Hwf E) as (_ & _ & _ & nd & -> & _). simpl.
  by destruct (gt0 (expireAt nd)).
Qed.

Lemma get_hit c key nd :
  wf c → slot c key = Some nd →
  ∃ c', get c key = Some (c', Some nd, 1) ∧ wf c' ∧
        m c' = m c ∧ hmap c' = hmap c ∧ last c' = last c.
Proof.
  intros Hwf. unfold slot, get.
  destruct (hmap c !! key) as [idx |] eqn:E; [| done]. simpl. intros Hnd.
  destruct (wf_slot c key idx Hwf E) as (Hr & _).
  destruct (adjust_ok c idx Tail Head) as (d' & -> & Hd' & Hlen);
    [apply Hwf | lia |].
  simpl. rewrite Hnd. simpl. eexists; split; [done |]. simpl.
  split; [| done]. destruct Hwf as [H1 H2 H3 H4 H5].
  constructor; simpl; try done. congruence.
Qed.

Lemma get_miss c key :
  wf c → slot c key = None → get c key = Some (c, None, 0).
Proof.
  intros Hwf H%slot_None_wf; [| done]. unfold get. by rewrite H.
Qed.

Lemma links_ok_mono d L L' :
  links_ok d L → L <= L' < Z.of_nat (length d) → links_ok d L'.
Proof.
  intros [H1 H2] HL. split; [lia |].
  eapply Forall_impl; [exact H2 |]. simpl. lia.
Qed.

Lemma assign_row_ok d L i h :
  links_ok d L → 0 <= i <= L → 0 <= h <= L →
  ∃ d', assign d i (0, h) = Some d' ∧ links_ok d' L ∧ length d' = length d.
Proof.
  intros [Hlen Hall] Hi Hh. rewrite assign_in_range by lia.
  eexists; split; [done |]. unfold links_ok. rewrite length_insert.
  split; [| done]. split; [done |]. apply Forall_insert; [done |]. simpl. lia.
Qed.

Lemma put_ready_update c key idx : hmap c !! key = Some idx → put_ready c key = true.
Proof. unfold put_ready. by intros ->. Qed.

(** [put] on an indexed key rewrites its slot in place. *)
Lemma put_update c key idx val e cb :
  wf c → hmap c !! key = Some idx →
  ∃ d', put c key val e cb =
          Some (Cache d' (<[Z.to_nat (idx - 1) := Node key val e]> (m c))
                      (hmap c) (last c), [], 0) ∧
        links_ok d' (last c) ∧ length d' = length (dlnk c).
Proof.
  intros Hwf Hidx. unfold put. rewrite Hidx.
  destruct (wf_slot c key idx Hwf Hidx) as (Hr & E16 & Hi & nd & -> & Hm & Hk).
  simpl. rewrite E16, assign_in_range by done. simpl.
  destruct (adjust_ok (Cache (dlnk c) (<[Z.to_nat (idx - 1) := Node (k nd) val e]> (m c))
                         (hmap c) (last c)) idx Tail Head)
    as (d' & -> & Hd' & Hlen); simpl; [apply Hwf | lia |].
  rewrite Hk. eauto.
Qed.

(** [put] of a new key into a full cache recycles the slot the sentinel
    names as tail, and panics when it names none. *)
Lemma put_evict c key val e cb :
  wf c → hmap c !! key = None → last c = Z.of_nat (length (m c)) →
  ∃ t, ld (dlnk c) 0 Tail = Some t ∧ 0 <= t <= last c ∧
    if t =? 0 then put c key val e cb = None
    else ∃ tail d',
      m c !! Z.to_nat (t - 1) = Some tail ∧
      put c key val e cb =
        Some (Cache d' (<[Z.to_nat (t - 1) := Node key val e]> (m c))
                    (<[key := t]> (base.delete (k tail) (hmap c))) (last c),
              (if cb && gt0 (expireAt tail) then [(k tail, v tail)] else []),
              1) ∧
      links_ok d' (last c) ∧ length d' = length (dlnk c).
Proof.
  intros Hwf Hidx Hfull. unfold put. rewrite Hidx.
  pose proof (wf_last c Hwf) as Hl. pose proof (wf_cap c Hwf) as Hc.
  rewrite (uint16_small (Z.of_nat _)) by lia.
  rewrite (proj2 (Z.eqb_eq _ _) Hfull).
  destruct (ld_ok (dlnk c) (last c) 0 Tail) as (t & Ht & Hb); [apply Hwf | lia |].
  exists t. split; [done |]. split; [done |]. rewrite Ht. simpl.
  destruct (Z.eqb_spec t 0) as [-> | Hne].
  - replace (uint16 (0 - 1)) with 65535 by done.
    destruct (index (m c) 65535) eqn:E; [| done].
    apply index_Some_range in E. lia.
  - rewrite (uint16_small (t - 1)) by lia.
    destruct (index_in_range (m c) (t - 1)) as [tail Htail]; [lia |].
    rewrite Htail. simpl. rewrite assign_in_range by lia. simpl. rewrite Ht. simpl.
    destruct (adjust_ok (Cache (dlnk c) (<[Z.to_nat (t - 1) := Node key val e]> (m c))
                           (<[key := t]> (base.delete (k tail) (hmap c))) (last c)) t Tail Head)
      as (d' & -> & Hd' & Hlen); simpl; [apply Hwf | lia |].
    exists tail, d'. rewrite index_lookup in Htail by lia. done.
Qed.

Ltac links_step' :=
  match goal with
  | H : links_ok ?d ?L |- context [assign ?d ?i (0, ?h)] =>
      let d' := fresh "d" in let E := fresh "E" in
      let B := fresh "B" in let N := fresh "N" in
      destruct (assign_row_ok d L i h H ltac:(lia) ltac:(lia)) as (d' & E & B & N);
      rewrite E; clear E; simpl
  | _ => links_step
  end.

(** [put] of a new key while a slot is left claims slot [last+1]. *)
Lemma put_fresh c key val e cb :
  wf c → hmap c !! key = None → last c ≠ Z.of_nat (length (m c)) →
  ∃ d', put c key val e cb =
          Some (Cache d' (<[Z.to_nat (last c) := Node key val e]> (m c))
                      (<[key := last c + 1]> (hmap c)) (last c + 1), [], 1) ∧
        links_ok d' (last c + 1) ∧ length d' = length (dlnk c).
Proof.
  intros Hwf Hidx Hfull. unfold put. rewrite Hidx.
  pose proof (wf_last c Hwf) as Hl. pose proof (wf_cap c Hwf) as Hc.
  pose proof (wf_dlnk c Hwf) as Hd.
  rewrite (uint16_small (Z.of_nat _)) by lia.
  rewrite (proj2 (Z.eqb_neq _ _) Hfull).
  rewrite (uint16_small (last c + 1)) by lia.
  replace (last c + 1 - 1) with (last c) by lia.
  rewrite (uint16_small (last c)) by lia.
  assert (links_ok (dlnk c) (last c + 1)) as Hok.
  { eapply links_ok_mono; [apply Hwf |]. lia. }
  destruct (index_in_range (m c) (last c)) as [x Hx]; [lia |].
  rewrite (assign_in_range (m c)) by lia. rewrite Hx.
  destruct (Z.of_nat (size (hmap c)) <=? 0); simpl;
    repeat links_step'; (eexists; split; [done |]; split; [done |]; congruence).
Qed.

Lemma put_ready_fresh c key :
  hmap c !! key = None → last c ≠ Z.of_nat (length (m c)) → put_ready c key = true.
Proof.
  intros H1 H%Z.eqb_neq. unfold put_ready. rewrite H1, H. done.
Qed.

(** What [put] guarantees whenever it returns. *)
Lemma put_inv c key val e cb c' evs r :
  wf c → put c key val e cb = Some (c', evs, r) →
  wf c' ∧ slot c' key = Some (Node key val e) ∧
  length (m c') = length (m c) ∧
  (∀ key', key' ≠ key → slot c' key' = slot c key' ∨ slot c' key' = None) ∧
  (length evs <= 1)%nat ∧ put_ready c key = true.
Proof.
  intros Hwf Hput.
  pose proof (wf_last c Hwf) as Hl. pose proof (wf_cap c Hwf) as Hc.
  pose proof (wf_dlnk c Hwf) as Hd.
  destruct (hmap c !! key) as [idx |] eqn:Hidx.
  - (* update *)
    destruct (put_update c key idx val e cb Hwf Hidx) as (d' & E & Hd' & Hlen).
    rewrite E in Hput. injection Hput as <- <- <-.
    destruct (wf_slot c key idx Hwf Hidx) as (Hr & E16 & Hi & nd & _ & Hm & Hk).
    split; [apply wf_rewrite_slot; try done; by intros ? [= <-]%(eq_trans (eq_sym Hm)) |].
    simpl. rewrite length_insert. repeat split; try done; [| | lia | by eapply put_ready_update].
    + unfold slot; simpl. rewrite Hidx; simpl. rewrite E16, index_lookup by lia.
      apply list_lookup_insert_eq. lia.
    + intros key' Hne. left. unfold slot; simpl.
      destruct (hmap c !! key') as [idx' |] eqn:Hidx'; [| done]. simpl.
      destruct (wf_slot c key' idx' Hwf Hidx') as (Hr' & E16' & Hi' & _).
      rewrite E16', !index_lookup by lia.
      apply list_lookup_insert_ne. intros Heq.
      assert (idx = idx') as <- by lia. apply Hne. by eapply wf_hmap_inj.
  - destruct (decide (last c = Z.of_nat (length (m c)))) as [Hfull | Hfree].
    + (* recycle the tail slot *)
      destruct (put_evict c key val e cb Hwf Hidx Hfull) as (t & Ht & Hb & Hcase).
      destruct (Z.eqb_spec t 0) as [-> | Hne]; [congruence |].
      destruct Hcase as (tail & d' & Htail & E & Hd' & Hlen).
      rewrite E in Hput. injection Hput as <- <- <-.
      assert (Hslots : ∀ key' idx', key' ≠ key →
                <[key := t]> (base.delete (k tail) (hmap c)) !! key' = Some idx' →
                hmap c !! key' = Some idx' ∧ idx' ≠ t).
      { intros key' idx' Hne'. rewrite lookup_insert_ne by done.
        intros [Hkt Hold]%lookup_delete_Some. split; [done |]. intros ->.
        destruct (wf_hmap c Hwf _ _ Hold) as (_ & nd & Hnd & Hk). congruence. }
      split; [| simpl; rewrite length_insert; repeat split; try done].
      * constructor; simpl; rewrite ?length_insert; try done; [congruence |].
        intros key' idx'. destruct (decide (key' = key)) as [-> | Hne'].
        -- rewrite lookup_insert_eq. intros [= <-]. split; [lia |].
           eexists; split; [apply list_lookup_insert_eq; lia | done].
        -- intros [Hold Hnt]%Hslots; [| done].
           destruct (wf_hmap c Hwf _ _ Hold) as (Hr & nd & Hnd & Hk).
           split; [done |]. exists nd. split; [| done].
           rewrite list_lookup_insert_ne by lia. done.
      * unfold slot; simpl. rewrite lookup_insert_eq; simpl.
        rewrite uint16_small, index_lookup by lia.
        apply list_lookup_insert_eq. lia.
      * intros key' Hne'. unfold slot; simpl.
        destruct (<[key := t]> (base.delete (k tail) (hmap c)) !! key')
          as [idx' |] eqn:Hidx'; [| by right]. left.
        destruct (Hslots _ _ Hne' Hidx') as [Hold Hnt]. rewrite Hold. simpl.
        destruct (wf_slot c key' idx' Hwf Hold) as (Hr' & E16' & Hi' & _).
        rewrite E16', !index_lookup by lia.
        apply list_lookup_insert_ne. lia.
      * destruct (cb && gt0 (expireAt tail)); simpl; lia.
      * unfold put_ready. rewrite Hidx, Ht.
        destruct (Z.eqb_spec t 0); [done |]. by rewrite orb_true_r.
    + (* claim a fresh slot *)
      destruct (put_fresh c key val e cb Hwf Hidx Hfree) as (d' & E & Hd' & Hlen).
      rewrite E in Hput. injection Hput as <- <- <-.
      split; [| simpl; rewrite length_insert; repeat split; try done].
      * constructor; simpl; rewrite ?length_insert; try done; [congruence | lia |].
        intros key' idx'. destruct (decide (key' = key)) as [-> | Hne'].
        -- rewrite lookup_insert_eq. intros [= <-]. split; [lia |].
           replace (last c + 1 - 1) with (last c) by lia.
           eexists; split; [apply list_lookup_insert_eq; lia | done].
        -- rewrite lookup_insert_ne by done. intros Hold.
           destruct (wf_hmap c Hwf _ _ Hold) as (Hr & nd & Hnd & Hk).
           split; [lia |]. exists nd. split; [| done].
           rewrite list_lookup_insert_ne by lia. done.
      * unfold slot; simpl. rewrite lookup_insert_eq; simpl.
        replace (last c + 1 - 1) with (last c) by lia.
        rewrite uint16_small, index_lookup by lia.
        apply list_lookup_insert_eq. lia.
      * intros key' Hne'. left. unfold slot; simpl.
        rewrite lookup_insert_ne by done.
        destruct (hmap c !! key') as [idx' |] eqn:Hidx'; [| done]. simpl.
        destruct (wf_slot c key' idx' Hwf Hidx') as (Hr' & E16' & Hi' & _).
        rewrite E16', !index_lookup by lia.
        apply list_lookup_insert_ne. lia.
      * simpl. lia.
      * by apply put_ready_fresh.
Qed.

(** [put] returns exactly when it is ready. *)
Lemma put_total c key val e cb :
  wf c → put_ready c key = true → is_Some (put c key val e cb).
Proof.
  intros Hwf Hready.
  destruct (hmap c !! key) as [idx |] eqn:Hidx.
  - destruct (put_update c key idx val e cb Hwf Hidx) as (d' & -> & _). done.
  - destruct (decide (last c = Z.of_nat (length (m c)))) as [Hfull | Hfree].
    + destruct (put_evict c key val e cb Hwf Hidx Hfull) as (t & Ht & Hb & Hcase).
      unfold put_ready in Hready. rewrite Hidx, Ht in Hready.
      rewrite (proj2 (Z.eqb_eq _ _) Hfull) in Hready. simpl in Hready.
      destruct (t =? 0); [done |].
      destruct Hcase as (tail & d' & _ & -> & _). done.
    + destruct (put_fresh c key val e cb Hwf Hidx Hfree) as (d' & -> & _). done.
Qed.

Lemma land_upper a b : 0 <= b → Z.land a b <= b.
Proof.
  intros Hb. rewrite Z.land_comm.
  assert (Z.land (Z.ldiff b a) (Z.land b a) = 0) as Hdisj.
  { rewrite (Z.land_comm b a), Z.land_assoc, Z.land_ldiff. apply Z.land_0_l. }
  pose proof (Z.lor_ldiff_and b a) as Hsplit.
  rewrite <- Z.lxor_lor, <- Z.add_nocarry_lxor in Hsplit by done.
  assert (0 <= Z.ldiff b a) by (apply Z.ldiff_nonneg; lia). lia.
Qed.

Lemma land_mask_range h msk : 0 <= msk → 0 <= Z.land h msk <= msk.
Proof.
  intros. split; [apply Z.land_nonneg; lia | by apply land_upper].
Qed.

Lemma shard_range s key : wf_store s → 0 <= shard s key <= mask s.
Proof. intros Hwf. apply land_mask_range, Hwf. Qed.

Lemma shard_lookup s idx :
  wf_store s → 0 <= idx <= mask s →
  ∃ c0 c1, index (caches s) idx = Some (c0, c1) ∧ wf c0 ∧ wf c1.
Proof.
  intros [H1 H2 H3] Hidx.
  destruct (index_in_range (caches s) idx) as [[c0 c1] Hsh]; [lia |].
  exists c0, c1. split; [done |]. rewrite index_lookup in Hsh by lia.
  eapply Forall_lookup_1 in H3; [| exact Hsh]. exact H3.
Qed.

Lemma tier_eq s idx sh level :
  index (caches s) idx = Some sh →
  tier s idx level = Some (if level =? 0 then sh.1 else sh.2).
Proof. intros H. unfold tier. by rewrite H. Qed.

Lemma set_tier_eq s idx sh level c :
  index (caches s) idx = Some sh →
  set_tier s idx level c =
    Some (with_shard s idx (if level =? 0 then (c, sh.2) else (sh.1, c))).
Proof.
  intros H. unfold set_tier, assign. rewrite H. done.
Qed.

Lemma index_with_shard s idx sh sh' :
  index (caches s) idx = Some sh →
  index (caches (with_shard s idx sh')) idx = Some sh'.
Proof.
  intros H. pose proof (index_Some_range _ _ _ H). simpl.
  rewrite index_lookup by lia. apply list_lookup_insert_eq. lia.
Qed.

Lemma with_shard_twice s idx sh sh' :
  with_shard (with_shard s idx sh) idx sh' = with_shard s idx sh'.
Proof. unfold with_shard. simpl. by rewrite list_insert_insert_eq. Qed.

Lemma wf_with_shard s idx sh c0 c1 :
  wf_store s → index (caches s) idx = Some sh → wf c0 → wf c1 →
  wf_store (with_shard s idx (c0, c1)).
Proof.
  intros [H1 H2 H3] Hsh Hc0 Hc1.
  constructor; simpl; rewrite ?length_insert; try done.
  apply Forall_insert; done.
Qed.

Lemma shard_with_shard s idx sh key :
  shard (with_shard s idx sh) key = shard s key.
Proof. done. Qed.

Lemma present_with_shard s key c0 c1 level sh :
  index (caches s) (shard s key) = Some sh →
  present (with_shard s (shard s key) (c0, c1)) key level =
  live (if level =? 0 then c0 else c1) key.
Proof.
  intros H. unfold present. rewrite shard_with_shard.
  erewrite tier_eq by (by eapply index_with_shard). simpl.
  by destruct (level =? 0).
Qed.

Lemma present_eq s key sh level :
  index (caches s) (shard s key) = Some sh →
  present s key level = live (if level =? 0 then sh.1 else sh.2) key.
Proof. intros H. unfold present. by erewrite tier_eq by done. Qed.

(** [delete] in terms of the two [del] calls it makes. *)
Lemma delete_eq s key idx c0 c1 c0' c1' n1 n2 s1 s2 e1 e2 :
  index (caches s) idx = Some (c0, c1) →
  del c0 key = Some (c0', n1, s1, e1) →
  del c1 key = Some (c1', n2, s2, e2) →
  delete s key idx =
    Some (with_shard s idx (c0', c1'), (0 <? s1) || (0 <? s2),
          if ((0 <? s1) || (0 <? s2)) && onEvicted s
          then delete_events true key n1 n2 else []).
Proof.
  intros Hsh H0 H1. unfold delete.
  rewrite (tier_eq _ _ _ 0 Hsh). simpl. rewrite H0. simpl.
  rewrite (set_tier_eq _ _ _ 0 _ Hsh). simpl.
  pose proof (index_with_shard s idx _ (c0', c1) Hsh) as Hsh'.
  rewrite (tier_eq _ _ _ 1 Hsh'). simpl. rewrite H1. simpl.
  rewrite (set_tier_eq _ _ _ 1 _ Hsh'). simpl.
  rewrite with_shard_twice. do 2 f_equal.
  destruct ((0 <? s1) || (0 <? s2)), (onEvicted s); simpl; try done.
  unfold delete_events, value_of.
  destruct n1 as [[? [?|] ?]|], n2 as [[? [?|] ?]|]; done.
Qed.

(** [del] as a function of what is live. *)
Lemma del_spec c key :
  wf c →
  ∃ c', del c key =
          Some (c', (λ nd, Node key (v nd) 0) <$> live c key,
                match live c key with Some _ => 1 | None => 0 end,
                from_option expireAt 0 (live c key)) ∧
        wf c' ∧ live c' key = None ∧
        (∀ key', key' ≠ key → slot c' key' = slot c key').
Proof.
  intros Hwf. destruct (live c key) as [nd |] eqn:Hl.
  - destruct (del_live c key nd Hwf Hl) as (c' & E & Hwf' & _ & _ & _ & Hs & Ho).
    exists c'. simpl. split; [done |]. split; [done |]. split; [| done].
    unfold live. by rewrite Hs.
  - exists c. rewrite del_dead by done. done.
Qed.

Lemma live_of_slot c c' key : slot c' key = slot c key → live c' key = live c key.
Proof. unfold live. by intros ->. Qed.

Lemma delete_spec s key idx c0 c1 :
  wf_store s → index (caches s) idx = Some (c0, c1) → wf c0 → wf c1 →
  ∃ c0' c1',
    delete s key idx =
      Some (with_shard s idx (c0', c1'),
            bool_decide (is_Some (live c0 key) ∨ is_Some (live c1 key)),
            delete_events (onEvicted s) key (live c0 key) (live c1 key)) ∧
    wf c0' ∧ wf c1' ∧ live c0' key = None ∧ live c1' key = None ∧
    (∀ key', key' ≠ key → live c0' key' = live c0 key' ∧ live c1' key' = live c1 key').
Proof.
  intros Hwf Hsh Hwf0 Hwf1.
  destruct (del_spec c0 key Hwf0) as (c0' & E0 & Hwf0' & Hd0 & Ho0).
  destruct (del_spec c1 key Hwf1) as (c1' & E1 & Hwf1' & Hd1 & Ho1).
  exists c0', c1'. rewrite (delete_eq _ _ _ _ _ _ _ _ _ _ _ _ _ Hsh E0 E1).
  split; [| split_and!; try done; intros; split; apply live_of_slot; auto].
  f_equal. f_equal; [f_equal |].
  - symmetry. destruct (live c0 key), (live c1 key);
      [apply bool_decide_eq_true_2; eauto .. |].
    apply bool_decide_eq_false_2. by intros [[? [=]] | [? [=]]].
  - unfold delete_events, value_of.
    destruct (live c0 key) as [nd0 |] eqn:L0, (live c1 key) as [nd1 |] eqn:L1,
      (onEvicted s); simpl; try done.
Qed.

Lemma gt0_spec a : gt0 a = true ↔ 0 < a.
Proof. unfold gt0, after. apply Z.ltb_lt. Qed.

Lemma at_or_after_spec a b : at_or_after a b = true ↔ b <= a.
Proof. unfold at_or_after. apply Z.leb_le. Qed.

Lemma at_or_after_false a b : at_or_after a b = false ↔ a < b.
Proof. unfold at_or_after. apply Z.leb_gt. Qed.

Lemma live_gt0 c key nd : live c key = Some nd → gt0 (expireAt nd) = true.
Proof. by intros [_ H]%live_slot. Qed.

Lemma live_of_slot_Some c key nd :
  slot c key = Some nd → gt0 (expireAt nd) = true → live c key = Some nd.
Proof. unfold live. intros -> H. simpl. by rewrite H. Qed.

(** [Get] on a key that is live in tier 1 and whose stamp has not been
    reached: the entry moves to tier 2, or the tier-2 [put] panics. *)
Lemma Get_tier1_valid s key now now' c0 c1 nd :
  wf_store s → index (caches s) (shard s key) = Some (c0, c1) →
  wf c0 → wf c1 → live c0 key = Some nd → now < expireAt nd →
  if put_ready c1 key then
    ∃ c0' c1' evs,
      Get s key now now' =
        Some (v nd, true, with_shard s (shard s key) (c0', c1'), evs) ∧
      wf c0' ∧ wf c1' ∧ live c0' key = None ∧
      live c1' key = Some (Node key (v nd) (expireAt nd)) ∧
      (∀ key', key' ≠ key → slot c0' key' = slot c0 key') ∧
      (length evs <= 1)%nat
  else Get s key now now' = None.
Proof.
  intros Hwf Hsh Hwf0 Hwf1 Hl Hnow.
  destruct (del_spec c0 key Hwf0) as (c0' & E0 & Hwf0' & Hd0 & Ho0).
  rewrite Hl in E0. simpl in E0.
  pose proof (live_gt0 _ _ _ Hl) as Hpos.
  pose proof (index_with_shard s _ _ (c0', c1) Hsh) as Hsh'.
  assert (Get s key now now' =
            '(c1', evs, _) ← put c1 key (v nd) (expireAt nd) (onEvicted s);
            Some (v nd, true, with_shard s (shard s key) (c0', c1'), evs)) as ->.
  { unfold Get. rewrite (tier_eq _ _ _ 0 Hsh). simpl. rewrite E0. simpl.
    rewrite (set_tier_eq _ _ _ 0 _ Hsh). simpl. rewrite Hpos. simpl.
    rewrite (proj2 (at_or_after_false _ _) Hnow). simpl.
    rewrite ?shard_with_shard, (tier_eq _ _ _ 1 Hsh'). simpl.
    destruct (put c1 key (v nd) (expireAt nd) (onEvicted s)) as [[[c1' evs] r] |];
      [| done]. simpl.
    rewrite (set_tier_eq _ _ _ 1 _ Hsh'). simpl. by rewrite with_shard_twice. }
  destruct (put_ready c1 key) eqn:Hready.
  - destruct (put_total c1 key (v nd) (expireAt nd) (onEvicted s) Hwf1 Hready)
      as [[[c1' evs] r] Hput].
    destruct (put_inv _ _ _ _ _ _ _ _ Hwf1 Hput) as (Hwf1' & Hs1 & _ & _ & Hev & _).
    rewrite Hput. simpl. exists c0', c1', evs. split_and!; try done.
    by apply live_of_slot_Some.
  - destruct (put c1 key (v nd) (expireAt nd) (onEvicted s))
      as [[[c1' evs] r] |] eqn:Hput; [| done].
    destruct (put_inv _ _ _ _ _ _ _ _ Hwf1 Hput) as (_ & _ & _ & _ & _ & Hr).
    congruence.
Qed.

(** [Get] on a key that is live in tier 1 with a stamp already reached. The
    tier-1 node was tombstoned by the first [del], so the [delete] that
    follows reports only what tier 2 holds. *)
Lemma Get_tier1_expired s key now now' c0 c1 nd :
  wf_store s → index (caches s) (shard s key) = Some (c0, c1) →
  wf c0 → wf c1 → live c0 key = Some nd → expireAt nd <= now →
  ∃ c0' c1',
    Get s key now now' =
      Some (None, false, with_shard s (shard s key) (c0', c1'),
            delete_events (onEvicted s) key None (live c1 key)) ∧
    wf c0' ∧ wf c1' ∧ live c0' key = None ∧ live c1' key = None.
Proof.
  intros Hwf Hsh Hwf0 Hwf1 Hl Hnow.
  destruct (del_spec c0 key Hwf0) as (c0' & E0 & Hwf0' & Hd0 & Ho0).
  rewrite Hl in E0. simpl in E0.
  pose proof (live_gt0 _ _ _ Hl) as Hpos.
  pose proof (index_with_shard s _ _ (c0', c1) Hsh) as Hsh'.
  destruct (delete_spec (with_shard s (shard s key) (c0', c1)) key (shard s key)
              c0' c1) as (c0'' & c1' & Edel & Hwf0'' & Hwf1' & Hd0' & Hd1' & _);
    [by eapply wf_with_shard | done | done | done |].
  exists c0'', c1'. split; [| done].
  unfold Get. rewrite (tier_eq _ _ _ 0 Hsh). simpl. rewrite E0. simpl.
  rewrite (set_tier_eq _ _ _ 0 _ Hsh). simpl. rewrite Hpos. simpl.
  rewrite (proj2 (at_or_after_spec _ _) Hnow). simpl.
  rewrite ?shard_with_shard, Edel. simpl. rewrite with_shard_twice, Hd0. done.
Qed.

Lemma with_shard_id s idx sh :
  index (caches s) idx = Some sh → with_shard s idx sh = s.
Proof.
  intros H. pose proof (index_Some_range _ _ _ H).
  rewrite index_lookup in H by lia.
  destruct s as [cs cb msk]. unfold with_shard. simpl in *.
  by rewrite list_insert_id.
Qed.

(** The part of [Get] that runs once tier 1 has reported a miss. *)
Lemma Get_after_tier1_miss s key now now' c0 c1 :
  index (caches s) (shard s key) = Some (c0, c1) → wf c0 →
  live c0 key = None →
  Get s key now now' =
    '(s', n2, status2) ← _get s key (shard s key) 1 now';
    match n2 with
    | Some nd2 =>
        if 0 <? status2 then
          if gt0 (expireAt nd2) && at_or_after now (expireAt nd2)
          then '(s', _, evs) ← delete s' key (shard s key);
               Some (None, false, s', evs)
          else Some (v nd2, true, s', [])
        else Some (None, false, s', [])
    | None => Some (None, false, s', [])
    end.
Proof.
  intros Hsh Hwf0 Hl. unfold Get.
  rewrite (tier_eq _ _ _ 0 Hsh). simpl. rewrite del_dead by done. simpl.
  rewrite (set_tier_eq _ _ _ 0 _ Hsh). simpl.
  rewrite with_shard_id by done. done.
Qed.

Lemma Get_miss s key now now' c0 c1 :
  index (caches s) (shard s key) = Some (c0, c1) → wf c0 → wf c1 →
  live c0 key = None → slot c1 key = None →
  Get s key now now' = Some (None, false, s, []).
Proof.
  intros Hsh Hwf0 Hwf1 Hl Hs.
  rewrite (Get_after_tier1_miss _ _ _ _ _ _ Hsh Hwf0 Hl).
  unfold _get. rewrite (tier_eq _ _ _ 1 Hsh). simpl.
  rewrite get_miss by done. simpl.
  rewrite (set_tier_eq _ _ _ 1 _ Hsh). simpl.
  rewrite with_shard_id by done. done.
Qed.

Lemma _get_hit s key now' c0 c1 nd2 :
  index (caches s) (shard s key) = Some (c0, c1) → wf c1 →
  slot c1 key = Some nd2 →
  ∃ c1', wf c1' ∧ (∀ key', slot c1' key' = slot c1 key') ∧
    _get s key (shard s key) 1 now' =
      Some (with_shard s (shard s key) (c0, c1'),
            if negb (gt0 (expireAt nd2)) || at_or_after now' (expireAt nd2)
            then None else Some nd2,
            if negb (gt0 (expireAt nd2)) || at_or_after now' (expireAt nd2)
            then 0 else 1).
Proof.
  intros Hsh Hwf1 Hs.
  destruct (get_hit c1 key nd2 Hwf1 Hs) as (c1' & Eg & Hwf1' & Hm & Hh & Hlast).
  exists c1'. split; [done |]. split.
  { intros key'. unfold slot. by rewrite Hm, Hh. }
  unfold _get. rewrite (tier_eq _ _ _ 1 Hsh). simpl. rewrite Eg. simpl.
  rewrite (set_tier_eq _ _ _ 1 _ Hsh). simpl.
  by destruct (negb (gt0 (expireAt nd2)) || at_or_after now' (expireAt nd2)).
Qed.

(** A tier-2 hit that neither clock reading has outlived. *)
Lemma Get_tier2_hit s key now now' c0 c1 nd2 :
  index (caches s) (shard s key) = Some (c0, c1) → wf c0 → wf c1 →
  live c0 key = None → live c1 key = Some nd2 →
  now < expireAt nd2 → now' < expireAt nd2 →
  ∃ c1', wf c1' ∧ (∀ key', slot c1' key' = slot c1 key') ∧
    Get s key now now' =
      Some (v nd2, true, with_shard s (shard s key) (c0, c1'), []).
Proof.
  intros Hsh Hwf0 Hwf1 Hl0 Hl1 Hnow Hnow'.
  destruct (live_slot _ _ _ Hl1) as [Hs Hpos].
  destruct (_get_hit s key now' c0 c1 nd2 Hsh Hwf1 Hs) as (c1' & Hwf1' & Hsl & E).
  exists c1'. split; [done |]. split; [done |].
  rewrite (Get_after_tier1_miss _ _ _ _ _ _ Hsh Hwf0 Hl0), E. simpl.
  rewrite Hpos, (proj2 (at_or_after_false _ _) Hnow'). simpl.
  rewrite Hpos, (proj2 (at_or_after_false _ _) Hnow). done.
Qed.

(** A tier-2 slot whose stamp the clock read in [_get] has reached, or a
    tombstone: [_get] hides it, and [Get] returns without deleting. *)
Lemma Get_tier2_stale s key now now' c0 c1 nd2 :
  index (caches s) (shard s key) = Some (c0, c1) → wf c0 → wf c1 →
  live c0 key = None → slot c1 key = Some nd2 →
  expireAt nd2 <= 0 ∨ expireAt nd2 <= now' →
  ∃ c1', wf c1' ∧ (∀ key', slot c1' key' = slot c1 key') ∧
    Get s key now now' =
      Some (None, false, with_shard s (shard s key) (c0, c1'), []).
Proof.
  intros Hsh Hwf0 Hwf1 Hl0 Hs Hstale.
  destruct (_get_hit s key now' c0 c1 nd2 Hsh Hwf1 Hs) as (c1' & Hwf1' & Hsl & E).
  exists c1'. split; [done |]. split; [done |].
  rewrite (Get_after_tier1_miss _ _ _ _ _ _ Hsh Hwf0 Hl0), E. simpl.
  assert (negb (gt0 (expireAt nd2)) || at_or_after now' (expireAt nd2) = true)
    as ->; [| done].
  apply orb_true_iff. destruct Hstale as [H | H].
  - left. apply negb_true_iff. destruct (gt0 _) eqn:E'; [| done].
    apply gt0_spec in E'. lia.
  - right. by apply at_or_after_spec.
Qed.

(** [SetWithExpiration] in terms of the [put] it makes on tier 1. *)
Lemma SetWithExpiration_eq s key value expiration now c0 c1 :
  index (caches s) (shard s key) = Some (c0, c1) →
  SetWithExpiration s key value expiration now =
    '(c0', evs, _) ← put c0 key value
        (if gt0 expiration then plus64 now expiration else 0) (onEvicted s);
    Some (with_shard s (shard s key) (c0', c1), evs).
Proof.
  intros Hsh. unfold SetWithExpiration.
  rewrite (tier_eq _ _ _ 0 Hsh). simpl.
  destruct (put c0 key value _ (onEvicted s)) as [[[c0' evs] r] |]; [| done].
  simpl. by rewrite (set_tier_eq _ _ _ 0 _ Hsh).
Qed.

Lemma forall_range_spec f count :
  ∀ from, forall_range f from count = true →
  ∀ i, from <= i < from + Z.of_nat count → f i = true.
Proof.
  induction count as [| count' IH]; simpl; intros from H i Hi; [lia |].
  apply andb_true_iff in H as [H1 H2].
  destruct (decide (i = from)) as [-> | Hne]; [done |].
  apply (IH (from + 1)); [done | lia].
Qed.

Lemma mask_checked : forall_range mask_check 1 (Z.to_nat 32768) = true.
Proof. vm_compute. reflexivity. Qed.

Lemma maskOfNextPowOf2_spec i :
  1 <= i <= 32768 →
  maskOfNextPowOf2 i = next_power_of_two i - 1 ∧ 0 <= maskOfNextPowOf2 i <= 32767.
Proof.
  intros Hi. pose proof (forall_range_spec _ _ _ mask_checked i ltac:(lia)) as H.
  unfold mask_check in H.
  apply andb_true_iff in H as [H H3]. apply andb_true_iff in H as [H1 H2].
  apply Z.eqb_eq in H1. apply Z.leb_le in H2, H3. lia.
Qed.

Lemma wf_Create cap : 0 <= cap < 65535 → wf (Create cap).
Proof.
  intros Hcap. unfold Create.
  assert (uint16 (cap + 1) = cap + 1) as -> by (apply uint16_small; lia).
  constructor; simpl; rewrite ?length_replicate; try lia.
  - split; [rewrite length_replicate; lia |].
    apply Forall_replicate. simpl. lia.
  - intros key idx. by rewrite lookup_empty.
Qed.

Lemma wf_newLRU2Cache opts : options_ok opts → wf_store (newLRU2Cache opts).
Proof.
  intros (Hb & Hc & Hl). unfold newLRU2Cache.
  set (b := if BucketCount opts =? 0 then 16 else BucketCount opts).
  assert (1 <= b <= 32768) as Hb'.
  { subst b. destruct (Z.eqb_spec (BucketCount opts) 0); lia. }
  destruct (maskOfNextPowOf2_spec b Hb') as [_ Hm].
  rewrite (uint16_small (_ + 1)) by lia.
  constructor; simpl; rewrite ?length_replicate; try lia.
  apply Forall_replicate. simpl.
  split; apply wf_Create;
    [destruct (Z.eqb_spec (CapPerBucket opts) 0) | destruct (Z.eqb_spec (Level2Cap opts) 0)];
    lia.
Qed.

Lemma SetWithExpiration_wf s key value expiration now s' evs :
  wf_store s → SetWithExpiration s key value expiration now = Some (s', evs) →
  wf_store s'.
Proof.
  intros Hwf H.
  destruct (shard_lookup s (shard s key) Hwf (shard_range s key Hwf))
    as (c0 & c1 & Hsh & Hwf0 & Hwf1).
  rewrite (SetWithExpiration_eq _ _ _ _ _ _ _ Hsh) in H.
  destruct (put c0 key value _ (onEvicted s)) as [[[c0' evs'] r] |] eqn:Hput;
    [| done].
  simpl in H. injection H as <- <-.
  eapply wf_with_shard; eauto.
  by destruct (put_inv _ _ _ _ _ _ _ _ Hwf0 Hput) as (? & _).
Qed.

Lemma delete_wf s key idx s' r evs :
  wf_store s → 0 <= idx <= mask s → delete s key idx = Some (s', r, evs) →
  wf_store s'.
Proof.
  intros Hwf Hidx H.
  destruct (shard_lookup s idx Hwf Hidx) as (c0 & c1 & Hsh & Hwf0 & Hwf1).
  destruct (delete_spec s key idx c0 c1 Hwf Hsh Hwf0 Hwf1)
    as (c0' & c1' & E & Hwf0' & Hwf1' & _).
  rewrite E in H. injection H as <- <- <-. by eapply wf_with_shard.
Qed.

Lemma Delete_wf s key s' r evs :
  wf_store s → Delete s key = Some (s', r, evs) → wf_store s'.
Proof. intros Hwf. apply delete_wf; [done | by apply shard_range]. Qed.

(** A tier-2 hit that [_get] accepts at its own clock reading while the
    reading taken on entry has already reached the stamp. *)
Lemma Get_tier2_late s key now now' c0 c1 nd2 :
  wf_store s → index (caches s) (shard s key) = Some (c0, c1) → wf c0 → wf c1 →
  live c0 key = None → live c1 key = Some nd2 →
  now' < expireAt nd2 → expireAt nd2 <= now →
  ∃ c0' c1',
    Get s key now now' =
      Some (None, false, with_shard s (shard s key) (c0', c1'),
            delete_events (onEvicted s) key None (Some nd2)) ∧
    wf c0' ∧ wf c1' ∧ live c0' key = None ∧ live c1' key = None.
Proof.
  intros Hwf Hsh Hwf0 Hwf1 Hl0 Hl1 Hnow' Hnow.
  destruct (live_slot _ _ _ Hl1) as [Hs Hpos].
  destruct (_get_hit s key now' c0 c1 nd2 Hsh Hwf1 Hs) as (c1' & Hwf1' & Hsl & E).
  pose proof (index_with_shard s _ _ (c0, c1') Hsh) as Hsh'.
  destruct (delete_spec (with_shard s (shard s key) (c0, c1')) key (shard s key)
              c0 c1') as (c0'' & c1'' & Edel & Hwf0'' & Hwf1'' & Hd0 & Hd1 & _);
    [by eapply wf_with_shard | done | done | done |].
  exists c0'', c1''. split; [| done].
  rewrite (Get_after_tier1_miss _ _ _ _ _ _ Hsh Hwf0 Hl0), E. simpl.
  rewrite Hpos, (proj2 (at_or_after_false _ _) Hnow'). simpl.
  rewrite Hpos, (proj2 (at_or_after_spec _ _) Hnow). simpl.
  rewrite Edel. simpl. rewrite with_shard_twice, Hl0.
  rewrite (live_of_slot c1 c1' key (Hsl key)). by rewrite Hl1.
Qed.

Lemma Get_wf s key now now' r b s' evs :
  wf_store s → Get s key now now' = Some (r, b, s', evs) → wf_store s'.
Proof.
  intros Hwf H.
  destruct (shard_lookup s (shard s key) Hwf (shard_range s key Hwf))
    as (c0 & c1 & Hsh & Hwf0 & Hwf1).
  destruct (live c0 key) as [nd |] eqn:Hl0.
  - destruct (Z_lt_le_dec now (expireAt nd)) as [Hlt | Hge].
    + pose proof (Get_tier1_valid s key now now' c0 c1 nd Hwf Hsh Hwf0 Hwf1 Hl0 Hlt) as G.
      destruct (put_ready c1 key); [| congruence].
      destruct G as (c0' & c1' & evs' & E & ? & ? & _).
      rewrite E in H. injection H as <- <- <- <-. by eapply wf_with_shard.
    + destruct (Get_tier1_expired s key now now' c0 c1 nd Hwf Hsh Hwf0 Hwf1 Hl0 Hge)
        as (c0' & c1' & E & ? & ? & _).
      rewrite E in H. injection H as <- <- <- <-. by eapply wf_with_shard.
  - destruct (slot c1 key) as [nd2 |] eqn:Hs1.
    + destruct (gt0 (expireAt nd2)) eqn:Hpos.
      * pose proof (live_of_slot_Some _ _ _ Hs1 Hpos) as Hl1.
        destruct (Z_lt_le_dec now' (expireAt nd2)) as [Hlt' | Hge'].
        -- destruct (Z_lt_le_dec now (expireAt nd2)) as [Hlt | Hge].
           ++ destruct (Get_tier2_hit s key now now' c0 c1 nd2 Hsh Hwf0 Hwf1 Hl0 Hl1 Hlt Hlt')
                as (c1' & ? & _ & E).
              rewrite E in H. injection H as <- <- <- <-. by eapply wf_with_shard.
           ++ destruct (Get_tier2_late s key now now' c0 c1 nd2 Hwf Hsh Hwf0 Hwf1 Hl0 Hl1 Hlt' Hge)
                as (c0' & c1' & E & ? & ? & _).
              rewrite E in H. injection H as <- <- <- <-. by eapply wf_with_shard.
        -- destruct (Get_tier2_stale s key now now' c0 c1 nd2 Hsh Hwf0 Hwf1 Hl0 Hs1
                       (or_intror Hge')) as (c1' & ? & _ & E).
           rewrite E in H. injection H as <- <- <- <-. by eapply wf_with_shard.
      * assert (expireAt nd2 <= 0) as Hle.
        { destruct (Z_lt_le_dec 0 (expireAt nd2)) as [Hp%gt0_spec |]; [congruence | done]. }
        destruct (Get_tier2_stale s key now now' c0 c1 nd2 Hsh Hwf0 Hwf1 Hl0 Hs1
                    (or_introl Hle)) as (c1' & ? & _ & E).
        rewrite E in H. injection H as <- <- <- <-. by eapply wf_with_shard.
    + rewrite (Get_miss s key now now' c0 c1 Hsh Hwf0 Hwf1 Hl0 Hs1) in H.
      by injection H as <- <- <- <-.
Qed.

Lemma plus64_small a b :
  - 9223372036854775808 <= a + b < 9223372036854775808 → plus64 a b = a + b.
Proof.
  intros H. unfold plus64, int64. rewrite Z.mod_small by lia. lia.
Qed.

Lemma delete_events_length cb key n1 n2 :
  (length (delete_events cb key n1 n2) <= 1)%nat.
Proof.
  unfold delete_events. destruct cb; [| simpl; lia].
  destruct (value_of n1), (value_of n2); simpl; lia.
Qed.

Lemma ready_eq s key level sh :
  index (caches s) (shard s key) = Some sh →
  ready s key level = put_ready (if level =? 0 then sh.1 else sh.2) key.
Proof. intros H. unfold ready. by rewrite (tier_eq _ _ _ level H). Qed.

(** C7. [Delete] removes the key from both tiers of its shard, returns true
    exactly when one of the tiers held a live entry for it, and calls the
    eviction callback at most once, with the tier-1 value when tier 1 held a
    non-nil one and otherwise with the tier-2 value. *)
Theorem Delete_removes_from_both_tiers (s : lru2Store) (key : string)
    (Hwf : wf_store s) :
  ∃ s' r evs,
    Delete s key = Some (s', r, evs) ∧ wf_store s' ∧
    present s' key 0 = None ∧ present s' key 1 = None ∧
    (r = true ↔ is_Some (present s key 0) ∨ is_Some (present s key 1)) ∧
    (length evs <= 1)%nat ∧
    evs = delete_events (onEvicted s) key (present s key 0) (present s key 1) ∧
    (∀ nd1 x, onEvicted s = true → present s key 0 = Some nd1 →
              v nd1 = Some x → evs = [(key, Some x)]).
Proof.
  destruct (shard_lookup s (shard s key) Hwf (shard_range s key Hwf))
    as (c0 & c1 & Hsh & Hwf0 & Hwf1).
  destruct (delete_spec s key (shard s key) c0 c1 Hwf Hsh Hwf0 Hwf1)
    as (c0' & c1' & E & Hwf0' & Hwf1' & Hd0 & Hd1 & _).
  rewrite !(present_eq _ _ _ _ Hsh). simpl.
  eexists _, _, _. split; [exact E |].
  split; [by eapply wf_with_shard |].
  rewrite !(present_with_shard _ _ _ _ _ _ Hsh). simpl.
  split_and!; try done.
  - apply bool_decide_eq_true.
  - apply delete_events_length.
  - intros nd1 x Hcb Hl Hv. unfold delete_events, value_of.
    rewrite Hcb, Hl. simpl. by rewrite Hv.
Qed.

(** C10. [Set] is [SetWithExpiration] with a duration of 1e7 nanoseconds: on
    a store whose tier 1 can take the key, the entry it writes carries the
    stamp [now + 10000000]; every [Get] whose clock has reached that stamp
    reports the key as absent, and a [Get] before it returns the value. *)
Theorem Set_expires_after_ten_milliseconds (s : lru2Store) (key : string)
    (value : Value) (now : Z)
    (Hwf : wf_store s) (Hnow : clock_ok now) (Hready : ready s key 0 = true) :
  Set_ s key value now = SetWithExpiration s key value 10000000 now ∧
  ∃ s' evs,
    Set_ s key value now = Some (s', evs) ∧ wf_store s' ∧
    present s' key 0 = Some (Node key value (now + 10000000)) ∧
    (∀ t t', now + 10000000 <= t →
       ∃ s'' evs', Get s' key t t' = Some (None, false, s'', evs')) ∧
    (∀ t t', t < now + 10000000 → ready s' key 1 = true →
       ∃ s'' evs', Get s' key t t' = Some (value, true, s'', evs')).
Proof.
  split; [done |]. destruct Hnow as [Hn0 Hn1].
  destruct (shard_lookup s (shard s key) Hwf (shard_range s key Hwf))
    as (c0 & c1 & Hsh & Hwf0 & Hwf1).
  rewrite (ready_eq _ _ _ _ Hsh) in Hready. simpl in Hready.
  unfold Set_. rewrite (SetWithExpiration_eq _ _ _ _ _ _ _ Hsh).
  change (gt0 10000000) with true. cbv iota. rewrite plus64_small by lia.
  destruct (put_total c0 key value (now + 10000000) (onEvicted s) Hwf0 Hready)
    as [[[c0' evs] r] Hput].
  destruct (put_inv _ _ _ _ _ _ _ _ Hwf0 Hput) as (Hwf0' & Hs0 & _).
  rewrite Hput. simpl.
  assert (live c0' key = Some (Node key value (now + 10000000))) as Hl0.
  { apply live_of_slot_Some; [done |]. apply gt0_spec. simpl. lia. }
  pose proof (wf_with_shard s _ _ c0' c1 Hwf Hsh Hwf0' Hwf1) as Hwf'.
  pose proof (index_with_shard s _ _ (c0', c1) Hsh) as Hsh'.
  eexists _, _. split; [done |]. split; [done |].
  rewrite (present_with_shard _ _ _ _ _ _ Hsh). simpl. split; [done |]. split.
  - intros t t' Ht.
    destruct (Get_tier1_expired _ key t t' c0' c1 _ Hwf' Hsh' Hwf0' Hwf1 Hl0 Ht)
      as (c0'' & c1'' & E & _).
    rewrite E. eauto.
  - intros t t' Ht Hr. rewrite (ready_eq _ _ _ _ Hsh') in Hr. simpl in Hr.
    pose proof (Get_tier1_valid _ key t t' c0' c1 _ Hwf' Hsh' Hwf0' Hwf1 Hl0 Ht) as G.
    rewrite Hr in G. destruct G as (c0'' & c1'' & evs' & E & _).
    rewrite E. simpl. eauto.
Qed.


(** [Get] from the [del] on tier 1 and the [put] on tier 2 it makes when
    the stamp it found has not been reached. *)
Lemma Get_from_del_put s key now now' c0 c1 c0' c1' nd1 e evs r :
  index (caches s) (shard s key) = Some (c0, c1) →
  del c0 key = Some (c0', Some nd1, 1, e) → now < e →
  put c1 key (v nd1) e (onEvicted s) = Some (c1', evs, r) →
  Get s key now now' =
    Some (v nd1, true, with_shard s (shard s key) (c0', c1'), evs).
Proof.
  intros Hsh Hdel Hnow Hput. unfold Get.
  pose proof (index_with_shard s _ _ (c0', c1) Hsh) as Hsh'.
  rewrite (tier_eq _ _ _ 0 Hsh). simpl. rewrite Hdel. simpl.
  rewrite (set_tier_eq _ _ _ 0 _ Hsh). simpl.
  rewrite (proj2 (at_or_after_false _ _) Hnow), andb_false_r.
  rewrite (tier_eq _ _ _ 1 Hsh'). simpl. rewrite Hput. simpl.
  rewrite (set_tier_eq _ _ _ 1 _ Hsh'). simpl. by rewrite with_shard_twice.
Qed.




Lemma int32_range x : - 2147483648 <= int32 x < 2147483648.
Proof.
  unfold int32. pose proof (Z.mod_pos_bound (x + 2147483648) 4294967296). lia.
Qed.

Lemma int32_small x : - 2147483648 <= x < 2147483648 → int32 x = x.
Proof. intros H. unfold int32. rewrite Z.mod_small by lia. lia. Qed.

(** The product and the sum of one round wrap to the same value as their
    exact result wrapped once. *)
Lemma int32_round h b : int32 (int32 (h * 131) + b) = int32 (h * 131 + b).
Proof.
  unfold int32.
  replace ((h * 131 + 2147483648) mod 4294967296 - 2147483648 + b + 2147483648)
    with ((h * 131 + 2147483648) mod 4294967296 + b) by lia.
  rewrite Z.add_mod_idemp_l by lia. f_equal. f_equal. lia.
Qed.

Lemma hashBKRD_from_app h s1 s2 :
  hashBKRD_from h (String.append s1 s2) = hashBKRD_from (hashBKRD_from h s1) s2.
Proof. revert h. induction s1 as [| a s1 IH]; intros h; simpl; [done | apply IH]. Qed.

Lemma hashBKRD_from_range h key :
  - 2147483648 <= h < 2147483648 →
  - 2147483648 <= hashBKRD_from h key < 2147483648.
Proof.
  revert h. induction key as [| a key IH]; intros h Hh; simpl; [done |].
  apply IH, int32_range.
Qed.

Lemma next_power_of_two_least i :
  1 <= i →
  i <= next_power_of_two i ∧
  ∀ e, 0 <= e → i <= 2 ^ e → next_power_of_two i <= 2 ^ e.
Proof.
  intros Hi. unfold next_power_of_two. split.
  - apply Z.log2_log2_up_spec. lia.
  - intros e He Hle. apply Z.pow_le_mono_r; [lia |].
    apply Z.log2_up_le_pow2; lia.
Qed.

(** C8. [hashBKRD] starts from 0 and folds each byte in as
    [hash*131 + byte] wrapped to int32, so it is a function of the key alone
    with values in the int32 range; for a bucket count from 1 to 2^15 the
    mask is the next power of two minus one; and [hash & mask] lies between 0
    and the mask whatever the sign of the hash. *)
Theorem hash_mask_and_shard_index (key : string) (b : ascii) (n_ : Z)
    (Hn : 1 <= n_ <= 32768) :
  hashBKRD "" = 0 ∧
  hashBKRD (String.append key (String b "")) =
    int32 (hashBKRD key * 131 + byte b) ∧
  - 2147483648 <= hashBKRD key < 2147483648 ∧
  maskOfNextPowOf2 n_ = next_power_of_two n_ - 1 ∧
  0 <= Z.land (hashBKRD key) (maskOfNextPowOf2 n_) <= maskOfNextPowOf2 n_.
Proof.
  destruct (maskOfNextPowOf2_spec n_ Hn) as [Hm Hr].
  split; [done |]. split.
  { unfold hashBKRD. rewrite hashBKRD_from_app. simpl. apply int32_round. }
  split; [apply hashBKRD_from_range; lia |].
  split; [done |]. apply land_mask_range. lia.
Qed.

(** The promotion itself, on a store whose tier 2 can take the key. *)
Lemma Get_promotes s key now now' nd :
  wf_store s → present s key 0 = Some nd → now < expireAt nd →
  ready s key 1 = true →
  ∃ s' evs,
    Get s key now now' = Some (v nd, true, s', evs) ∧ wf_store s' ∧
    present s' key 0 = None ∧
    present s' key 1 = Some (Node key (v nd) (expireAt nd)).
Proof.
  intros Hwf Hp Hnow Hr.
  destruct (shard_lookup s (shard s key) Hwf (shard_range s key Hwf))
    as (c0 & c1 & Hsh & Hwf0 & Hwf1).
  rewrite (present_eq _ _ _ _ Hsh) in Hp. rewrite (ready_eq _ _ _ _ Hsh) in Hr.
  simpl in Hp, Hr.
  pose proof (Get_tier1_valid s key now now' c0 c1 nd Hwf Hsh Hwf0 Hwf1 Hp Hnow) as G.
  rewrite Hr in G. destruct G as (c0' & c1' & evs & E & Hwf0' & Hwf1' & Hl0 & Hl1 & _).
  eexists _, _. split; [exact E |]. split; [by eapply wf_with_shard |].
  by rewrite !(present_with_shard _ _ _ _ _ _ Hsh).
Qed.

(** ... and the panic when it cannot. *)
Lemma Get_promotion_panics s key now now' nd :
  wf_store s → present s key 0 = Some nd → now < expireAt nd →
  ready s key 1 = false → Get s key now now' = None.
Proof.
  intros Hwf Hp Hnow Hr.
  destruct (shard_lookup s (shard s key) Hwf (shard_range s key Hwf))
    as (c0 & c1 & Hsh & Hwf0 & Hwf1).
  rewrite (present_eq _ _ _ _ Hsh) in Hp. rewrite (ready_eq _ _ _ _ Hsh) in Hr.
  simpl in Hp, Hr.
  pose proof (Get_tier1_valid s key now now' c0 c1 nd Hwf Hsh Hwf0 Hwf1 Hp Hnow) as G.
  by rewrite Hr in G.
Qed.

Lemma present_other_shard s key idx sh level :
  wf_store s → 0 <= idx → idx ≠ shard s key →
  present (with_shard s idx sh) key level = present s key level.
Proof.
  intros Hwf Hidx Hne. unfold present, tier. rewrite shard_with_shard.
  pose proof (shard_range s key Hwf). simpl.
  rewrite !index_lookup by lia.
  rewrite list_lookup_insert_ne by lia. done.
Qed.

(** A write of another key leaves tier 2 as it is and cannot revive a key
    that tier 1 does not hold. *)
Lemma SetWithExpiration_other_key s key key' value expiration now s' evs :
  wf_store s → key' ≠ key →
  SetWithExpiration s key' value expiration now = Some (s', evs) →
  present s' key 1 = present s key 1 ∧
  (present s key 0 = None → present s' key 0 = None).
Proof.
  intros Hwf Hne H.
  destruct (shard_lookup s (shard s key') Hwf (shard_range s key' Hwf))
    as (c0 & c1 & Hsh & Hwf0 & Hwf1).
  rewrite (SetWithExpiration_eq _ _ _ _ _ _ _ Hsh) in H.
  destruct (put c0 key' value _ (onEvicted s)) as [[[c0' evs'] r] |] eqn:Hput;
    [| done].
  simpl in H. injection H as <- <-.
  destruct (put_inv _ _ _ _ _ _ _ _ Hwf0 Hput) as (Hwf0' & _ & _ & Ho & _).
  destruct (decide (shard s key' = shard s key)) as [Heq | Hsne].
  - rewrite Heq in *. rewrite !(present_with_shard _ _ _ _ _ _ Hsh).
    rewrite !(present_eq _ _ _ _ Hsh). simpl. split; [done |].
    unfold live. destruct (Ho key (not_eq_sym Hne)) as [-> | ->]; done.
  - pose proof (shard_range s key' Hwf).
    rewrite !present_other_shard by (done || lia). done.
Qed.

(** X10. Once promoted, a key stays readable through any run of writes to
    other keys that completes, until its stamp is reached: a [Get] before
    the stamp returns the value with true and calls no callback. *)
Lemma promoted_key_survives_writes calls :
  ∀ s key nd s' evs t t',
    wf_store s → present s key 0 = None → present s key 1 = Some nd →
    Forall (λ call : string * Value * Z * Z, call.1.1.1 ≠ key) calls →
    SetAll s calls = Some (s', evs) →
    t < expireAt nd → t' < expireAt nd →
    ∃ s'', Get s' key t t' = Some (v nd, true, s'', []).
Proof.
  induction calls as [| [[[key' value] expiration] now] calls IH];
    intros s key nd s' evs t t' Hwf Hp0 Hp1 Hkeys Hrun Ht Ht'.
  - simpl in Hrun. injection Hrun as <- <-.
    destruct (shard_lookup s (shard s key) Hwf (shard_range s key Hwf))
      as (c0 & c1 & Hsh & Hwf0 & Hwf1).
    rewrite (present_eq _ _ _ _ Hsh) in Hp0. rewrite (present_eq _ _ _ _ Hsh) in Hp1.
    simpl in Hp0, Hp1.
    destruct (Get_tier2_hit s key t t' c0 c1 nd Hsh Hwf0 Hwf1 Hp0 Hp1 Ht Ht')
      as (c1' & _ & _ & E).
    rewrite E. eauto.
  - simpl in Hrun. apply Forall_cons in Hkeys as [Hne Hkeys]. simpl in Hne.
    destruct (SetWithExpiration s key' value expiration now) as [[s1 evs1] |] eqn:E1;
      [| done].
    simpl in Hrun.
    destruct (SetAll s1 calls) as [[s2 evs2] |] eqn:E2; [| done].
    simpl in Hrun. injection Hrun as <- <-.
    destruct (SetWithExpiration_other_key _ _ _ _ _ _ _ _ Hwf Hne E1) as [Hq1 Hq0].
    eapply (IH s1 key nd s2 evs2); eauto.
    + by eapply SetWithExpiration_wf.
    + by rewrite Hq1.
Qed.

(** C1. On the scenario store (two slots per tier) a key is written,
    promoted by a first [Get] and read again from tier 2, all at clock 0; the
    writes of three other keys that follow end in a panic of the third. *)
Theorem promotion_then_three_writes_panics :
  ∃ s1 s2 s3 s4 s5,
    Set_ (newLRU2Cache scenario_options) "k" (Some "1") 0 = Some (s1, []) ∧
    Get s1 "k" 0 0 = Some (Some "1", true, s2, []) ∧
    present s2 "k" 0 = None ∧
    present s2 "k" 1 = Some (Node "k" (Some "1") 10000000) ∧
    Get s2 "k" 0 0 = Some (Some "1", true, s3, []) ∧
    Set_ s3 "b" (Some "2") 0 = Some (s4, []) ∧
    Set_ s4 "c" (Some "3") 0 = Some (s5, []) ∧
    Get s5 "k" 0 0 = Some (Some "1", true, s5, []) ∧
    ready s5 "d" 0 = false ∧
    Set_ s5 "d" (Some "4") 0 = None.
Proof.
  eexists _, _, _, _, _.
  repeat (split; [vm_compute; reflexivity |]). vm_compute. reflexivity.
Qed.

Ltac evaluate :=
  repeat (split; [vm_compute; reflexivity |]); vm_compute; reflexivity.

(** A write with a duration that is not positive stores the stamp 0, which
    every read path takes for a deleted slot. *)
Lemma nonpositive_ttl_unreadable s key value ttl now s' evs t t' :
  wf_store s → ttl <= 0 → present s key 1 = None →
  SetWithExpiration s key value ttl now = Some (s', evs) →
  present s' key 0 = None ∧
  ∃ s'', Get s' key t t' = Some (None, false, s'', []).
Proof.
  intros Hwf Httl Hp1 H.
  destruct (shard_lookup s (shard s key) Hwf (shard_range s key Hwf))
    as (c0 & c1 & Hsh & Hwf0 & Hwf1).
  rewrite (present_eq _ _ _ _ Hsh) in Hp1. simpl in Hp1.
  rewrite (SetWithExpiration_eq _ _ _ _ _ _ _ Hsh) in H.
  assert (gt0 ttl = false) as Hgt.
  { destruct (gt0 ttl) eqn:E; [| done]. apply gt0_spec in E. lia. }
  rewrite Hgt in H.
  destruct (put c0 key value 0 (onEvicted s)) as [[[c0' evs'] r] |] eqn:Hput;
    [| done].
  simpl in H. injection H as <- <-.
  destruct (put_inv _ _ _ _ _ _ _ _ Hwf0 Hput) as (Hwf0' & Hs0 & _).
  assert (live c0' key = None) as Hl0 by (unfold live; by rewrite Hs0).
  pose proof (index_with_shard s _ _ (c0', c1) Hsh) as Hsh'.
  rewrite (present_with_shard _ _ _ _ _ _ Hsh). simpl. split; [done |].
  destruct (slot c1 key) as [nd2 |] eqn:Hs1.
  - assert (expireAt nd2 <= 0) as Hle.
    { destruct (Z_lt_le_dec 0 (expireAt nd2)) as [Hp%gt0_spec |]; [| done].
      by rewrite (live_of_slot_Some _ _ _ Hs1 Hp) in Hp1. }
    destruct (Get_tier2_stale _ key t t' c0' c1 nd2 Hsh' Hwf0' Hwf1 Hl0 Hs1
                (or_introl Hle)) as (c1' & _ & _ & E).
    rewrite E. eauto.
  - rewrite (Get_miss _ key t t' c0' c1 Hsh' Hwf0' Hwf1 Hl0 Hs1). eauto.
Qed.

(** C2. A key written with [ttl = 0] (or a negative one) is not found by
    the [Get] that follows, is not counted by [Len], and [Delete] reports it
    as absent. *)
Theorem zero_ttl_entry_is_not_found :
  ∃ s1 s1',
    SetWithExpiration (newLRU2Cache scenario_options) "a" (Some "1") 0 0 =
      Some (s1, []) ∧
    Get s1 "a" 0 0 = Some (None, false, s1, []) ∧
    Len 3 s1 = Some (Some 0) ∧
    Delete s1 "a" = Some (s1, false, []) ∧
    SetWithExpiration (newLRU2Cache scenario_options) "a" (Some "1") (-1) 0 =
      Some (s1', []) ∧
    Get s1' "a" 0 0 = Some (None, false, s1', []).
Proof. eexists _, _. evaluate. Qed.

(** An entry found in tier 1 with its stamp reached is removed, and the
    callback is called only for what tier 2 held. *)
Lemma Get_expired_in_tier1 s key now now' nd :
  wf_store s → present s key 0 = Some nd → expireAt nd <= now →
  ∃ s',
    Get s key now now' =
      Some (None, false, s',
            delete_events (onEvicted s) key None (present s key 1)) ∧
    present s' key 0 = None ∧ present s' key 1 = None.
Proof.
  intros Hwf Hp Hnow.
  destruct (shard_lookup s (shard s key) Hwf (shard_range s key Hwf))
    as (c0 & c1 & Hsh & Hwf0 & Hwf1).
  rewrite (present_eq _ _ _ _ Hsh) in Hp. simpl in Hp.
  destruct (Get_tier1_expired s key now now' c0 c1 nd Hwf Hsh Hwf0 Hwf1 Hp Hnow)
    as (c0' & c1' & E & _ & _ & Hl0 & Hl1).
  eexists. rewrite (present_eq _ _ _ 1 Hsh). split; [exact E |].
  by rewrite !(present_with_shard _ _ _ _ _ _ Hsh).
Qed.

(** An entry found in tier 2 only, with its stamp reached at the clock read
    in [_get]: not found, not removed, no callback. *)
Lemma Get_expired_in_tier2 s key now now' nd :
  wf_store s → present s key 0 = None → present s key 1 = Some nd →
  expireAt nd <= now' →
  ∃ s',
    Get s key now now' = Some (None, false, s', []) ∧
    present s' key 1 = Some nd.
Proof.
  intros Hwf Hp0 Hp1 Hnow.
  destruct (shard_lookup s (shard s key) Hwf (shard_range s key Hwf))
    as (c0 & c1 & Hsh & Hwf0 & Hwf1).
  rewrite (present_eq _ _ _ _ Hsh) in Hp0. rewrite (present_eq _ _ _ _ Hsh) in Hp1.
  simpl in Hp0, Hp1. destruct (live_slot _ _ _ Hp1) as [Hs1 _].
  destruct (Get_tier2_stale s key now now' c0 c1 nd Hsh Hwf0 Hwf1 Hp0 Hs1
              (or_intror Hnow)) as (c1' & _ & Hsl & E).
  eexists. split; [exact E |].
  rewrite (present_with_shard _ _ _ _ _ _ Hsh). simpl.
  by rewrite (live_of_slot c1 c1' key (Hsl key)).
Qed.

(** C3. With a callback installed, a key written at clock 0 and read at
    clock 10000000: found in tier 1, [Get] removes it without calling the
    callback, which the cleanup pass calls for the same store; found in
    tier 2 (after a promotion), [Get] reports it absent and leaves it there,
    still counted by [Len]. *)
Theorem Get_on_expired_entries :
  ∃ s1 s2 s2c s2' s3',
    onEvicted (newLRU2Cache scenario_options) = true ∧
    Set_ (newLRU2Cache scenario_options) "a" (Some "1") 0 = Some (s1, []) ∧
    Get s1 "a" 10000000 10000000 = Some (None, false, s2, []) ∧
    present s2 "a" 0 = None ∧
    cleanupShard 3 s1 0 10000000 = Some (Some (s2c, [("a", Some "1")])) ∧
    Get s1 "a" 0 0 = Some (Some "1", true, s2', []) ∧
    Get s2' "a" 10000000 10000000 = Some (None, false, s3', []) ∧
    present s3' "a" 1 = Some (Node "a" (Some "1") 10000000) ∧
    Len 3 s3' = Some (Some 1).
Proof. eexists _, _, _, _, _. evaluate. Qed.

(** C6. A tier of capacity 1: the second distinct key recycles the slot and
    the callback is called with the first; the sentinel is left without a
    tail, and the third distinct key panics. *)
Theorem single_slot_third_insert_panics :
  ∃ c1 c2 s1 s2,
    put (Create 1) "a" (Some "1") 10000000 true = Some (c1, [], 1) ∧
    put c1 "b" (Some "2") 10000000 true = Some (c2, [("a", Some "1")], 1) ∧
    ld (dlnk c2) 0 Tail = Some 0 ∧
    put c2 "c" (Some "3") 10000000 true = None ∧
    Set_ (newLRU2Cache single_slot_options) "a" (Some "1") 0 = Some (s1, []) ∧
    Set_ s1 "b" (Some "2") 0 = Some (s2, [("a", Some "1")]) ∧
    Set_ s2 "c" (Some "3") 0 = None.
Proof. eexists _, _, _, _. evaluate. Qed.

(** Every reachable store satisfies the invariant. *)
Lemma reachable_wf s : reachable s → wf_store s.
Proof.
  induction 1 as [opts Hopts | s key value expiration now s' evs _ IH H
                  | s key now now' r b s' evs _ IH H | s key s' r evs _ IH H].
  - by apply wf_newLRU2Cache.
  - by eapply SetWithExpiration_wf.
  - by eapply Get_wf.
  - by eapply Delete_wf.
Qed.

Lemma scenario_options_ok : options_ok scenario_options.
Proof. unfold options_ok. simpl. lia. Qed.

Lemma both_tiers_store_reachable : reachable both_tiers_store.
Proof.
  apply (reach_SetWithExpiration promoted_store "a" (Some "9") 10000000 0
           both_tiers_store []); [| vm_compute; reflexivity].
  apply (reach_Get written_store "a" 0 0 (Some "1") true promoted_store []);
    [| vm_compute; reflexivity].
  apply (reach_SetWithExpiration (newLRU2Cache scenario_options) "a" (Some "1")
           10000000 0 written_store []); [| vm_compute; reflexivity].
  apply reach_new, scenario_options_ok.
Qed.

(** On that store [Delete(a)] reports the tier-1 value. *)
Example Delete_both_tiers_store :
  present both_tiers_store "a" 0 = Some (Node "a" (Some "9") 10000000) ∧
  present both_tiers_store "a" 1 = Some (Node "a" (Some "1") 10000000) ∧
  ∃ s', Delete both_tiers_store "a" = Some (s', true, [("a", Some "9")]).
Proof.
  split; [vm_compute; reflexivity |]. split; [vm_compute; reflexivity |].
  eexists. vm_compute. reflexivity.
Qed.

Lemma Delete_removes_from_both_tiers_witness :
  ∃ s' r evs,
    Delete both_tiers_store "a" = Some (s', r, evs) ∧ wf_store s' ∧
    present s' "a" 0 = None ∧ present s' "a" 1 = None ∧
    (r = true ↔ is_Some (present both_tiers_store "a" 0)
                ∨ is_Some (present both_tiers_store "a" 1)) ∧
    (length evs <= 1)%nat ∧
    evs = delete_events (onEvicted both_tiers_store) "a"
            (present both_tiers_store "a" 0) (present both_tiers_store "a" 1) ∧
    (∀ nd1 x, onEvicted both_tiers_store = true →
              present both_tiers_store "a" 0 = Some nd1 →
              v nd1 = Some x → evs = [("a", Some x)]).
Proof.
  apply (Delete_removes_from_both_tiers both_tiers_store "a").
  apply reachable_wf, both_tiers_store_reachable.
Defined.

Lemma Set_expires_after_ten_milliseconds_witness :
  Set_ (newLRU2Cache scenario_options) "a" (Some "1") 0 =
    SetWithExpiration (newLRU2Cache scenario_options) "a" (Some "1") 10000000 0 ∧
  ∃ s' evs,
    Set_ (newLRU2Cache scenario_options) "a" (Some "1") 0 = Some (s', evs) ∧
    wf_store s' ∧
    present s' "a" 0 = Some (Node "a" (Some "1") (0 + 10000000)) ∧
    (∀ t t', 0 + 10000000 <= t →
       ∃ s'' evs', Get s' "a" t t' = Some (None, false, s'', evs')) ∧
    (∀ t t', t < 0 + 10000000 → ready s' "a" 1 = true →
       ∃ s'' evs', Get s' "a" t t' = Some (Some "1", true, s'', evs')).
Proof.
  apply (Set_expires_after_ten_milliseconds (newLRU2Cache scenario_options) "a"
           (Some "1") 0).
  - apply wf_newLRU2Cache, scenario_options_ok.
  - unfold clock_ok. lia.
  - vm_compute. reflexivity.
Defined.


Lemma hash_mask_and_shard_index_witness :
  hashBKRD "" = 0 ∧
  hashBKRD (String.append "ab" (String "c"%char "")) =
    int32 (hashBKRD "ab" * 131 + byte "c"%char) ∧
  - 2147483648 <= hashBKRD "ab" < 2147483648 ∧
  maskOfNextPowOf2 5 = next_power_of_two 5 - 1 ∧
  0 <= Z.land (hashBKRD "ab") (maskOfNextPowOf2 5) <= maskOfNextPowOf2 5.
Proof.
  apply (hash_mask_and_shard_index "ab" "c"%char 5). lia.
Defined.

(* ------------------------------------------------------------------- *)
(** *** Further properties of the slot cache and the store *)

Lemma assign_length {A} (s : list A) i x s' :
  assign s i x = Some s' → length s' = length s.
Proof.
  unfold assign. destruct (index s i); [| done]. simpl.
  intros [= <-]. apply length_insert.
Qed.

Lemma adjust_fields c idx f t c' :
  adjust c idx f t = Some c' →
  m c' = m c ∧ hmap c' = hmap c ∧ last c' = last c.
Proof.
  unfold adjust. destruct (adjust_links _ _ _ _); [| done]. simpl.
  by intros [= <-].
Qed.

(** One step through a chain of binds that is known to return. *)
Ltac bind_step H :=
  match type of H with
  | (match ?x with _ => _ end) = Some _ =>
      let E := fresh "E" in destruct x eqn:E; try discriminate H
  | mbind _ ?x = Some _ =>
      let E := fresh "E" in destruct x eqn:E; [| discriminate H];
      cbn [mbind option_bind] in H
  | (let '(_, _) := ?x in _) = Some _ => destruct x
  | (if ?b then _ else _) = Some _ =>
      let E := fresh "E" in destruct b eqn:E
  end.


Lemma del_capacity c key c' nd r e :
  del c key = Some (c', nd, r, e) → length (m c') = length (m c).
Proof.
  intros H. unfold del in H.
  repeat bind_step H.
  all: try (injection H as <- <- <- <-; simpl).
  all: repeat match goal with
         | A : adjust _ _ _ _ = Some _ |- _ =>
             apply adjust_fields in A as (-> & _ & _); simpl
         | A : assign _ _ _ = Some _ |- _ => apply assign_length in A
         end; try congruence.
Qed.


Lemma set_tier_shape s idx level c c' s' :
  tier s idx level = Some c → length (m c') = length (m c) →
  set_tier s idx level c' = Some s' → shape s' = shape s.
Proof.
  unfold tier, set_tier, assign. intros Ht Hlen H.
  destruct (index (caches s) idx) as [sh |] eqn:Hsh; [| done].
  simpl in *. injection H as <-. injection Ht as <-.
  unfold shape, capacities. simpl. f_equal. f_equal.
  rewrite list_fmap_insert.
  apply list_insert_id. unfold index in Hsh.
  destruct (idx <? 0); [done |]. rewrite list_lookup_fmap, Hsh. simpl.
  destruct (level =? 0); simpl in *; congruence.
Qed.

Lemma delete_shape s key idx s' r evs :
  delete s key idx = Some (s', r, evs) → shape s' = shape s.
Proof.
  intros H. unfold delete in H.
  destruct (tier s idx 0) as [c0 |] eqn:T0; [| done]. cbn [mbind option_bind] in H.
  destruct (del c0 key) as [[[[c0' n1] s1] e1] |] eqn:D0; [| done].
  cbn [mbind option_bind] in H.
  destruct (set_tier s idx 0 c0') as [sa |] eqn:S0; [| done].
  cbn [mbind option_bind] in H.
  destruct (tier sa idx 1) as [c1 |] eqn:T1; [| done]. cbn [mbind option_bind] in H.
  destruct (del c1 key) as [[[[c1' n2] s2] e2] |] eqn:D1; [| done].
  cbn [mbind option_bind] in H.
  destruct (set_tier sa idx 1 c1') as [sb |] eqn:S1; [| done].
  cbn [mbind option_bind] in H. injection H as <- _ _.
  rewrite (set_tier_shape _ _ _ _ _ _ T1 (del_capacity _ _ _ _ _ _ D1) S1).
  by rewrite (set_tier_shape _ _ _ _ _ _ T0 (del_capacity _ _ _ _ _ _ D0) S0).
Qed.




Lemma stored_eq s key sh level :
  index (caches s) (shard s key) = Some sh →
  stored s key level = slot (if level =? 0 then sh.1 else sh.2) key.
Proof. intros H. unfold stored. by erewrite tier_eq by done. Qed.

Lemma stored_with_shard s key c0 c1 level sh :
  index (caches s) (shard s key) = Some sh →
  stored (with_shard s (shard s key) (c0, c1)) key level =
  slot (if level =? 0 then c0 else c1) key.
Proof.
  intros H. unfold stored. rewrite shard_with_shard.
  erewrite tier_eq by (by eapply index_with_shard). simpl.
  by destruct (level =? 0).
Qed.

Lemma stored_other_shard s key idx sh level :
  wf_store s → 0 <= idx → idx ≠ shard s key →
  stored (with_shard s idx sh) key level = stored s key level.
Proof.
  intros Hwf Hidx Hne. unfold stored, tier. rewrite shard_with_shard.
  pose proof (shard_range s key Hwf). simpl.
  rewrite !index_lookup by lia.
  rewrite list_lookup_insert_ne by lia. done.
Qed.

Lemma delete_all_wf keys : ∀ s idx s' evs,
  wf_store s → 0 <= idx <= mask s →
  delete_all s keys idx = Some (s', evs) → wf_store s' ∧ shape s' = shape s.
Proof.
  induction keys as [| key keys IH]; intros s idx s' evs Hwf Hidx H; simpl in H.
  - by injection H as <- <-.
  - destruct (delete s key idx) as [[[s1 r1] evs1] |] eqn:E1; [| done].
    cbn [mbind option_bind] in H.
    destruct (delete_all s1 keys idx) as [[s2 evs2] |] eqn:E2; [| done].
    cbn [mbind option_bind] in H. injection H as <- <-.
    pose proof (delete_shape _ _ _ _ _ _ E1) as Hsh.
    pose proof (delete_wf _ _ _ _ _ _ Hwf Hidx E1) as Hwf1.
    destruct (IH s1 idx s2 evs2 Hwf1) as [? ?]; [| done |].
    + unfold shape in Hsh. injection Hsh as _ Hm _. by rewrite Hm.
    + split; [done | congruence].
Qed.

Lemma cleanupShard_wf fuel s i currentTime s' evs :
  wf_store s → cleanupShard fuel s i currentTime = Some (Some (s', evs)) →
  wf_store s' ∧ shape s' = shape s.
Proof.
  intros Hwf H. unfold cleanupShard in H.
  destruct (tier s i 0) as [c0 |] eqn:T0; [| done]. cbn [mbind option_bind] in H.
  destruct (walk fuel c0 _ _) as [[ks0 |] |]; try done.
  cbn [mbind option_bind] in H.
  destruct (tier s i 1) as [c1 |] eqn:T1; [| done]. cbn [mbind option_bind] in H.
  destruct (walk fuel c1 _ _) as [[ks1 |] |]; try done.
  cbn [mbind option_bind] in H.
  destruct (delete_all s ks1 i) as [[s1 evs1] |] eqn:E; [| done].
  simpl in H. injection H as <- <-.
  eapply delete_all_wf; [done | | done].
  unfold tier in T0. destruct (index (caches s) i) eqn:Hi; [| done].
  apply index_Some_range in Hi. pose proof (wf_shards s Hwf). lia.
Qed.




(** X5. A key that neither tier of its shard indexes: [Get] returns
    (nil, false) and [Delete] returns false; both leave the store exactly as
    it was and call no callback. *)
Theorem unknown_key_is_a_miss (s : lru2Store) (key : string) (now now' : Z) :
  wf_store s → stored s key 0 = None → stored s key 1 = None →
  Get s key now now' = Some (None, false, s, []) ∧
  Delete s key = Some (s, false, []).
Proof.
  intros Hwf H0 H1.
  destruct (shard_lookup s (shard s key) Hwf (shard_range s key Hwf))
    as (c0 & c1 & Hsh & Hwf0 & Hwf1).
  rewrite (stored_eq _ _ _ _ Hsh) in H0. rewrite (stored_eq _ _ _ _ Hsh) in H1.
  simpl in H0, H1.
  assert (live c0 key = None) as Hl0 by (unfold live; by rewrite H0).
  assert (live c1 key = None) as Hl1 by (unfold live; by rewrite H1).
  split; [by eapply Get_miss |].
  unfold Delete.
  rewrite (delete_eq s key _ c0 c1 c0 c1 None None 0 0 0 0 Hsh)
    by (by apply del_dead).
  simpl. by rewrite with_shard_id.
Qed.

Lemma present_frame s key key' c0 c1 c0' c1' :
  wf_store s → index (caches s) (shard s key) = Some (c0, c1) →
  (live c0' key' = live c0 key') → (live c1' key' = live c1 key') →
  ∀ level, present (with_shard s (shard s key) (c0', c1')) key' level =
           present s key' level.
Proof.
  intros Hwf Hsh E0 E1 level.
  destruct (decide (shard s key = shard s key')) as [Heq | Hne].
  - rewrite Heq in *. rewrite (present_with_shard _ _ _ _ _ _ Hsh).
    rewrite (present_eq _ _ _ _ Hsh). simpl. by destruct (level =? 0).
  - pose proof (shard_range s key Hwf).
    apply present_other_shard; [done | lia | done].
Qed.

(** X6. After a [Delete] that returned, a second [Delete] of the same key
    returns false, calls no callback and changes nothing. The first one
    changed no live entry of any other key in either tier, and not the shape
    of the store. *)
Theorem Delete_twice_and_other_keys (s : lru2Store) (key : string)
    (s' : lru2Store) (r : bool) (evs : list event) :
  wf_store s → Delete s key = Some (s', r, evs) →
  Delete s' key = Some (s', false, []) ∧
  (∀ key' level, key' ≠ key → present s' key' level = present s key' level) ∧
  shape s' = shape s.
Proof.
  intros Hwf H.
  destruct (shard_lookup s (shard s key) Hwf (shard_range s key Hwf))
    as (c0 & c1 & Hsh & Hwf0 & Hwf1).
  destruct (delete_spec s key (shard s key) c0 c1 Hwf Hsh Hwf0 Hwf1)
    as (c0' & c1' & E & Hwf0' & Hwf1' & Hd0 & Hd1 & Ho).
  pose proof (delete_shape _ _ _ _ _ _ H) as Hshape.
  unfold Delete in H. rewrite E in H. injection H as <- _ _.
  pose proof (index_with_shard s _ _ (c0', c1') Hsh) as Hsh'.
  split_and!; [| | done].
  - unfold Delete. rewrite shard_with_shard.
    rewrite (delete_eq _ key _ c0' c1' c0' c1' None None 0 0 0 0 Hsh')
      by (by apply del_dead).
    simpl. by rewrite with_shard_id.
  - intros key' level Hne. destruct (Ho key' Hne) as [E0 E1].
    by apply (present_frame s key key' c0 c1 c0' c1').
Qed.

Lemma stored_frame s key key' c0 c1 c0' c1' :
  wf_store s → index (caches s) (shard s key) = Some (c0, c1) →
  ∀ level,
    slot (if level =? 0 then c0' else c1') key' =
    slot (if level =? 0 then c0 else c1) key' →
    stored (with_shard s (shard s key) (c0', c1')) key' level =
    stored s key' level.
Proof.
  intros Hwf Hsh level E.
  destruct (decide (shard s key = shard s key')) as [Heq | Hne].
  - rewrite Heq in *. rewrite (stored_with_shard _ _ _ _ _ _ Hsh).
    by rewrite (stored_eq _ _ _ _ Hsh).
  - pose proof (shard_range s key Hwf).
    apply stored_other_shard; [done | lia | done].
Qed.

Lemma stored_frame_weak s key key' c0 c1 c0' c1' :
  wf_store s → index (caches s) (shard s key) = Some (c0, c1) →
  ∀ level,
    slot (if level =? 0 then c0' else c1') key' =
    slot (if level =? 0 then c0 else c1) key' ∨
    slot (if level =? 0 then c0' else c1') key' = None →
    stored (with_shard s (shard s key) (c0', c1')) key' level =
    stored s key' level ∨
    stored (with_shard s (shard s key) (c0', c1')) key' level = None.
Proof.
  intros Hwf Hsh level E.
  destruct (decide (shard s key = shard s key')) as [Heq | Hne].
  - rewrite Heq in *. rewrite (stored_with_shard _ _ _ _ _ _ Hsh).
    by rewrite (stored_eq _ _ _ _ Hsh).
  - pose proof (shard_range s key Hwf). left.
    apply stored_other_shard; [done | lia | done].
Qed.

(** [put] on an indexed key leaves every other slot as it is. *)
Lemma put_update_slots c key nd val e cb :
  wf c → slot c key = Some nd →
  ∃ c', put c key val e cb = Some (c', [], 0) ∧ wf c' ∧
    slot c' key = Some (Node key val e) ∧
    (∀ key', key' ≠ key → slot c' key' = slot c key').
Proof.
  intros Hwf Hs. unfold slot in Hs.
  destruct (hmap c !! key) as [idx |] eqn:Hidx; [| done].
  destruct (put_update c key idx val e cb Hwf Hidx) as (d' & E & Hd' & Hlen).
  destruct (wf_slot c key idx Hwf Hidx) as (Hr & E16 & Hi & nd' & _ & Hm & Hk).
  eexists. split; [exact E |].
  split; [apply wf_rewrite_slot; try done; by intros ? [= <-]%(eq_trans (eq_sym Hm)) |].
  split.
  - unfold slot; simpl. rewrite Hidx; simpl. rewrite E16, index_lookup by lia.
    apply list_lookup_insert_eq. lia.
  - intros key' Hne. unfold slot; simpl.
    destruct (hmap c !! key') as [idx' |] eqn:Hidx'; [| done]. simpl.
    destruct (wf_slot c key' idx' Hwf Hidx') as (Hr' & E16' & Hi' & _).
    rewrite E16', !index_lookup by lia.
    apply list_lookup_insert_ne. intros Heq.
    assert (idx = idx') as <- by lia. apply Hne. by eapply wf_hmap_inj.
Qed.

(** X7. [SetWithExpiration] of a key that tier 1 of its shard already
    indexes, live or tombstoned, never panics and never calls the callback:
    the slot is rewritten in place with the new value and stamp, and every
    other slot of both tiers, as well as the tier-2 slot of the key itself,
    is as before. *)
Theorem overwrite_in_place (s : lru2Store) (key : string) (value : Value)
    (expiration now : Z) :
  wf_store s → is_Some (stored s key 0) →
  ∃ s',
    SetWithExpiration s key value expiration now = Some (s', []) ∧
    wf_store s' ∧
    stored s' key 0 =
      Some (Node key value
              (if gt0 expiration then plus64 now expiration else 0)) ∧
    stored s' key 1 = stored s key 1 ∧
    (∀ key' level, key' ≠ key → stored s' key' level = stored s key' level).
Proof.
  intros Hwf [nd Hs].
  destruct (shard_lookup s (shard s key) Hwf (shard_range s key Hwf))
    as (c0 & c1 & Hsh & Hwf0 & Hwf1).
  rewrite (stored_eq _ _ _ _ Hsh) in Hs. simpl in Hs.
  destruct (put_update_slots c0 key nd value
              (if gt0 expiration then plus64 now expiration else 0)
              (onEvicted s) Hwf0 Hs) as (c0' & E & Hwf0' & Hs' & Ho).
  rewrite (SetWithExpiration_eq _ _ _ _ _ _ _ Hsh), E. simpl.
  eexists. split; [done |]. split; [by eapply wf_with_shard |].
  rewrite !(stored_with_shard _ _ _ _ _ _ Hsh). simpl.
  split; [done |]. split; [by rewrite (stored_eq _ _ _ _ Hsh) |].
  intros key' level Hne. apply (stored_frame s key key' c0 c1); [done | done |].
  destruct (level =? 0); [by apply Ho | done].
Qed.

(** X9. A key that is live in tier 2 only and is read before its stamp, by
    both clock readings: [Get] returns its value and true, calls no
    callback, and leaves every slot of every key in both tiers as it
    was. *)
Theorem tier2_read_changes_nothing (s : lru2Store) (key : string)
    (now now' : Z) (nd : node) :
  wf_store s → present s key 0 = None → present s key 1 = Some nd →
  now < expireAt nd → now' < expireAt nd →
  ∃ s',
    Get s key now now' = Some (v nd, true, s', []) ∧ wf_store s' ∧
    (∀ key' level, stored s' key' level = stored s key' level).
Proof.
  intros Hwf Hp0 Hp1 Hnow Hnow'.
  destruct (shard_lookup s (shard s key) Hwf (shard_range s key Hwf))
    as (c0 & c1 & Hsh & Hwf0 & Hwf1).
  rewrite (present_eq _ _ _ _ Hsh) in Hp0. rewrite (present_eq _ _ _ _ Hsh) in Hp1.
  simpl in Hp0, Hp1.
  destruct (Get_tier2_hit s key now now' c0 c1 nd Hsh Hwf0 Hwf1 Hp0 Hp1 Hnow Hnow')
    as (c1' & Hwf1' & Hsl & E).
  eexists. split; [exact E |]. split; [by eapply wf_with_shard |].
  intros key' level. apply (stored_frame s key key' c0 c1); [done | done |].
  destruct (level =? 0); [done | apply Hsl].
Qed.

(** X8. [Get] of a key that is live in tier 1 with a stamp the clock has not
    reached. If tier 2 can take the key, the value is returned with true, the
    key is no longer live in tier 1 and is live in tier 2 with the same value
    and stamp; the callback is called at most once (for the entry tier 2
    recycled); every other key keeps its tier-1 slot, and keeps its tier-2
    slot or has lost it to the recycling. If tier 2 cannot take the key,
    [Get] panics. *)
Theorem Get_promotes_or_panics (s : lru2Store) (key : string) (now now' : Z)
    (nd : node) :
  wf_store s → present s key 0 = Some nd → now < expireAt nd →
  if ready s key 1 then
    ∃ s' evs,
      Get s key now now' = Some (v nd, true, s', evs) ∧ wf_store s' ∧
      present s' key 0 = None ∧
      present s' key 1 = Some (Node key (v nd) (expireAt nd)) ∧
      (length evs <= 1)%nat ∧
      (∀ key', key' ≠ key →
         stored s' key' 0 = stored s key' 0 ∧
         (stored s' key' 1 = stored s key' 1 ∨ stored s' key' 1 = None))
  else Get s key now now' = None.
Proof.
  intros Hwf Hp Hnow.
  destruct (shard_lookup s (shard s key) Hwf (shard_range s key Hwf))
    as (c0 & c1 & Hsh & Hwf0 & Hwf1).
  rewrite (present_eq _ _ _ _ Hsh) in Hp. rewrite (ready_eq _ _ _ _ Hsh).
  simpl in Hp |- *.
  destruct (del_spec c0 key Hwf0) as (c0' & E0 & Hwf0' & Hd0 & Ho0).
  rewrite Hp in E0. simpl in E0.
  destruct (put_ready c1 key) eqn:Hready.
  - destruct (put_total c1 key (v nd) (expireAt nd) (onEvicted s) Hwf1 Hready)
      as [[[c1' evs] r] Hput].
    destruct (put_inv _ _ _ _ _ _ _ _ Hwf1 Hput) as (Hwf1' & Hs1 & _ & Ho1 & Hev & _).
    rewrite (Get_from_del_put s key now now' c0 c1 c0' c1' _ _ evs r Hsh E0 Hnow Hput).
    simpl. eexists _, _. split; [done |]. split; [by eapply wf_with_shard |].
    rewrite !(present_with_shard _ _ _ _ _ _ Hsh). simpl.
    split; [done |]. split.
    { apply live_of_slot_Some; [done |]. exact (live_gt0 _ _ _ Hp). }
    split; [done |]. intros key' Hne. split.
    + apply (stored_frame s key key' c0 c1 c0' c1' Hwf Hsh 0). simpl. by apply Ho0.
    + apply (stored_frame_weak s key key' c0 c1 c0' c1' Hwf Hsh 1). simpl.
      by apply Ho1.
  - pose proof (Get_tier1_valid s key now now' c0 c1 nd Hwf Hsh Hwf0 Hwf1 Hp Hnow) as G.
    by rewrite Hready in G.
Qed.

Lemma oversize_checked : forall_range oversize_check 32769 (Z.to_nat 32767) = true.
Proof. vm_compute. reflexivity. Qed.

(** X12. A bucket count above 2^15: [maskOfNextPowOf2] returns 65535, the
    uint16 sum [mask+1] wraps to 0, and the store is built without any
    shard. [Get], [SetWithExpiration] and [Delete] then panic for every key
    (index out of range), and [Len] returns 0. *)
Theorem oversized_bucket_count (opts : Options) (key : string) (value : Value)
    (expiration now now' : Z) (fuel : nat) :
  32768 < BucketCount opts <= 65535 →
  mask (newLRU2Cache opts) = 65535 ∧
  caches (newLRU2Cache opts) = [] ∧
  Get (newLRU2Cache opts) key now now' = None ∧
  SetWithExpiration (newLRU2Cache opts) key value expiration now = None ∧
  Delete (newLRU2Cache opts) key = None ∧
  Len fuel (newLRU2Cache opts) = Some (Some 0).
Proof.
  intros Hb.
  pose proof (forall_range_spec _ _ _ oversize_checked (BucketCount opts)
                ltac:(lia)) as Hm.
  apply Z.eqb_eq in Hm.
  assert (newLRU2Cache opts = Store [] (OnEvicted opts) 65535) as ->.
  { unfold newLRU2Cache. rewrite (proj2 (Z.eqb_neq (BucketCount opts) 0)) by lia.
    rewrite Hm. done. }
  split; [done |]. split; [done |].
  assert (∀ idx level, tier (Store [] (OnEvicted opts) 65535) idx level = None)
    as Ht.
  { intros idx level. unfold tier, index. simpl. by destruct (idx <? 0). }
  split_and!.
  - unfold Get. by rewrite Ht.
  - unfold SetWithExpiration. by rewrite Ht.
  - unfold Delete, delete. by rewrite Ht.
  - done.
Qed.

(** Reading a link after a write. *)
Lemma ld_st d i j y d' i' j' :
  st d i j y = Some d' → (j = 0 ∨ j = 1) → (j' = 0 ∨ j' = 1) →
  ld d' i' j' = if decide (i' = i ∧ j' = j) then Some y else ld d i' j'.
Proof.
  unfold st, ld, assign. intros H Hj Hj'.
  destruct (index d i) as [x |] eqn:Hx; [| done]. simpl in H.
  injection H as <-. pose proof (index_Some_range _ _ _ Hx) as Hi.
  unfold index in *. destruct (Z.ltb_spec i' 0) as [Hneg | Hpos].
  { rewrite decide_False by lia. done. }
  destruct (Z.ltb_spec i 0); [lia |].
  destruct (decide (i' = i)) as [-> | Hne].
  - rewrite list_lookup_insert_eq by lia. rewrite Hx. simpl.
    unfold sel, upd. case_decide as Hc.
    + destruct Hc as [_ ->]. by destruct Hj as [-> | ->].
    + destruct Hj as [-> | ->], Hj' as [-> | ->]; simpl; try done;
        exfalso; apply Hc; done.
  - rewrite list_lookup_insert_ne by lia.
    rewrite decide_False by (intros [? ?]; done). done.
Qed.

Lemma ld_assign d i a b d' i' j' :
  assign d i (a, b) = Some d' →
  ld d' i' j' = if decide (i' = i) then Some (sel (a, b) j') else ld d i' j'.
Proof.
  unfold ld, assign. intros H.
  destruct (index d i) as [x |] eqn:Hx; [| done]. simpl in H.
  injection H as <-. pose proof (index_Some_range _ _ _ Hx) as Hi.
  unfold index in *. destruct (Z.ltb_spec i' 0) as [Hneg | Hpos].
  { rewrite decide_False by lia. done. }
  destruct (decide (i' = i)) as [-> | Hne].
  - by rewrite list_lookup_insert_eq by lia.
  - by rewrite list_lookup_insert_ne by lia.
Qed.

Lemma hd_app_hd (l1 l2 : list Z) next :
  List.hd next (l1 ++ l2) = List.hd (List.hd next l2) l1.
Proof. by destruct l1. Qed.

Lemma last_cons_last (x : Z) l prev :
  List.last (x :: l) prev = List.last l x.
Proof.
  revert x prev. induction l as [| y l IH]; intros x prev; [done |].
  change (List.last (x :: y :: l) prev) with (List.last (y :: l) prev).
  rewrite IH. symmetry. apply IH.
Qed.

Lemma seg_app d prev l1 l2 next :
  seg d prev (l1 ++ l2) next ↔
  seg d prev l1 (List.hd next l2) ∧ seg d (List.last l1 prev) l2 next.
Proof.
  revert prev. induction l1 as [| x l1 IH]; intros prev.
  - simpl. split; [by intros | by intros [_ ?]].
  - rewrite last_cons_last. cbn [app seg]. rewrite IH, hd_app_hd. tauto.
Qed.

Lemma last_elem_of (x : Z) l dflt : List.last (x :: l) dflt ∈ x :: l.
Proof.
  revert x. induction l as [| y l IH]; intros x; [apply list_elem_of_here |].
  apply list_elem_of_further, (IH y).
Qed.

(** Changing what comes before the first node and after the last one. *)
Lemma seg_change d d' prev prev' l next next' :
  NoDup l → seg d prev l next →
  (∀ x, x ∈ l →
     ld d' x p = if decide (x = List.hd 0 l) then Some prev' else ld d x p) →
  (∀ x, x ∈ l →
     ld d' x n = if decide (x = List.last l 0) then Some next' else ld d x n) →
  seg d' prev' l next'.
Proof.
  revert prev prev'. induction l as [| x l IH]; intros prev prev' Hnd Hseg Hp Hn;
    [done |].
  apply NoDup_cons in Hnd as [Hx Hnd]. destruct Hseg as (Hxp & Hxn & Hseg).
  cbn [seg]. split; [| split].
  - rewrite Hp by apply list_elem_of_here. cbn [List.hd]. by rewrite decide_True.
  - rewrite Hn by apply list_elem_of_here. destruct l as [| y l].
    + cbn [List.hd]. by rewrite decide_True.
    + rewrite decide_False; [done |]. intros Heq.
      apply Hx. change (List.last (x :: y :: l) 0) with (List.last (y :: l) 0) in Heq.
      rewrite Heq. apply last_elem_of.
  - destruct l as [| y l]; [done |].
    apply (IH x x Hnd Hseg).
    + intros z Hz. rewrite Hp by (by apply list_elem_of_further). cbn [List.hd].
      destruct (decide (z = y)) as [-> | Hne].
      * rewrite decide_False by (intros ->; apply Hx, list_elem_of_here).
        destruct Hseg as (Hyp & _). done.
      * rewrite decide_False by (intros ->; done). done.
    + intros z Hz. by rewrite Hn by (by apply list_elem_of_further).
Qed.


(** A walk that has reached a slot whose next link is the slot itself. *)
Lemma walk_from_self_loop {A} (walker : A → string → Value → Z → A * bool)
    c idx nd :
  idx ≠ 0 → index (m c) (uint16 (idx - 1)) = Some nd →
  ld (dlnk c) idx n = Some idx →
  (∀ a key val e, (walker a key val e).2 = true) →
  ∀ fuel acc, walk_from fuel c idx walker acc = Some None.
Proof.
  intros Hne Hnd Hnext Hcont. induction fuel as [| fuel IH]; intros acc.
  - simpl. by rewrite (proj2 (Z.eqb_neq idx 0)).
  - cbn [walk_from]. rewrite (proj2 (Z.eqb_neq idx 0)) by done.
    rewrite Hnd. cbn [mbind option_bind].
    destruct (gt0 (expireAt nd)).
    + specialize (Hcont acc (k nd) (v nd) (expireAt nd)).
      destruct (walker acc (k nd) (v nd) (expireAt nd)) as [acc' b].
      simpl in Hcont. subst b. rewrite Hnext. cbn [mbind option_bind]. apply IH.
    + rewrite Hnext. cbn [mbind option_bind]. apply IH.
Qed.

(** Under the invariant a walk stays inside the slices. *)
Lemma walk_from_in_range {A} (walker : A → string → Value → Z → A * bool) c :
  wf c → ∀ fuel idx acc, 0 <= idx <= last c →
  is_Some (walk_from fuel c idx walker acc).
Proof.
  intros Hwf. pose proof (wf_last c Hwf) as Hl. pose proof (wf_cap c Hwf) as Hc.
  induction fuel as [| fuel IH]; intros idx acc Hidx.
  - simpl. by destruct (idx =? 0).
  - cbn [walk_from]. destruct (Z.eqb_spec idx 0); [done |].
    rewrite (uint16_small (idx - 1)) by lia.
    destruct (index_in_range (m c) (idx - 1)) as [nd ->]; [lia |].
    cbn [mbind option_bind].
    destruct (ld_ok (dlnk c) (last c) idx n (wf_links c Hwf) Hidx)
      as (nx & Enx & Hnx).
    destruct (if gt0 (expireAt nd) then walker acc (k nd) (v nd) (expireAt nd)
              else (acc, true)) as [acc' b].
    destruct b; [| done]. rewrite Enx. cbn [mbind option_bind]. by apply IH.
Qed.

Lemma walk_in_range {A} (walker : A → string → Value → Z → A * bool) c fuel acc :
  wf c → is_Some (walk fuel c walker acc).
Proof.
  intros Hwf. unfold walk. pose proof (wf_last c Hwf).
  destruct (ld_ok (dlnk c) (last c) 0 Head (wf_links c Hwf) ltac:(lia))
    as (h & -> & Hh).
  cbn [mbind option_bind]. by apply walk_from_in_range.
Qed.

(** [put] of a new key into a cache with a free slot whose list has no
    head although keys are indexed. *)
Lemma put_on_headless_list c key val e cb :
  wf c → hmap c !! key = None → last c ≠ Z.of_nat (length (m c)) →
  hmap c ≠ ∅ → ld (dlnk c) 0 Head = Some 0 →
  ∃ c', put c key val e cb = Some (c', [], 1) ∧ wf c' ∧
    slot c' key = Some (Node key val e) ∧
    ld (dlnk c') 0 Head = Some (last c + 1) ∧
    ld (dlnk c') (last c + 1) n = Some (last c + 1) ∧
    index (m c') (uint16 (last c + 1 - 1)) = Some (Node key val e).
Proof.
  intros Hwf Hidx Hfree Hne Hh.
  destruct (put_fresh c key val e cb Hwf Hidx Hfree) as (d' & E & Hd' & Hlen).
  destruct (put_inv _ _ _ _ _ _ _ _ Hwf E) as (Hwf' & Hs & _).
  eexists. split; [exact E |]. split; [done |]. split; [done |].
  pose proof (wf_last c Hwf) as Hl. pose proof (wf_cap c Hwf) as Hc.
  pose proof (wf_dlnk c Hwf) as Hd.
  set (new := last c + 1) in *.
  assert (links_ok (dlnk c) new) as Hok.
  { eapply links_ok_mono; [apply Hwf |]. lia. }
  (* replay the link writes *)
  unfold put in E. rewrite Hidx in E.
  rewrite (uint16_small (Z.of_nat _)) in E by lia.
  rewrite (proj2 (Z.eqb_neq _ _) Hfree) in E.
  rewrite (uint16_small (last c + 1)) in E by lia. fold new in E.
  assert ((Z.of_nat (size (hmap c)) <=? 0) = false) as Hsz.
  { apply Z.leb_gt. destruct (size (hmap c)) eqn:Es; [| lia].
    by apply map_size_empty_iff in Es. }
  rewrite Hsz, Hh in E. cbn [mbind option_bind] in E.
  destruct (st_ok (dlnk c) new 0 p new Hok ltac:(lia) ltac:(lia))
    as (d1 & E1 & Hok1 & N1).
  rewrite E1 in E. cbn [mbind option_bind] in E.
  pose proof (λ i' j', ld_st _ 0 p new d1 i' j' E1 (or_introl eq_refl)) as R1.
  destruct (index_in_range (m c) (new - 1)) as [x0 Hx0]; [lia |].
  rewrite (uint16_small (new - 1)) in E by lia.
  rewrite Hx0, (assign_in_range (m c)) in E by lia.
  cbn [mbind option_bind] in E.
  assert (ld d1 0 Head = Some new) as Hh1.
  { rewrite (R1 0 Head (or_introl eq_refl)). by rewrite decide_True. }
  rewrite Hh1 in E. cbn [mbind option_bind] in E.
  destruct (assign_row_ok d1 new new new Hok1 ltac:(lia) ltac:(lia))
    as (d2 & E2 & Hok2 & N2).
  rewrite E2 in E. cbn [mbind option_bind] in E.
  pose proof (λ i' j', ld_assign d1 new 0 new d2 i' j' E2) as R2.
  assert (ld d2 0 Head = Some new) as Hh2.
  { rewrite R2, decide_False by lia. done. }
  rewrite Hh2 in E. cbn [mbind option_bind] in E.
  rewrite (proj2 (Z.eqb_neq new 0)) in E by lia.
  cbn [mbind option_bind] in E.
  destruct (st_ok d2 new new p new Hok2 ltac:(lia) ltac:(lia))
    as (d3 & E3 & Hok3 & N3).
  rewrite E3 in E. cbn [mbind option_bind] in E.
  pose proof (λ i' j', ld_st _ new p new d3 i' j' E3 (or_introl eq_refl)) as R3.
  destruct (st_ok d3 new 0 Head new Hok3 ltac:(lia) ltac:(lia))
    as (d4 & E4 & Hok4 & N4).
  rewrite E4 in E. cbn [mbind option_bind] in E.
  pose proof (λ i' j', ld_st _ 0 Head new d4 i' j' E4 (or_introl eq_refl)) as R4.
  assert (ld d4 new n = Some new) as Hn4.
  { rewrite (R4 new n (or_intror eq_refl)), decide_False by lia.
    rewrite (R3 new n (or_intror eq_refl)), decide_False by (unfold p, n; lia).
    rewrite R2, decide_True by done. done. }
  assert (ld d4 0 Head = Some new) as Hh4.
  { rewrite (R4 0 Head (or_introl eq_refl)), decide_True by done. done. }
  destruct (ld_ok d4 new 0 Tail Hok4 ltac:(lia)) as (tl & Etl & Htl).
  rewrite Etl in E. cbn [mbind option_bind] in E.
  assert (∀ d5, (if tl =? 0 then st d4 0 Tail new else Some d4) = Some d5 →
            ld d5 0 Head = Some new ∧ ld d5 new n = Some new) as Hfin.
  { intros d5 E5. destruct (tl =? 0); [| by injection E5 as <-].
    pose proof (λ i' j', ld_st _ 0 Tail new d5 i' j' E5 (or_intror eq_refl)) as R5.
    rewrite (R5 0 Head (or_introl eq_refl)), decide_False by (unfold Head, Tail; lia).
    rewrite (R5 new n (or_intror eq_refl)), decide_False by lia. done. }
  destruct (if tl =? 0 then st d4 0 Tail new else Some d4) as [d5 |] eqn:E5;
    [| done].
  cbn [mbind option_bind] in E. injection E as <-.
  destruct (Hfin d5 eq_refl) as [H1 H2]. simpl. split; [done |]. split; [done |].
  replace (new - 1) with (last c) by (unfold new; lia).
  rewrite (uint16_small (last c)) by lia. rewrite index_lookup by lia.
  apply list_lookup_insert_eq. lia.
Qed.

Lemma Len_from_loop fuel cs :
  ∀ count i sh,
    Forall (λ sh : cache * cache, wf sh.1 ∧ wf sh.2) cs →
    cs !! i = Some sh →
    (∀ acc, walk fuel sh.1 count_walker acc = Some None) →
    Len_from fuel cs count = Some None.
Proof.
  induction cs as [| sh0 cs IH]; intros count i sh Hwf Hi Hloop; [done |].
  apply Forall_cons in Hwf as [[Hwf0 Hwf1] Hwf]. cbn [Len_from].
  destruct i as [| i].
  - injection Hi as ->. by rewrite Hloop.
  - destruct (walk_in_range count_walker sh0.1 fuel count Hwf0) as [[c1 |] ->];
      [| done].
    cbn [mbind option_bind].
    destruct (walk_in_range count_walker sh0.2 fuel c1 Hwf1) as [[c2 |] ->];
      [| done].
    cbn [mbind option_bind]. by apply (IH c2 i sh).
Qed.

(** X4. A tier-1 list left without a head while keys are still indexed,
    the state after the only entry of the tier was deleted or promoted: the
    next [SetWithExpiration] of a new key into a free slot returns, but links
    the new slot to itself. From then on [walk] never reads index 0: for
    every bound on the number of iterations, [Len] and the cleanup pass over
    that shard have not returned. *)
Theorem insert_after_emptying_makes_walks_loop (s : lru2Store) (key : string)
    (value : Value) (expiration now : Z) (c0 : cache) :
  wf_store s → tier s (shard s key) 0 = Some c0 →
  hmap c0 !! key = None → last c0 ≠ Z.of_nat (length (m c0)) →
  hmap c0 ≠ ∅ → ld (dlnk c0) 0 Head = Some 0 →
  ∃ s',
    SetWithExpiration s key value expiration now = Some (s', []) ∧
    wf_store s' ∧
    (∀ fuel, Len fuel s' = Some None) ∧
    (∀ fuel currentTime,
       cleanupShard fuel s' (shard s key) currentTime = Some None).
Proof.
  intros Hwf Ht Hkey Hfree Hne Hh.
  destruct (shard_lookup s (shard s key) Hwf (shard_range s key Hwf))
    as (c0_ & c1 & Hsh & Hwf0 & Hwf1).
  rewrite (tier_eq _ _ _ 0 Hsh) in Ht. simpl in Ht. injection Ht as ->.
  destruct (put_on_headless_list c0 key value
              (if gt0 expiration then plus64 now expiration else 0)
              (onEvicted s) Hwf0 Hkey Hfree Hne Hh)
    as (c0' & E & Hwf0' & _ & Hh' & Hn' & Hnd').
  rewrite (SetWithExpiration_eq _ _ _ _ _ _ _ Hsh), E. simpl.
  eexists. split; [done |].
  pose proof (wf_with_shard s _ _ c0' c1 Hwf Hsh Hwf0' Hwf1) as Hwf'.
  split; [done |].
  pose proof (wf_last c0 Hwf0) as Hl.
  assert (∀ A (walker : A → string → Value → Z → A * bool) fuel acc,
            (∀ a key val e, (walker a key val e).2 = true) →
            walk fuel c0' walker acc = Some None) as Hloop.
  { intros A walker fuel acc Hcont. unfold walk. rewrite Hh'.
    cbn [mbind option_bind].
    eapply walk_from_self_loop; [lia | exact Hnd' | exact Hn' | exact Hcont]. }
  split.
  - intros fuel. unfold Len.
    apply (Len_from_loop fuel _ 0 (Z.to_nat (shard s key)) (c0', c1)).
    + apply Hwf'.
    + pose proof (index_with_shard s _ _ (c0', c1) Hsh) as Hsh'.
      pose proof (shard_range s key Hwf). rewrite index_lookup in Hsh' by lia.
      exact Hsh'.
    + intros acc. by apply Hloop.
  - intros fuel currentTime. unfold cleanupShard.
    rewrite (tier_eq _ _ _ 0 (index_with_shard s _ _ (c0', c1) Hsh)). simpl.
    rewrite Hloop; [done |]. intros a key' val e. unfold expired_walker.
    by destruct (_ && _).
Qed.

Lemma insert_after_emptying_makes_walks_loop_witness :
  ∃ s',
    SetWithExpiration emptied_store "b" (Some "2") 10000000 0 = Some (s', []) ∧
    wf_store s' ∧
    (∀ fuel, Len fuel s' = Some None) ∧
    (∀ fuel currentTime,
       cleanupShard fuel s' (shard emptied_store "b") currentTime = Some None).
Proof.
  apply (insert_after_emptying_makes_walks_loop emptied_store "b" (Some "2")
           10000000 0 emptied_tier).
  - apply (Delete_wf written_store "a" emptied_store true [("a", Some "1")]);
      [| vm_compute; reflexivity].
    apply (SetWithExpiration_wf (newLRU2Cache scenario_options) "a" (Some "1")
             10000000 0 written_store []); [| vm_compute; reflexivity].
    apply wf_newLRU2Cache, scenario_options_ok.
  - vm_compute. reflexivity.
  - vm_compute. reflexivity.
  - vm_compute. discriminate.
  - intros H. apply (f_equal (λ h : gmap string Z, h !! "a")) in H.
    vm_compute in H. discriminate.
  - vm_compute. reflexivity.
Defined.

Lemma walk_from_expired (walker : list string → string → Value → Z → list string * bool)
    c currentTime :
  wf c →
  (∀ acc key val e,
     (walker acc key val e).2 = true ∧
     ∀ x, x ∈ (walker acc key val e).1 →
          x ∈ acc ∨ (x = key ∧ 0 < e <= currentTime)) →
  ∀ fuel idx acc ks, 0 <= idx <= last c →
    walk_from fuel c idx walker acc = Some (Some ks) →
    ∀ x, x ∈ ks → x ∈ acc ∨ expired_slot c currentTime x.
Proof.
  intros Hwf Hwalker. pose proof (wf_last c Hwf) as Hl.
  pose proof (wf_cap c Hwf) as Hc.
  induction fuel as [| fuel IH]; intros idx acc ks Hidx H x Hx.
  - simpl in H. destruct (idx =? 0); [| done]. injection H as <-. by left.
  - cbn [walk_from] in H. destruct (Z.eqb_spec idx 0).
    { injection H as <-. by left. }
    rewrite (uint16_small (idx - 1)) in H by lia.
    destruct (index (m c) (idx - 1)) as [nd |] eqn:Hnd; [| done].
    cbn [mbind option_bind] in H.
    rewrite index_lookup in Hnd by lia.
    assert (nd ∈ m c) as Hin by (by eapply list_elem_of_lookup_2).
    destruct (ld_ok (dlnk c) (last c) idx n (wf_links c Hwf) Hidx)
      as (nx & Enx & Hnx).
    destruct (gt0 (expireAt nd)) eqn:Hg.
    + destruct (Hwalker acc (k nd) (v nd) (expireAt nd)) as [Hb Hacc].
      destruct (walker acc (k nd) (v nd) (expireAt nd)) as [acc' b].
      simpl in Hb, Hacc. subst b. rewrite Enx in H. cbn [mbind option_bind] in H.
      destruct (IH nx acc' ks Hnx H x Hx) as [Hx' | Hx']; [| by right].
      destruct (Hacc x Hx') as [? | [-> ?]]; [by left | right].
      by exists nd.
    + rewrite Enx in H. cbn [mbind option_bind] in H.
      by apply (IH nx acc ks Hnx H x Hx).
Qed.

Lemma walk_expired (walker : list string → string → Value → Z → list string * bool)
    c currentTime fuel acc ks :
  wf c →
  (∀ acc key val e,
     (walker acc key val e).2 = true ∧
     ∀ x, x ∈ (walker acc key val e).1 →
          x ∈ acc ∨ (x = key ∧ 0 < e <= currentTime)) →
  walk fuel c walker acc = Some (Some ks) →
  ∀ x, x ∈ ks → x ∈ acc ∨ expired_slot c currentTime x.
Proof.
  intros Hwf Hwalker H. unfold walk in H. pose proof (wf_last c Hwf).
  destruct (ld_ok (dlnk c) (last c) 0 Head (wf_links c Hwf) ltac:(lia))
    as (h & Eh & Hh).
  rewrite Eh in H. cbn [mbind option_bind] in H.
  by eapply walk_from_expired.
Qed.

Lemma expired_walker_collects currentTime acc key val e :
  (expired_walker currentTime acc key val e).2 = true ∧
  ∀ x, x ∈ (expired_walker currentTime acc key val e).1 →
       x ∈ acc ∨ (x = key ∧ 0 < e <= currentTime).
Proof.
  unfold expired_walker.
  destruct (gt0 e) eqn:Hg, (at_or_after currentTime e) eqn:Ha; simpl;
    (split; [done |]); intros x Hx; try (by left).
  apply elem_of_app in Hx as [? | ->%list_elem_of_singleton]; [by left | right].
  apply gt0_spec in Hg. apply at_or_after_spec in Ha. done.
Qed.

Lemma expired_walker2_collects currentTime acc key val e :
  (expired_walker2 currentTime acc key val e).2 = true ∧
  ∀ x, x ∈ (expired_walker2 currentTime acc key val e).1 →
       x ∈ acc ∨ (x = key ∧ 0 < e <= currentTime).
Proof.
  unfold expired_walker2.
  destruct (gt0 e) eqn:Hg, (at_or_after currentTime e) eqn:Ha; simpl;
    try (split; [done |]; intros x Hx; by left).
  destruct (bool_decide (key ∈ acc)); simpl; (split; [done |]); intros x Hx;
    try (by left).
  apply elem_of_app in Hx as [? | ->%list_elem_of_singleton]; [by left | right].
  apply gt0_spec in Hg. apply at_or_after_spec in Ha. done.
Qed.

Lemma held_eq s i sh level key :
  index (caches s) i = Some sh →
  held s i level key = live (if level =? 0 then sh.1 else sh.2) key.
Proof. intros H. unfold held. by rewrite (tier_eq _ _ _ level H). Qed.

Lemma delete_all_spec ks :
  ∀ s idx c0 c1 s' evs,
    wf_store s → index (caches s) idx = Some (c0, c1) → wf c0 → wf c1 →
    delete_all s ks idx = Some (s', evs) →
    ∃ c0' c1',
      s' = with_shard s idx (c0', c1') ∧ wf c0' ∧ wf c1' ∧
      (∀ key, key ∈ ks → live c0' key = None ∧ live c1' key = None) ∧
      (∀ key, key ∉ ks →
         live c0' key = live c0 key ∧ live c1' key = live c1 key) ∧
      (length evs <= length ks)%nat.
Proof.
  induction ks as [| key ks IH]; intros s idx c0 c1 s' evs Hwf Hsh Hwf0 Hwf1 H;
    simpl in H.
  - injection H as <- <-. exists c0, c1. rewrite with_shard_id by done.
    split_and!; try done. intros key Hin. by apply elem_of_nil in Hin.
  - destruct (delete_spec s key idx c0 c1 Hwf Hsh Hwf0 Hwf1)
      as (c0a & c1a & E & Hwf0a & Hwf1a & Hd0 & Hd1 & Ho).
    rewrite E in H. cbn [mbind option_bind] in H.
    destruct (delete_all _ ks idx) as [[s2 evs2] |] eqn:E2; [| done].
    cbn [mbind option_bind] in H. injection H as <- <-.
    destruct (IH (with_shard s idx (c0a, c1a)) idx c0a c1a s2 evs2)
      as (c0' & c1' & -> & Hwf0' & Hwf1' & Hgone & Hkept & Hlen);
      [by eapply wf_with_shard | by eapply index_with_shard | done | done | done |].
    exists c0', c1'. rewrite with_shard_twice. split; [done |].
    split; [done |]. split; [done |]. split_and!.
    + intros key' [-> | Hin]%elem_of_cons; [| by apply Hgone].
      destruct (decide (key ∈ ks)) as [Hin | Hnin]; [by apply Hgone |].
      destruct (Hkept key Hnin) as [-> ->]. done.
    + intros key' Hnin. apply not_elem_of_cons in Hnin as [Hne Hnin].
      destruct (Hkept key' Hnin) as [-> ->]. by apply Ho.
    + rewrite length_app. simpl.
      pose proof (delete_events_length (onEvicted s) key (live c0 key) (live c1 key)).
      lia.
Qed.

(** X11. One cleanup pass over a shard of a store that satisfies the
    invariant never panics. When both walks complete, the store still
    satisfies the invariant and has the same shape, and for every key either
    both tiers of the shard hold for it what they held, or the key is gone
    from both tiers and a slot of one of the two tiers carried it with a
    positive stamp that the clock had reached. *)
Theorem cleanup_pass_removes_only_expired_keys (fuel : nat) (s : lru2Store)
    (i currentTime : Z) (c0 c1 : cache) :
  wf_store s → tier s i 0 = Some c0 → tier s i 1 = Some c1 →
  match cleanupShard fuel s i currentTime with
  | None => False
  | Some None => True
  | Some (Some (s', evs)) =>
      wf_store s' ∧ shape s' = shape s ∧
      ∀ key level,
        held s' i level key = held s i level key ∨
        (held s' i 0 key = None ∧ held s' i 1 key = None ∧
         (expired_slot c0 currentTime key ∨ expired_slot c1 currentTime key))
  end.
Proof.
  intros Hwf T0 T1.
  assert (∃ sh, index (caches s) i = Some sh) as [[c0_ c1_] Hsh].
  { unfold tier in T0. destruct (index (caches s) i); [eauto | done]. }
  rewrite (tier_eq _ _ _ 0 Hsh) in T0. rewrite (tier_eq _ _ _ 1 Hsh) in T1.
  simpl in T0, T1. injection T0 as ->. injection T1 as ->.
  pose proof (index_Some_range _ _ _ Hsh) as Hi.
  pose proof (wf_shards s Hwf) as Hn.
  destruct (shard_lookup s i Hwf ltac:(lia)) as (c0_ & c1_ & Hsh' & Hwf0 & Hwf1).
  rewrite Hsh in Hsh'. injection Hsh' as <- <-.
  destruct (cleanupShard fuel s i currentTime) as [[[s' evs] |] |] eqn:H; [| done |].
  - destruct (cleanupShard_wf _ _ _ _ _ _ Hwf H) as [Hwf' Hshape].
    split; [done |]. split; [done |].
    unfold cleanupShard in H. rewrite (tier_eq _ _ _ 0 Hsh) in H.
    change (0 =? 0) with true in H. cbn [mbind option_bind fst] in H.
    destruct (walk fuel c0 (expired_walker currentTime) []) as [[ks0 |] |] eqn:W0;
      try done.
    cbn [mbind option_bind] in H. rewrite (tier_eq _ _ _ 1 Hsh) in H.
    change (1 =? 0) with false in H. cbn [mbind option_bind snd] in H.
    destruct (walk fuel c1 (expired_walker2 currentTime) ks0) as [[ks1 |] |] eqn:W1;
      try done.
    cbn [mbind option_bind] in H.
    destruct (delete_all s ks1 i) as [[s1 evs1] |] eqn:E; [| discriminate H].
    simpl in H. injection H as <- <-.
    destruct (delete_all_spec ks1 s i c0 c1 s1 evs1 Hwf Hsh Hwf0 Hwf1 E)
      as (c0' & c1' & -> & Hwf0' & Hwf1' & Hgone & Hkept & _).
    intros key level.
    pose proof (index_with_shard s i _ (c0', c1') Hsh) as Hsh1.
    rewrite !(held_eq _ _ _ _ _ Hsh1), !(held_eq _ _ _ _ _ Hsh). simpl.
    destruct (decide (key ∈ ks1)) as [Hin | Hnin].
    + right. destruct (Hgone key Hin) as [G0 G1]. split; [exact G0 |].
      split; [exact G1 |].
      destruct (walk_expired _ c1 currentTime fuel ks0 ks1 Hwf1
                  (expired_walker2_collects currentTime) W1 key Hin)
        as [Hin0 | ?]; [| by right].
      destruct (walk_expired _ c0 currentTime fuel [] ks0 Hwf0
                  (expired_walker_collects currentTime) W0 key Hin0)
        as [Hnil | ?]; [by apply elem_of_nil in Hnil | by left].
    + left. destruct (Hkept key Hnin) as [K0 K1]. by destruct (level =? 0).
  - unfold cleanupShard in H. rewrite (tier_eq _ _ _ 0 Hsh) in H.
    change (0 =? 0) with true in H. cbn [mbind option_bind fst] in H.
    destruct (walk_in_range (expired_walker currentTime) c0 fuel [] Hwf0)
      as [[ks0 |] W0]; rewrite W0 in H; [| done].
    cbn [mbind option_bind] in H. rewrite (tier_eq _ _ _ 1 Hsh) in H.
    change (1 =? 0) with false in H. cbn [mbind option_bind snd] in H.
    destruct (walk_in_range (expired_walker2 currentTime) c1 fuel ks0 Hwf1)
      as [[ks1 |] W1]; rewrite W1 in H; [| done].
    cbn [mbind option_bind] in H.
    destruct (delete_all s ks1 i) as [[s1 evs1] |] eqn:E; [discriminate H |].
    clear H. revert E. generalize ks1. clear -Hwf Hsh Hwf0 Hwf1.
    intros ks. revert s c0 c1 Hwf Hsh Hwf0 Hwf1.
    induction ks as [| key ks IH]; intros s c0 c1 Hwf Hsh Hwf0 Hwf1 E; [done |].
    simpl in E.
    destruct (delete_spec s key i c0 c1 Hwf Hsh Hwf0 Hwf1)
      as (c0a & c1a & Ed & Hwf0a & Hwf1a & _).
    rewrite Ed in E. cbn [mbind option_bind] in E.
    destruct (delete_all _ ks i) as [[s2 evs2] |] eqn:E2; [done |].
    eapply (IH (with_shard s i (c0a, c1a)) c0a c1a); [| | | | exact E2]; try done.
    + by eapply wf_with_shard.
    + by eapply index_with_shard.
Qed.

Lemma last_app_one (l : list Z) t dflt : List.last (l ++ [t]) dflt = t.
Proof. apply List.last_last. Qed.

Lemma hd_elem_of (x : Z) l dflt : List.hd dflt (x :: l) ∈ x :: l.
Proof. apply list_elem_of_here. Qed.

(** Moving the tail node of a list of two or more nodes to the head. *)
Lemma adjust_tail_to_head d L l t f :
  links_ok d L → l ≠ [] → NoDup (l ++ [t]) →
  (∀ x, x ∈ l ++ [t] → 1 <= x <= L) →
  dll d (l ++ [t]) →
  ∃ d', adjust_links d t f Head = Some d' ∧ links_ok d' L ∧
        length d' = length d ∧ dll d' (t :: l).
Proof.
  intros Hok Hne Hnd Hrange (Hh & Ht & Hseg).
  destruct l as [| a l]; [done |]. clear Hne.
  rewrite last_app_one in Ht. simpl in Hh.
  apply seg_app in Hseg as [Hl Hlast]. cbn [seg List.hd] in Hlast, Hl.
  destruct Hlast as (Htp & Htn & _).
  set (q := List.last (a :: l) 0) in *.
  assert (q ∈ a :: l) as Hq by apply last_elem_of.
  apply NoDup_app in Hnd as (Hndl & Hdisj & _).
  assert (∀ x, x ∈ a :: l → x ≠ t ∧ 1 <= x <= L) as Hin.
  { intros x Hx. split; [| apply Hrange, elem_of_app; by left].
    intros ->. apply (Hdisj t Hx), list_elem_of_here. }
  assert (1 <= t <= L) as Hrt
    by (apply Hrange, elem_of_app; right; apply list_elem_of_here).
  destruct (Hin q Hq) as [Hqt Hqr].
  destruct (Hin a ltac:(apply list_elem_of_here)) as [Hat Har].
  unfold adjust_links.
  rewrite (proj2 (Z.eqb_neq t 0)) by lia.
  rewrite Htp, Htn. cbn [mbind option_bind].
  rewrite (proj2 (Z.eqb_neq q 0)) by lia.
  destruct (st_ok d L q n 0 Hok ltac:(lia) ltac:(lia)) as (d1 & E1 & Hok1 & N1).
  rewrite E1. cbn [mbind option_bind]. change (0 =? 0) with true.
  cbn [mbind option_bind].
  pose proof (λ i' j', ld_st d q n 0 d1 i' j' E1 (or_intror eq_refl)) as R1.
  rewrite (R1 0 Head (or_introl eq_refl)), decide_False, Hh by (unfold Head, n; lia).
  cbn [mbind option_bind]. rewrite (proj2 (Z.eqb_neq a t)) by lia.
  cbn [mbind option_bind].
  rewrite (R1 0 Tail (or_intror eq_refl)), decide_False, Ht by lia.
  cbn [mbind option_bind]. rewrite (Z.eqb_refl t).
  destruct (st_ok d1 L 0 Tail q Hok1 ltac:(lia) ltac:(lia)) as (d2 & E2 & Hok2 & N2).
  rewrite E2. cbn [mbind option_bind].
  pose proof (λ i' j', ld_st d1 0 Tail q d2 i' j' E2 (or_intror eq_refl)) as R2.
  change (Head =? Head) with true. cbv iota.
  destruct (st_ok d2 L t p 0 Hok2 ltac:(lia) ltac:(lia)) as (d3 & E3 & Hok3 & N3).
  rewrite E3. cbn [mbind option_bind].
  pose proof (λ i' j', ld_st d2 t p 0 d3 i' j' E3 (or_introl eq_refl)) as R3.
  assert (ld d3 0 Head = Some a) as Hh3.
  { rewrite (R3 0 Head (or_introl eq_refl)), decide_False by lia.
    rewrite (R2 0 Head (or_introl eq_refl)), decide_False by (unfold Head, Tail; lia).
    rewrite (R1 0 Head (or_introl eq_refl)), decide_False by (unfold Head, n; lia).
    done. }
  rewrite Hh3. cbn [mbind option_bind].
  destruct (st_ok d3 L t n a Hok3 ltac:(lia) ltac:(lia)) as (d4 & E4 & Hok4 & N4).
  rewrite E4. cbn [mbind option_bind].
  pose proof (λ i' j', ld_st d3 t n a d4 i' j' E4 (or_intror eq_refl)) as R4.
  assert (ld d4 0 Head = Some a) as Hh4.
  { rewrite (R4 0 Head (or_introl eq_refl)), decide_False by lia. done. }
  rewrite Hh4. cbn [mbind option_bind].
  rewrite (proj2 (Z.eqb_neq a 0)) by lia. cbn [mbind option_bind].
  destruct (st_ok d4 L a p t Hok4 ltac:(lia) ltac:(lia)) as (d5 & E5 & Hok5 & N5).
  rewrite E5. cbn [mbind option_bind].
  pose proof (λ i' j', ld_st d4 a p t d5 i' j' E5 (or_introl eq_refl)) as R5.
  destruct (st_ok d5 L 0 Head t Hok5 ltac:(lia) ltac:(lia)) as (d6 & E6 & Hok6 & N6).
  rewrite E6.
  pose proof (λ i' j', ld_st d5 0 Head t d6 i' j' E6 (or_introl eq_refl)) as R6.
  exists d6. split; [done |]. split; [done |]. split; [congruence |].
  unfold dll. rewrite last_cons_last, (last_cons_last a l t), <- (last_cons_last a l 0).
  fold q.
  assert (seg d6 t (a :: l) 0) as Hseg6.
  { apply (seg_change d d6 0 t (a :: l) t 0 Hndl Hl).
  + intros x Hx. destruct (Hin x Hx) as [Hxt Hxr]. cbn [List.hd].
    rewrite (R6 x p (or_introl eq_refl)), decide_False by lia.
    rewrite (R5 x p (or_introl eq_refl)).
    destruct (decide (x = a)) as [-> | Hxa].
    * by rewrite decide_True.
    * rewrite decide_False by (intros [? ?]; done).
      rewrite (R4 x p (or_introl eq_refl)), decide_False by lia.
      rewrite (R3 x p (or_introl eq_refl)), decide_False by lia.
      rewrite (R2 x p (or_introl eq_refl)), decide_False by lia.
      rewrite (R1 x p (or_introl eq_refl)), decide_False by (unfold p, n; lia).
      done.
  + intros x Hx. destruct (Hin x Hx) as [Hxt Hxr]. fold q.
    rewrite (R6 x n (or_intror eq_refl)), decide_False by lia.
    rewrite (R5 x n (or_intror eq_refl)), decide_False by (unfold p, n; lia).
    rewrite (R4 x n (or_intror eq_refl)), decide_False by lia.
    rewrite (R3 x n (or_intror eq_refl)), decide_False by lia.
    rewrite (R2 x n (or_intror eq_refl)), decide_False by lia.
    rewrite (R1 x n (or_intror eq_refl)).
    destruct (decide (x = q)) as [-> | Hxq].
    * by rewrite decide_True.
    * rewrite decide_False by (intros [? ?]; done). done.
}
  change (seg d6 0 (t :: a :: l) 0)
    with (ld d6 t p = Some 0 ∧ ld d6 t n = Some a ∧ seg d6 t (a :: l) 0).
  cbn [List.hd]. split_and!; [| | | | exact Hseg6].
  - rewrite (R6 0 Head (or_introl eq_refl)), decide_True by done. done.
  - rewrite (R6 0 Tail (or_intror eq_refl)), decide_False by (unfold Head, Tail; lia).
    rewrite (R5 0 Tail (or_intror eq_refl)), decide_False by lia.
    rewrite (R4 0 Tail (or_intror eq_refl)), decide_False by lia.
    rewrite (R3 0 Tail (or_intror eq_refl)), decide_False by lia.
    rewrite (R2 0 Tail (or_intror eq_refl)), decide_True by done. done.
  - rewrite (R6 t p (or_introl eq_refl)), decide_False by lia.
    rewrite (R5 t p (or_introl eq_refl)), decide_False by lia.
    rewrite (R4 t p (or_introl eq_refl)), decide_False by (unfold p, n; lia).
    rewrite (R3 t p (or_introl eq_refl)), decide_True by done. done.
  - rewrite (R6 t n (or_intror eq_refl)), decide_False by lia.
    rewrite (R5 t n (or_intror eq_refl)), decide_False by lia.
    rewrite (R4 t n (or_intror eq_refl)), decide_True by done. done.
Qed.

Lemma seg_last_next d prev (a : Z) l next :
  seg d prev (a :: l) next → ld d (List.last (a :: l) 0) n = Some next.
Proof.
  revert prev a. induction l as [| y l IH]; intros prev a (Hp & Hn & Hseg);
    [done |].
  rewrite last_cons_last, (last_cons_last y l a), <- (last_cons_last y l 0).
  by apply (IH a y).
Qed.

(** The link writes of [put] for a fresh slot [new], on a list [o] that
    does not contain it. *)
Lemma fresh_links_dll d o new (empty : bool) :
  links_ok d new → dll d o → NoDup o → (∀ x, x ∈ o → 1 <= x < new) →
  (empty = true ↔ o = []) → 1 <= new →
  ∃ d',
    (∀ A (K : links → option A),
       (d1 ← (if empty then st d 0 Tail new
              else h ← ld d 0 Head; st d h p new);
        h ← ld d1 0 Head;
        d2 ← assign d1 new (0, h);
        h ← ld d2 0 Head;
        d3 ← (if h =? 0 then Some d2 else h' ← ld d2 0 Head; st d2 h' p new);
        d4 ← st d3 0 Head new;
        tl ← ld d4 0 Tail;
        d5 ← (if tl =? 0 then st d4 0 Tail new else Some d4);
        K d5) = K d') ∧
    links_ok d' new ∧ length d' = length d ∧ dll d' (new :: o).
Proof.
  intros Hok (Hh & Ht & Hseg) Hnd Hrange Hempty Hnew.
  destruct o as [| a l].
  - rewrite (proj2 Hempty eq_refl). simpl in Hh, Ht.
    destruct (st_ok d new 0 Tail new Hok ltac:(lia) ltac:(lia)) as (d1 & E1 & Hok1 & N1).
    rewrite E1. cbn [mbind option_bind].
    pose proof (λ i' j', ld_st d 0 Tail new d1 i' j' E1 (or_intror eq_refl)) as R1.
    assert (ld d1 0 Head = Some 0) as Hh1.
    { rewrite (R1 0 Head (or_introl eq_refl)), decide_False by (unfold Head, Tail; lia).
      done. }
    rewrite Hh1. cbn [mbind option_bind].
    destruct (assign_row_ok d1 new new 0 Hok1 ltac:(lia) ltac:(lia))
      as (d2 & E2 & Hok2 & N2).
    rewrite E2. cbn [mbind option_bind].
    pose proof (λ i' j', ld_assign d1 new 0 0 d2 i' j' E2) as R2.
    assert (ld d2 0 Head = Some 0) as Hh2.
    { rewrite R2, decide_False by lia. done. }
    rewrite Hh2. cbn [mbind option_bind]. change (0 =? 0) with true.
    cbn [mbind option_bind].
    destruct (st_ok d2 new 0 Head new Hok2 ltac:(lia) ltac:(lia)) as (d4 & E4 & Hok4 & N4).
    rewrite E4. cbn [mbind option_bind].
    pose proof (λ i' j', ld_st d2 0 Head new d4 i' j' E4 (or_introl eq_refl)) as R4.
    assert (ld d4 0 Tail = Some new) as Ht4.
    { rewrite (R4 0 Tail (or_intror eq_refl)), decide_False by (unfold Head, Tail; lia).
      rewrite R2, decide_False by lia.
      rewrite (R1 0 Tail (or_intror eq_refl)), decide_True by done. done. }
    rewrite Ht4. cbn [mbind option_bind].
    rewrite (proj2 (Z.eqb_neq new 0)) by lia.
    exists d4. split; [done |]. split; [done |]. split; [congruence |].
    unfold dll. cbn [List.hd List.last seg]. split_and!; try done.
    + rewrite (R4 0 Head (or_introl eq_refl)), decide_True by done. done.
    + rewrite (R4 new p (or_introl eq_refl)), decide_False by lia.
      rewrite R2, decide_True by done. done.
    + rewrite (R4 new n (or_intror eq_refl)), decide_False by lia.
      rewrite R2, decide_True by done. done.
  - assert (empty = false) as ->.
    { destruct empty; [| done]. discriminate (proj1 Hempty eq_refl). }
    cbn [List.hd] in Hh. set (q := List.last (a :: l) 0) in *.
    assert (∀ x, x ∈ a :: l → x ≠ new ∧ 1 <= x <= new) as Hin.
    { intros x Hx. specialize (Hrange x Hx). lia. }
    destruct (Hin a ltac:(apply list_elem_of_here)) as [Han Har].
    destruct (Hin q ltac:(apply last_elem_of)) as [Hqn Hqr].
    rewrite Hh. cbn [mbind option_bind].
    destruct (st_ok d new a p new Hok ltac:(lia) ltac:(lia)) as (d1 & E1 & Hok1 & N1).
    rewrite E1. cbn [mbind option_bind].
    pose proof (λ i' j', ld_st d a p new d1 i' j' E1 (or_introl eq_refl)) as R1.
    assert (ld d1 0 Head = Some a) as Hh1.
    { rewrite (R1 0 Head (or_introl eq_refl)), decide_False by lia. done. }
    rewrite Hh1. cbn [mbind option_bind].
    destruct (assign_row_ok d1 new new a Hok1 ltac:(lia) ltac:(lia))
      as (d2 & E2 & Hok2 & N2).
    rewrite E2. cbn [mbind option_bind].
    pose proof (λ i' j', ld_assign d1 new 0 a d2 i' j' E2) as R2.
    assert (ld d2 0 Head = Some a) as Hh2.
    { rewrite R2, decide_False by lia. done. }
    rewrite Hh2. cbn [mbind option_bind].
    rewrite (proj2 (Z.eqb_neq a 0)) by lia. cbn [mbind option_bind].
    destruct (st_ok d2 new a p new Hok2 ltac:(lia) ltac:(lia)) as (d3 & E3 & Hok3 & N3).
    rewrite E3. cbn [mbind option_bind].
    pose proof (λ i' j', ld_st d2 a p new d3 i' j' E3 (or_introl eq_refl)) as R3.
    destruct (st_ok d3 new 0 Head new Hok3 ltac:(lia) ltac:(lia)) as (d4 & E4 & Hok4 & N4).
    rewrite E4. cbn [mbind option_bind].
    pose proof (λ i' j', ld_st d3 0 Head new d4 i' j' E4 (or_introl eq_refl)) as R4.
    assert (ld d4 0 Tail = Some q) as Ht4.
    { rewrite (R4 0 Tail (or_intror eq_refl)), decide_False by (unfold Head, Tail; lia).
      rewrite (R3 0 Tail (or_intror eq_refl)), decide_False by lia.
      rewrite R2, decide_False by lia.
      rewrite (R1 0 Tail (or_intror eq_refl)), decide_False by lia. done. }
    rewrite Ht4. cbn [mbind option_bind].
    rewrite (proj2 (Z.eqb_neq q 0)) by lia.
    exists d4. split; [done |]. split; [done |]. split; [congruence |].
    assert (seg d4 new (a :: l) 0) as Hseg4.
    { apply (seg_change d d4 0 new (a :: l) 0 0 Hnd Hseg).
      + intros x Hx. destruct (Hin x Hx) as [Hxn Hxr]. cbn [List.hd].
        rewrite (R4 x p (or_introl eq_refl)), decide_False by lia.
        rewrite (R3 x p (or_introl eq_refl)).
        destruct (decide (x = a)) as [-> | Hxa].
        * by rewrite decide_True.
        * rewrite decide_False by (intros [? ?]; done).
          rewrite R2, decide_False by lia.
          rewrite (R1 x p (or_introl eq_refl)), decide_False by lia. done.
      + intros x Hx. destruct (Hin x Hx) as [Hxn Hxr]. fold q.
        rewrite (R4 x n (or_intror eq_refl)), decide_False by lia.
        rewrite (R3 x n (or_intror eq_refl)), decide_False by (unfold p, n; lia).
        rewrite R2, decide_False by lia.
        rewrite (R1 x n (or_intror eq_refl)), decide_False by (unfold p, n; lia).
        destruct (decide (x = q)) as [-> | Hxq]; [| done].
        by apply (seg_last_next d 0 a l 0). }
    unfold dll.
    rewrite last_cons_last, (last_cons_last a l new), <- (last_cons_last a l 0).
    fold q.
    change (seg d4 0 (new :: a :: l) 0)
      with (ld d4 new p = Some 0 ∧ ld d4 new n = Some a ∧ seg d4 new (a :: l) 0).
    cbn [List.hd]. split_and!; [| done | | | done].
    + rewrite (R4 0 Head (or_introl eq_refl)), decide_True by done. done.
    + rewrite (R4 new p (or_introl eq_refl)), decide_False by lia.
      rewrite (R3 new p (or_introl eq_refl)), decide_False by lia.
      rewrite R2, decide_True by done. done.
    + rewrite (R4 new n (or_intror eq_refl)), decide_False by lia.
      rewrite (R3 new n (or_intror eq_refl)), decide_False by lia.
      rewrite R2, decide_True by done. done.
Qed.

Lemma holds_frame c c' o ns :
  (∀ x, x ∈ o → m c' !! Z.to_nat (x - 1) = m c !! Z.to_nat (x - 1)) →
  holds c o ns → holds c' o ns.
Proof.
  unfold holds. intros Hsame H. induction H as [| x nd o ns Hx H IH];
    constructor.
  - rewrite Hsame; [done | apply list_elem_of_here].
  - apply IH. intros y Hy. apply Hsame. by apply list_elem_of_further.
Qed.

(** A new key put into a cache with a free slot. *)
Lemma put_new_fresh c o ns key val e cb :
  lru c o → holds c o ns → hmap c !! key = None →
  last c ≠ Z.of_nat (length (m c)) →
  ∃ c', put c key val e cb = Some (c', [], 1) ∧
        lru c' (last c + 1 :: o) ∧
        holds c' (last c + 1 :: o) (Node key val e :: ns) ∧
        length (m c') = length (m c).
Proof.
  intros [Hwf Hdll Hnd Hrange Hlen Hsize Hback] Hholds Hkey Hfree.
  pose proof (wf_last c Hwf) as Hl. pose proof (wf_cap c Hwf) as Hc.
  pose proof (wf_dlnk c Hwf) as Hd.
  assert (links_ok (dlnk c) (last c + 1)) as Hok.
  { eapply links_ok_mono; [apply Hwf |]. lia. }
  destruct (fresh_links_dll (dlnk c) o (last c + 1)
              (Z.of_nat (size (hmap c)) <=? 0) Hok Hdll Hnd)
    as (d' & Hchain & Hok' & Hlen' & Hdll'); [| | lia |].
  { intros x Hx. specialize (Hrange x Hx). lia. }
  { rewrite Hsize. destruct o; simpl; split; (done || lia). }
  destruct (index_in_range (m c) (last c)) as [x0 Hx0]; [lia |].
  assert (put c key val e cb =
            Some (Cache d' (<[Z.to_nat (last c) := Node key val e]> (m c))
                        (<[key := last c + 1]> (hmap c)) (last c + 1), [], 1))
    as Hput.
  { unfold put. rewrite Hkey.
    rewrite (uint16_small (Z.of_nat _)) by lia.
    rewrite (proj2 (Z.eqb_neq _ _) Hfree).
    rewrite (uint16_small (last c + 1)) by lia.
    replace (last c + 1 - 1) with (last c) by lia.
    rewrite (uint16_small (last c)) by lia.
    rewrite (assign_in_range (m c)) by lia. rewrite Hx0.
    cbn [mbind option_bind].
    apply (Hchain _ (λ d, Some (Cache d _ _ _, [], 1))). }
  destruct (put_inv _ _ _ _ _ _ _ _ Hwf Hput) as (Hwf' & _).
  eexists. split; [exact Hput |].
  assert (∀ x, x ∈ o →
            <[Z.to_nat (last c) := Node key val e]> (m c) !! Z.to_nat (x - 1) =
            m c !! Z.to_nat (x - 1)) as Hsame.
  { intros x Hx. specialize (Hrange x Hx).
    apply list_lookup_insert_ne. lia. }
  split; [| split; [| simpl; by rewrite length_insert]].
  - constructor; simpl; try done.
    + apply NoDup_cons. split; [| done].
      intros Hin. specialize (Hrange _ Hin). lia.
    + intros x [-> | Hx]%elem_of_cons; [lia |]. specialize (Hrange x Hx). lia.
    + lia.
    + rewrite map_size_insert_None by done. lia.
    + intros x nd [-> | Hx]%elem_of_cons.
      * replace (last c + 1 - 1) with (last c) by lia.
        rewrite list_lookup_insert_eq by lia. intros [= <-]. simpl.
        apply lookup_insert_eq.
      * rewrite Hsame by done. intros Hnd'.
        pose proof (Hback x nd Hx Hnd') as Hb.
        rewrite lookup_insert_ne; [done |]. intros Heq. rewrite <- Heq in Hb.
        congruence.
  - constructor.
    + simpl. replace (last c + 1 - 1) with (last c) by lia.
      apply list_lookup_insert_eq. lia.
    + eapply holds_frame; [| exact Hholds]. exact Hsame.
Qed.

(** A new key put into a full cache of two or more slots: the tail slot is
    recycled and becomes the head. *)
Lemma put_new_evict c o ns key val e cb :
  lru c o → holds c o ns → hmap c !! key = None →
  last c = Z.of_nat (length (m c)) → 2 <= last c →
  ∃ l t ns' tail c',
    o = l ++ [t] ∧ ns = ns' ++ [tail] ∧
    put c key val e cb =
      Some (c', if cb && gt0 (expireAt tail) then [(k tail, v tail)] else [], 1) ∧
    lru c' (t :: l) ∧ holds c' (t :: l) (Node key val e :: ns') ∧
    length (m c') = length (m c).
Proof.
  intros [Hwf Hdll Hnd Hrange Hlen Hsize Hback] Hholds Hkey Hfull Hcap.
  pose proof (wf_last c Hwf) as Hl. pose proof (wf_cap c Hwf) as Hc.
  assert (o ≠ []) as Hne by (intros ->; simpl in Hlen; lia).
  destruct (List.exists_last Hne) as (l & t & ->).
  assert (l ≠ []) as Hlne.
  { intros ->. simpl in Hlen. lia. }
  apply Forall2_app_inv_l in Hholds as (ns' & ns1 & Hhl & Hht & ->).
  apply Forall2_cons_inv_l in Hht as (tail & ns2 & Htail & Hnil & ->).
  apply Forall2_nil_inv_l in Hnil as ->.
  assert (1 <= t <= last c) as Hrt.
  { apply Hrange. apply elem_of_app. right. apply list_elem_of_here. }
  destruct (adjust_tail_to_head (dlnk c) (last c) l t Tail (wf_links c Hwf) Hlne Hnd
              Hrange Hdll) as (d' & Eadj & Hok' & Hlen' & Hdll').
  destruct Hdll as (_ & Ht & _). rewrite last_app_one in Ht.
  assert (put c key val e cb =
            Some (Cache d' (<[Z.to_nat (t - 1) := Node key val e]> (m c))
                        (<[key := t]> (base.delete (k tail) (hmap c))) (last c),
                  if cb && gt0 (expireAt tail) then [(k tail, v tail)] else [], 1))
    as Hput.
  { unfold put. rewrite Hkey.
    rewrite (uint16_small (Z.of_nat _)) by lia.
    rewrite (proj2 (Z.eqb_eq _ _) Hfull). rewrite Ht. cbn [mbind option_bind].
    rewrite (uint16_small (t - 1)) by lia.
    rewrite index_lookup by lia. rewrite Htail. cbn [mbind option_bind].
    rewrite assign_in_range by lia. cbn [mbind option_bind dlnk].
    rewrite Ht. cbn [mbind option_bind]. unfold adjust. cbn [dlnk m hmap last].
    rewrite Eadj. done. }
  destruct (put_inv _ _ _ _ _ _ _ _ Hwf Hput) as (Hwf' & _).
  apply NoDup_app in Hnd as (Hndl & Hdisj & _).
  assert (∀ x, x ∈ l → x ≠ t ∧ 1 <= x <= last c) as Hin.
  { intros x Hx. split; [| apply Hrange, elem_of_app; by left].
    intros ->. apply (Hdisj t Hx), list_elem_of_here. }
  assert (∀ x, x ∈ l →
            <[Z.to_nat (t - 1) := Node key val e]> (m c) !! Z.to_nat (x - 1) =
            m c !! Z.to_nat (x - 1)) as Hsame.
  { intros x Hx. destruct (Hin x Hx). apply list_lookup_insert_ne. lia. }
  assert (hmap c !! k tail = Some t) as Hbt.
  { apply (Hback t tail); [| done]. apply elem_of_app. right. apply list_elem_of_here. }
  exists l, t, ns', tail. eexists. split; [done |]. split; [done |].
  split; [exact Hput |].
  split; [| split; [| simpl; by rewrite length_insert]].
  - constructor; simpl; try done.
    + apply NoDup_cons. split; [| done]. intros Hx. by destruct (Hin t Hx).
    + intros x [-> | Hx]%elem_of_cons; [done |]. by destruct (Hin x Hx).
    + rewrite length_app in Hlen. simpl in Hlen. lia.
    + rewrite map_size_insert_None by (by rewrite lookup_delete_ne by congruence).
      rewrite map_size_delete_Some by (by rewrite Hbt).
      rewrite Hsize, length_app. simpl. lia.
    + intros x nd [-> | Hx]%elem_of_cons.
      * rewrite list_lookup_insert_eq by lia. intros [= <-]. simpl.
        apply lookup_insert_eq.
      * rewrite Hsame by done. intros Hnd'. destruct (Hin x Hx) as [Hxt _].
        assert (hmap c !! k nd = Some x) as Hb.
        { apply (Hback x nd); [| done]. apply elem_of_app. by left. }
        rewrite lookup_insert_ne by congruence.
        rewrite lookup_delete_ne by congruence. done.
  - constructor.
    + apply list_lookup_insert_eq. lia.
    + eapply holds_frame; [| exact Hhl]. exact Hsame.
Qed.

Lemma lru_Create cap : 0 <= cap < 65535 → lru (Create cap) [].
Proof.
  intros Hcap. pose proof (wf_Create cap Hcap) as Hwf.
  constructor; try done.
  - destruct (ld_ok _ _ 0 Head (wf_links _ Hwf) ltac:(simpl; lia)) as (h & Hh & Hr).
    destruct (ld_ok _ _ 0 Tail (wf_links _ Hwf) ltac:(simpl; lia)) as (t & Ht & Hr').
    simpl in Hr, Hr'. unfold dll. simpl.
    replace h with 0 in Hh by lia. replace t with 0 in Ht by lia. done.
  - constructor.
  - intros x Hx. by apply elem_of_nil in Hx.
  - intros x nd Hx. by apply elem_of_nil in Hx.
Qed.

Lemma put_keeps_absent c key val e cb c' evs r key' :
  wf c → put c key val e cb = Some (c', evs, r) → key' ≠ key →
  hmap c !! key' = None → hmap c' !! key' = None.
Proof.
  intros Hwf Hput Hne Habs.
  destruct (put_inv _ _ _ _ _ _ _ _ Hwf Hput) as (Hwf' & _ & _ & Ho & _).
  apply (slot_None_wf c' key' Hwf').
  destruct (Ho key' Hne) as [-> | ->]; [| done].
  unfold slot. by rewrite Habs.
Qed.

(** Distinct new keys with positive stamps put one after the other: the
    nodes in the list, oldest first, are the last [cap] of all the nodes
    seen, and the callback was called with those that came before, in
    order. *)
Lemma putAll_lru kvs cb :
  ∀ c o ns,
    lru c o → holds c o ns → 2 <= Z.of_nat (length (m c)) →
    Forall (λ nd, gt0 (expireAt nd) = true) ns →
    NoDup (kvs.*1.*1) →
    Forall (λ kv : string * Value * Z, hmap c !! kv.1.1 = None ∧ 0 < kv.2) kvs →
    ∃ c' o' ns' evs,
      putAll c kvs cb = Some (c', evs) ∧ lru c' o' ∧ holds c' o' ns' ∧
      length (m c') = length (m c) ∧
      Forall (λ nd, gt0 (expireAt nd) = true) ns' ∧
      let chron := rev ns ++ (node_of <$> kvs) in
      let over := (length chron - length (m c))%nat in
      rev ns' = drop over chron ∧
      evs = if cb then event_of <$> take over chron else [].
Proof.
  induction kvs as [| [[key val] e] kvs IH]; intros c o ns Hlru Hholds Hcap Hlive Hnd Hkvs.
  - exists c, o, ns, []. simpl. rewrite app_nil_r.
    assert (length (rev ns) - length (m c) = 0)%nat as ->.
    { rewrite length_rev. pose proof (Forall2_length _ _ _ Hholds) as Hlen.
      pose proof (lru_length _ _ Hlru). pose proof (wf_last _ (lru_wf _ _ Hlru)). lia. }
    simpl. split_and!; try done. by destruct cb.
  - apply Forall_cons in Hkvs as [[Hkey He] Hkvs]. simpl in Hkey, He.
    cbn [fmap list_fmap] in Hnd. apply NoDup_cons in Hnd as [Hfresh Hnd].
    pose proof (Forall2_length _ _ _ Hholds) as Hlen.
    pose proof (lru_length _ _ Hlru) as Hlast.
    pose proof (wf_last _ (lru_wf _ _ Hlru)) as Hwl.
    assert (gt0 e = true) as Hge by (by apply gt0_spec).
    assert (∀ c1 evs1 r, put c key val e cb = Some (c1, evs1, r) →
              Forall (λ kv : string * Value * Z, hmap c1 !! kv.1.1 = None ∧ 0 < kv.2) kvs)
      as Hkvs1.
    { intros c1 evs1 r Hput. apply Forall_forall. intros kv Hkv.
      pose proof (proj1 (Forall_forall _ _) Hkvs kv Hkv) as [Habs Hpos].
      split; [| done].
      eapply put_keeps_absent; [apply Hlru | exact Hput | | done].
      intros Heq. apply Hfresh. rewrite <- Heq.
      apply list_elem_of_fmap. exists kv.1. split; [done |].
      apply list_elem_of_fmap. by exists kv. }
    destruct (decide (last c = Z.of_nat (length (m c)))) as [Hfull | Hfree].
    + destruct (put_new_evict c o ns key val e cb Hlru Hholds Hkey Hfull ltac:(lia))
        as (l & t & ns1 & tail & c1 & -> & -> & Hput & Hlru1 & Hholds1 & Hm1).
      apply Forall_app in Hlive as [Hlive1 Htail].
      apply Forall_cons in Htail as [Htail _].
      destruct (IH c1 (t :: l) (Node key val e :: ns1) Hlru1 Hholds1 ltac:(lia))
        as (c' & o' & ns' & evs & Hrun & Hlru' & Hholds' & Hm' & Hlive' & Hrev & Hevs);
        [by constructor | done | by eapply Hkvs1 |].
      exists c', o', ns'. eexists. cbn [putAll]. rewrite Hput. cbn [mbind option_bind].
      rewrite Hrun. cbn [mbind option_bind].
      split; [done |]. split; [done |]. split; [done |]. split; [congruence |].
      split; [done |]. cbn zeta in *. rewrite Hm1 in Hrev, Hevs.
      rewrite rev_app_distr. cbn [rev app fmap list_fmap].
      cbn [rev] in Hrev, Hevs. rewrite <- app_assoc in Hrev, Hevs.
      cbn [app] in Hrev, Hevs.
      change (Node key val e) with (node_of (key, val, e)) in Hrev, Hevs.
      set (chron1 := rev ns1 ++ node_of (key, val, e) :: (node_of <$> kvs)) in *.
      assert (length (m c) <= length chron1)%nat as Hlong.
      { unfold chron1. rewrite length_app, length_rev. cbn [length].
        rewrite (length_app l), (length_app ns1) in Hlen.
        rewrite (length_app l) in Hlast. cbn [length] in Hlen, Hlast. lia. }
      replace (length (tail :: chron1) - length (m c))%nat
        with (S (length chron1 - length (m c))) by (simpl; lia).
      cbn [drop take]. split; [exact Hrev |].
      rewrite Hevs, Htail. destruct cb; done.
    + destruct (put_new_fresh c o ns key val e cb Hlru Hholds Hkey Hfree)
        as (c1 & Hput & Hlru1 & Hholds1 & Hm1).
      destruct (IH c1 (last c + 1 :: o) (Node key val e :: ns) Hlru1 Hholds1 ltac:(lia))
        as (c' & o' & ns' & evs & Hrun & Hlru' & Hholds' & Hm' & Hlive' & Hrev & Hevs);
        [by constructor | done | by eapply Hkvs1 |].
      exists c', o', ns', evs. cbn [putAll]. rewrite Hput. cbn [mbind option_bind].
      rewrite Hrun. cbn [mbind option_bind].
      split; [done |]. split; [done |]. split; [done |]. split; [congruence |].
      split; [done |]. cbn zeta in *. rewrite Hm1 in Hrev, Hevs.
      cbn [rev fmap list_fmap] in *. rewrite <- app_assoc in Hrev, Hevs.
      done.
Qed.

(** [walk] along a run of live slots visits their nodes in order. *)
Lemma walk_from_seg c o :
  ∀ fuel prev ns acc,
    seg (dlnk c) prev o 0 → holds c o ns →
    (∀ x, x ∈ o → 1 <= x <= 65535) →
    Forall (λ nd, gt0 (expireAt nd) = true) ns →
    (length o <= fuel)%nat →
    walk_from fuel c (List.hd 0 o) entries_walker acc =
      Some (Some (acc ++ (entry_of <$> ns))).
Proof.
  induction o as [| x o IH]; intros fuel prev ns acc Hseg Hholds Hrange Hlive Hfuel.
  - apply Forall2_nil_inv_l in Hholds as ->. simpl. rewrite app_nil_r.
    by destruct fuel.
  - apply Forall2_cons_inv_l in Hholds as (nd & ns' & Hnd & Hholds & ->).
    apply Forall_cons in Hlive as [Hgt Hlive].
    destruct Hseg as (_ & Hnext & Hseg).
    assert (1 <= x <= 65535) as Hx by (apply Hrange, list_elem_of_here).
    destruct fuel as [| fuel]; [simpl in Hfuel; lia |].
    cbn [List.hd walk_from]. rewrite (proj2 (Z.eqb_neq x 0)) by lia.
    rewrite (uint16_small (x - 1)) by lia. rewrite index_lookup by lia.
    rewrite Hnd. cbn [mbind option_bind]. rewrite Hgt.
    unfold entries_walker at 1. rewrite Hnext. cbn [mbind option_bind].
    rewrite (IH fuel x ns' _ Hseg Hholds); [| | done | simpl in Hfuel; lia].
    + rewrite <- app_assoc. done.
    + intros y Hy. by apply Hrange, list_elem_of_further.
Qed.

Lemma entries_lru fuel c o ns :
  lru c o → holds c o ns →
  Forall (λ nd, gt0 (expireAt nd) = true) ns →
  (length o <= fuel)%nat →
  entries fuel c = Some (Some (entry_of <$> ns)).
Proof.
  intros Hlru Hholds Hlive Hfuel. unfold entries, walk.
  destruct (lru_dll _ _ Hlru) as (Hh & _ & Hseg). rewrite Hh.
  cbn [mbind option_bind].
  apply (walk_from_seg c o fuel 0 ns [] Hseg Hholds); try done.
  intros x Hx. pose proof (lru_range _ _ Hlru x Hx).
  pose proof (wf_last _ (lru_wf _ _ Hlru)). pose proof (wf_cap _ (lru_wf _ _ Hlru)).
  lia.
Qed.

Lemma rev_drop_take {A} (l : list A) c :
  rev (drop (length l - c) l) = take c (rev l).
Proof.
  rewrite List.firstn_rev. done.
Qed.

Lemma fmap_rev {A B} (f : A → B) (l : list A) : f <$> rev l = rev (f <$> l).
Proof.
  induction l as [| x l IH]; [done |]. simpl. by rewrite fmap_app, IH.
Qed.

(** X3. Bounded capacity for every tier of two or more slots: after any number
    of distinct keys with positive stamps have been put into a new cache of
    capacity [cap], the slices have their initial sizes, the walk visits the
    last [cap] entries put, most recent first, and the callback was called
    once for each entry put before those, in the order they were put. *)
Theorem distinct_puts_bounded cap kvs cb :
  2 <= cap < 65535 → NoDup (kvs.*1.*1) →
  Forall (λ kv : string * Value * Z, 0 < kv.2) kvs →
  ∃ c' evs,
    putAll (Create cap) kvs cb = Some (c', evs) ∧
    Z.of_nat (length (m c')) = cap ∧ Z.of_nat (length (dlnk c')) = cap + 1 ∧
    entries (Z.to_nat cap) c' =
      Some (Some (take (Z.to_nat cap) (rev ((λ kv, (kv.1.1, kv.1.2, kv.2)) <$> kvs)))) ∧
    evs = if cb
          then take (length kvs - Z.to_nat cap)
                    ((λ kv : string * Value * Z, (kv.1.1, kv.1.2)) <$> kvs)
          else [].
Proof.
  intros Hcap Hnd Hpos.
  assert (length (m (Create cap)) = Z.to_nat cap) as Hm0.
  { simpl. by rewrite length_replicate. }
  destruct (putAll_lru kvs cb (Create cap) [] [])
    as (c' & o' & ns' & evs & Hrun & Hlru' & Hholds' & Hm' & Hlive' & Hrev & Hevs);
    [apply lru_Create; lia | constructor | rewrite Hm0; lia | constructor | done | |].
  { eapply Forall_impl; [exact Hpos |]. intros kv Hkv. split; [| done].
    simpl. apply lookup_empty. }
  cbn zeta in Hrev, Hevs. cbn [rev app] in Hrev, Hevs.
  rewrite Hm0, length_fmap in Hrev, Hevs.
  exists c', evs. split; [done |]. split; [lia |].
  split; [rewrite (wf_dlnk _ (lru_wf _ _ Hlru')); lia |].
  assert (ns' = take (Z.to_nat cap) (rev (node_of <$> kvs))) as Hns.
  { rewrite <- (rev_involutive ns'), Hrev.
    rewrite <- (length_fmap node_of kvs). apply rev_drop_take. }
  split.
  - rewrite (entries_lru _ c' o' ns' Hlru' Hholds' Hlive').
    + do 2 f_equal. rewrite Hns, fmap_take, fmap_rev, <- list_fmap_compose. done.
    + pose proof (lru_length _ _ Hlru'). pose proof (wf_last _ (lru_wf _ _ Hlru')).
      lia.
  - rewrite Hevs. destruct cb; [| done].
    rewrite <- fmap_take, <- list_fmap_compose, fmap_take. done.
Qed.

Lemma written_store_wf : wf_store written_store.
Proof.
  apply (SetWithExpiration_wf (newLRU2Cache scenario_options) "a" (Some "1")
           10000000 0 written_store []); [| vm_compute; reflexivity].
  apply wf_newLRU2Cache, scenario_options_ok.
Qed.

Lemma promoted_store_wf : wf_store promoted_store.
Proof.
  apply (Get_wf written_store "a" 0 0 (Some "1") true promoted_store []);
    [apply written_store_wf | vm_compute; reflexivity].
Qed.



Lemma unknown_key_is_a_miss_witness :
  Get written_store "b" 0 0 = Some (None, false, written_store, []) ∧
  Delete written_store "b" = Some (written_store, false, []).
Proof.
  apply (unknown_key_is_a_miss written_store "b" 0 0).
  - apply written_store_wf.
  - vm_compute. reflexivity.
  - vm_compute. reflexivity.
Defined.

Lemma Delete_twice_and_other_keys_witness :
  Delete emptied_store "a" = Some (emptied_store, false, []) ∧
  (∀ key' level, key' ≠ "a" →
     present emptied_store key' level = present written_store key' level) ∧
  shape emptied_store = shape written_store.
Proof.
  apply (Delete_twice_and_other_keys written_store "a" emptied_store true
           [("a", Some "1")]).
  - apply written_store_wf.
  - vm_compute. reflexivity.
Defined.

Lemma overwrite_in_place_witness :
  ∃ s',
    SetWithExpiration written_store "a" (Some "9") 10000000 0 = Some (s', []) ∧
    wf_store s' ∧
    stored s' "a" 0 =
      Some (Node "a" (Some "9")
              (if gt0 10000000 then plus64 0 10000000 else 0)) ∧
    stored s' "a" 1 = stored written_store "a" 1 ∧
    (∀ key' level, key' ≠ "a" →
       stored s' key' level = stored written_store key' level).
Proof.
  apply (overwrite_in_place written_store "a" (Some "9") 10000000 0).
  - apply written_store_wf.
  - vm_compute. eauto.
Defined.

Lemma tier2_read_changes_nothing_witness :
  ∃ s',
    Get promoted_store "a" 0 0 =
      Some (v (Node "a" (Some "1") 10000000), true, s', []) ∧
    wf_store s' ∧
    (∀ key' level, stored s' key' level = stored promoted_store key' level).
Proof.
  apply (tier2_read_changes_nothing promoted_store "a" 0 0
           (Node "a" (Some "1") 10000000)).
  - apply promoted_store_wf.
  - vm_compute. reflexivity.
  - vm_compute. reflexivity.
  - vm_compute. reflexivity.
  - vm_compute. reflexivity.
Defined.

Lemma Get_promotes_or_panics_witness :
  if ready written_store "a" 1 then
    ∃ s' evs,
      Get written_store "a" 0 0 =
        Some (v (Node "a" (Some "1") 10000000), true, s', evs) ∧
      wf_store s' ∧
      present s' "a" 0 = None ∧
      present s' "a" 1 =
        Some (Node "a" (v (Node "a" (Some "1") 10000000))
                (expireAt (Node "a" (Some "1") 10000000))) ∧
      (length evs <= 1)%nat ∧
      (∀ key', key' ≠ "a" →
         stored s' key' 0 = stored written_store key' 0 ∧
         (stored s' key' 1 = stored written_store key' 1 ∨
          stored s' key' 1 = None))
  else Get written_store "a" 0 0 = None.
Proof.
  apply (Get_promotes_or_panics written_store "a" 0 0
           (Node "a" (Some "1") 10000000)).
  - apply written_store_wf.
  - vm_compute. reflexivity.
  - vm_compute. reflexivity.
Defined.

Lemma promoted_key_survives_writes_witness :
  ∃ s'', Get churned_store "a" 0 0 =
           Some (v (Node "a" (Some "1") 10000000), true, s'', []).
Proof.
  apply (promoted_key_survives_writes [("b", Some "2", 10000000, 0)]
           promoted_store "a" (Node "a" (Some "1") 10000000) churned_store []
           0 0).
  - apply promoted_store_wf.
  - vm_compute. reflexivity.
  - vm_compute. reflexivity.
  - repeat constructor. simpl. discriminate.
  - vm_compute. reflexivity.
  - vm_compute. reflexivity.
  - vm_compute. reflexivity.
Defined.

Lemma oversized_bucket_count_witness :
  mask (newLRU2Cache oversized_options) = 65535 ∧
  caches (newLRU2Cache oversized_options) = [] ∧
  Get (newLRU2Cache oversized_options) "a" 0 0 = None ∧
  SetWithExpiration (newLRU2Cache oversized_options) "a" (Some "1") 10000000 0 =
    None ∧
  Delete (newLRU2Cache oversized_options) "a" = None ∧
  Len 3 (newLRU2Cache oversized_options) = Some (Some 0).
Proof.
  apply (oversized_bucket_count oversized_options "a" (Some "1") 10000000 0 0 3).
  simpl. lia.
Defined.


Lemma distinct_puts_bounded_witness :
  ∃ c' evs,
    putAll (Create 2)
      [("a", Some "1", 5); ("b", Some "2", 6); ("c", Some "3", 7)] true =
      Some (c', evs) ∧
    Z.of_nat (length (m c')) = 2 ∧ Z.of_nat (length (dlnk c')) = 2 + 1 ∧
    entries (Z.to_nat 2) c' =
      Some (Some (take (Z.to_nat 2)
                    (rev ((λ kv : string * Value * Z, (kv.1.1, kv.1.2, kv.2)) <$>
                          [("a", Some "1", 5); ("b", Some "2", 6);
                           ("c", Some "3", 7)])))) ∧
    evs = if true
          then take (length [("a", Some "1", 5); ("b", Some "2", 6);
                             ("c", Some "3", 7)] - Z.to_nat 2)
                    ((λ kv : string * Value * Z, (kv.1.1, kv.1.2)) <$>
                     [("a", Some "1", 5); ("b", Some "2", 6);
                      ("c", Some "3", 7)])
          else [].
Proof.
  apply (distinct_puts_bounded 2
           [("a", Some "1", 5); ("b", Some "2", 6); ("c", Some "3", 7)] true).
  - lia.
  - apply (bool_decide_unpack _). vm_compute. exact I.
  - repeat constructor; simpl; lia.
Defined.

Lemma cleanup_pass_removes_only_expired_keys_witness :
  match cleanupShard 3 written_store 0 10000000 with
  | None => False
  | Some None => True
  | Some (Some (s', evs)) =>
      wf_store s' ∧ shape s' = shape written_store ∧
      ∀ key level,
        held s' 0 level key = held written_store 0 level key ∨
        (held s' 0 0 key = None ∧ held s' 0 1 key = None ∧
         (expired_slot (written_tier 0) 10000000 key ∨
          expired_slot (written_tier 1) 10000000 key))
  end.
Proof.
  apply (cleanup_pass_removes_only_expired_keys 3 written_store 0 10000000
           (written_tier 0) (written_tier 1)).
  - apply written_store_wf.
  - vm_compute. reflexivity.
  - vm_compute. reflexivity.
Defined.

End Lru2Facts.

(* ===================================================================== *)
(** ** Facts about the single-tier engine *)
(* ===================================================================== *)

Module LruFacts.

Import Lru.

Lemma unlink_shorter key_ l :
  (length (unlink key_ l) <= length l)%nat.
Proof. unfold unlink. apply List.filter_length_le. Qed.

Lemma unlink_front front l :
  (length (unlink (key front) (front :: l)) <= length l)%nat.
Proof.
  unfold unlink. simpl. rewrite bool_decide_eq_true_2 by done. simpl.
  apply List.filter_length_le.
Qed.

(** [c.list.Back()] of a list that has an element is not nil. *)
Lemma Back_not_nil (front : lruEntry) rest :
  List.last (Some <$> front :: rest) None ≠ None.
Proof.
  revert front. induction rest as [| x rest IH]; intros front; [done |].
  apply (IH x).
Qed.

(** The rounds given to the second loop of [evict] are enough: when it
    returns, its condition is false. *)
Lemma evictOver_exits rounds :
  ∀ c c' evs,
    (length (elems c) <= rounds)%nat →
    evictOver rounds c = Some (c', evs) →
    (0 <? maxBytes c') && (maxBytes c' <? usedBytes c')
      && (0 <? Z.of_nat (length (elems c'))) = false.
Proof.
  induction rounds as [| rounds IH]; intros c c' evs Hlen H; simpl in H.
  - injection H as <- <-. destruct (elems c); [| simpl in Hlen; lia].
    simpl. by rewrite andb_false_r.
  - destruct ((0 <? maxBytes c) && (maxBytes c <? usedBytes c)
              && (0 <? Z.of_nat (length (elems c)))) eqn:Hcond;
      [| by injection H as <- <-].
    destruct (elems c) as [| front rest] eqn:Hel.
    { simpl in Hcond. by rewrite andb_false_r in Hcond. }
    destruct (List.last (Some <$> front :: rest) None) eqn:Hlast;
      [| by apply Back_not_nil in Hlast].
    destruct (removeElement c front) as [[c1 evs1] |] eqn:Hrm; [| done].
    simpl in H.
    destruct (evictOver rounds c1) as [[c2 evs2] |] eqn:Hrec; [| done].
    simpl in H. injection H as <- <-.
    eapply IH; [| exact Hrec].
    unfold removeElement in Hrm. destruct (valueLen (value front)); [| done].
    simpl in Hrm. injection Hrm as <- <-. simpl. rewrite Hel.
    pose proof (unlink_front front rest). simpl in Hlen. lia.
Qed.

(** Every round of that loop removes the element at the front of the
    list, the one used most recently. *)
Lemma evictOver_removes_front rounds c front rest :
  elems c = front :: rest →
  0 < maxBytes c → maxBytes c < usedBytes c →
  evictOver (S rounds) c =
    '(c1, evs) ← removeElement c front;
    '(c2, evs') ← evictOver rounds c1;
    Some (c2, evs ++ evs').
Proof.
  intros Hel H0 H1. cbn [evictOver]. rewrite Hel.
  rewrite (proj2 (Z.ltb_lt _ _) H0), (proj2 (Z.ltb_lt _ _) H1).
  assert ((0 <? Z.of_nat (length (front :: rest))) = true) as ->
    by (apply Z.ltb_lt; simpl; lia).
  cbn [andb].
  destruct (List.last (Some <$> front :: rest) None) eqn:Hlast; [done |].
  by apply Back_not_nil in Hlast.
Qed.

(** C4. A budget of 4 bytes and three two-byte entries written in the order
    a, b, c: the third [Set] exceeds the budget, and the entry removed is c,
    the one just written at the front, while a, the least recently used,
    stays. No entry has an expiry, so the expiry map over which each [evict]
    ranges is empty and the empty order is the only one. *)
Theorem budget_eviction_removes_most_recent :
  ∃ c1 c2 c3,
    ranges [] (expiresAfter (newLRUCache 4 true) "a" 0 0) ∧
    Set_ (newLRUCache 4 true) "a" (Some "1") 0 0 [] = Some (c1, []) ∧
    ranges [] (expiresAfter c1 "b" 0 0) ∧
    Set_ c1 "b" (Some "2") 0 0 [] = Some (c2, []) ∧
    keys c2 = ["b"; "a"] ∧ usedBytes c2 = 4 ∧
    ranges [] (expiresAfter c2 "c" 0 0) ∧
    Set_ c2 "c" (Some "3") 0 0 [] = Some (c3, [("c", Some "3")]) ∧
    keys c3 = ["b"; "a"] ∧ usedBytes c3 = 4.
Proof.
  eexists _, _, _.
  repeat (split; [vm_compute; reflexivity |]); vm_compute; reflexivity.
Qed.

(* ------------------------------------------------------------------- *)
(** *** Invariant and further properties of the single-tier engine *)

Lemma int64_mod a : int64 a mod 18446744073709551616 = a mod 18446744073709551616.
Proof.
  unfold int64. rewrite Zminus_mod, Z.mod_mod by lia.
  rewrite <- Zminus_mod. f_equal. lia.
Qed.

Lemma int64_eq a b :
  a mod 18446744073709551616 = b mod 18446744073709551616 → int64 a = int64 b.
Proof.
  intros H. unfold int64.
  rewrite (Zplus_mod a), (Zplus_mod b), H. done.
Qed.

Lemma int64_small x :
  - 9223372036854775808 <= x < 9223372036854775808 → int64 x = x.
Proof. intros H. unfold int64. rewrite Z.mod_small by lia. lia. Qed.

Lemma int64_add_r a b : int64 (a + int64 b) = int64 (a + b).
Proof.
  apply int64_eq. rewrite Zplus_mod, int64_mod, <- Zplus_mod. done.
Qed.

Lemma int64_add_l a b : int64 (int64 a + b) = int64 (a + b).
Proof.
  apply int64_eq. rewrite Zplus_mod, int64_mod, <- Zplus_mod. done.
Qed.

Lemma int64_sub_r a b : int64 (a - int64 b) = int64 (a - b).
Proof.
  apply int64_eq. rewrite Zminus_mod, int64_mod, <- Zminus_mod. done.
Qed.

Lemma int64_sub_l a b : int64 (int64 a - b) = int64 (a - b).
Proof.
  apply int64_eq. rewrite Zminus_mod, int64_mod, <- Zminus_mod. done.
Qed.

Lemma items_Some c key_ e :
  items c key_ = Some e → e ∈ elems c ∧ key e = key_.
Proof.
  unfold items. intros H. apply List.find_some in H as [H1 H2].
  split; [by apply list_elem_of_In | by apply bool_decide_eq_true in H2].
Qed.

Lemma items_None c key_ : items c key_ = None ↔ key_ ∉ keys c.
Proof.
  unfold items, keys. split.
  - intros H Hin. apply list_elem_of_fmap in Hin as (e & -> & He).
    apply list_elem_of_In in He.
    pose proof (List.find_none _ _ H e He) as Hn. simpl in Hn.
    by apply bool_decide_eq_false in Hn.
  - intros Hn. destruct (List.find _ _) as [e |] eqn:E; [| done].
    apply List.find_some in E as [H1 H2]. apply bool_decide_eq_true in H2.
    exfalso. apply Hn. apply list_elem_of_fmap. exists e.
    split; [done | by apply list_elem_of_In].
Qed.

Lemma items_is_Some c key_ : is_Some (items c key_) ↔ key_ ∈ keys c.
Proof.
  destruct (items c key_) eqn:E.
  - split; [| eauto]. intros _. apply items_Some in E as [H <-].
    apply list_elem_of_fmap. eauto.
  - split; [by intros [? [=]] |]. intros H. by apply items_None in E.
Qed.

Lemma unlink_elem_of key_ l e :
  e ∈ unlink key_ l ↔ e ∈ l ∧ key e ≠ key_.
Proof.
  unfold unlink. rewrite !list_elem_of_In. rewrite List.filter_In.
  rewrite negb_true_iff, bool_decide_eq_false. done.
Qed.

Lemma unlink_keys key_ l :
  key <$> unlink key_ l = List.filter (λ x, negb (bool_decide (x = key_))) (key <$> l).
Proof.
  unfold unlink. induction l as [| e l IH]; [done |]. simpl.
  destruct (bool_decide (key e = key_)); simpl; [exact IH | f_equal; exact IH].
Qed.

Lemma keys_unlink_elem_of key_ l x :
  x ∈ key <$> unlink key_ l ↔ x ∈ key <$> l ∧ x ≠ key_.
Proof.
  rewrite unlink_keys, !list_elem_of_In, List.filter_In.
  rewrite negb_true_iff, bool_decide_eq_false. done.
Qed.

Lemma unlink_NoDup key_ l : NoDup (key <$> l) → NoDup (key <$> unlink key_ l).
Proof.
  intros H. rewrite unlink_keys. apply NoDup_ListNoDup.
  apply List.NoDup_filter. by apply NoDup_ListNoDup.
Qed.

Lemma unlink_absent key_ l : key_ ∉ key <$> l → unlink key_ l = l.
Proof.
  unfold unlink. induction l as [| e l IH]; [done |]. simpl. intros H.
  apply not_elem_of_cons in H as [H1 H2].
  rewrite bool_decide_eq_false_2 by done. simpl. by rewrite IH.
Qed.

Lemma totalSize_unlink key_ l e :
  NoDup (key <$> l) → e ∈ l → key e = key_ →
  totalSize (unlink key_ l) = totalSize l - entrySize e.
Proof.
  induction l as [| x l IH]; intros Hnd He Hk; [by apply elem_of_nil in He |].
  simpl in Hnd. apply NoDup_cons in Hnd as [Hx Hnd].
  apply elem_of_cons in He as [<- | He].
  - unfold unlink. simpl. rewrite bool_decide_eq_true_2 by done. simpl.
    fold (unlink key_ l). rewrite unlink_absent by (by rewrite <- Hk). lia.
  - unfold unlink. simpl. rewrite bool_decide_eq_false_2.
    + simpl. fold (unlink key_ l). rewrite IH by done. lia.
    + intros Heq. apply Hx. rewrite Heq, <- Hk.
      apply list_elem_of_fmap. eauto.
Qed.

Lemma totalSize_nonneg l : 0 <= totalSize l.
Proof.
  induction l as [| e l IH]; simpl; [lia |].
  unfold entrySize, keyLen. destruct (value e); simpl; unfold Go.Len; lia.
Qed.

Lemma entrySize_nonneg e : 0 <= entrySize e.
Proof. unfold entrySize, keyLen. destruct (value e); simpl; unfold Go.Len; lia. Qed.

Lemma unlink_Forall (P : lruEntry → Prop) key_ l :
  Forall P l → Forall P (unlink key_ l).
Proof.
  intros H. apply Forall_forall. intros e [He _]%unlink_elem_of.
  by eapply Forall_forall in H.
Qed.

Lemma removeElement_inv c e :
  inv c → e ∈ elems c →
  ∃ c', removeElement c e =
          Some (c', if onEvicted c then [(key e, value e)] else []) ∧
        inv c' ∧ elems c' = unlink (key e) (elems c) ∧
        expires c' = delete (key e) (expires c) ∧
        maxBytes c' = maxBytes c ∧ onEvicted c' = onEvicted c.
Proof.
  intros [H1 H2 H3 H4] He. unfold removeElement.
  pose proof (proj1 (Forall_forall _ _) H2 e He) as [x Hx].
  rewrite Hx. simpl. eexists; split; [done |]. simpl. split; [| done].
  constructor; simpl.
  - by apply unlink_NoDup.
  - by apply unlink_Forall.
  - intros key_ [t Ht]. apply lookup_delete_Some in Ht as [Hne Ht].
    apply keys_unlink_elem_of. split; [apply H3; eauto | done].
  - rewrite H4, int64_sub_r, int64_sub_l.
    rewrite (totalSize_unlink (key e) (elems c) e) by done.
    f_equal. unfold entrySize. rewrite Hx. done.
Qed.

Lemma filter_filter {A} (f g : A → bool) l :
  List.filter f (List.filter g l) = List.filter (λ x, g x && f x) l.
Proof.
  induction l as [| x l IH]; [done |]. simpl.
  destruct (g x); simpl; [destruct (f x) |]; by rewrite IH.
Qed.

Lemma filter_ext_in' {A} (f g : A → bool) l :
  (∀ x, x ∈ l → f x = g x) → List.filter f l = List.filter g l.
Proof.
  intros H. apply List.filter_ext_in. intros x Hx. apply H.
  by apply list_elem_of_In.
Qed.

Lemma evictExpired_inv now pairs :
  ∀ c, inv c →
  ∃ c' evs, evictExpired c now pairs = Some (c', evs) ∧ inv c' ∧
    elems c' = List.filter (λ e, negb (expiredIn now pairs (key e))) (elems c) ∧
    (∀ x, expires c' !! x =
          if expiredIn now pairs x && bool_decide (x ∈ keys c) then None
          else expires c !! x) ∧
    maxBytes c' = maxBytes c ∧ onEvicted c' = onEvicted c ∧
    (onEvicted c = false → evs = []).
Proof.
  induction pairs as [| [x t] pairs IH]; intros c Hinv.
  - exists c, []. simpl. split; [done |]. split; [done |].
    split; [| done]. induction (elems c) as [| e l IHl]; [done |].
    simpl. by rewrite <- IHl.
  - cbn [evictExpired].
    destruct (after now t) eqn:Ha; [destruct (items c x) as [e |] eqn:Hit |].
    + apply items_Some in Hit as [He Hk].
      destruct (removeElement_inv c e Hinv He) as (c1 & E1 & Hinv1 & Hel1 & Hex1 & Hmb1 & Hcb1).
      rewrite E1. cbn [mbind option_bind].
      destruct (IH c1 Hinv1) as (c' & evs & E & Hinv' & Hel & Hex & Hmb & Hcb & Hev).
      rewrite E. cbn [mbind option_bind]. eexists _, _. split; [done |].
      split; [done |]. rewrite Hk in *. split_and!; try congruence.
      * rewrite Hel, Hel1. unfold unlink. rewrite filter_filter.
        apply filter_ext_in'. intros y _. simpl. rewrite Ha, andb_true_r.
        rewrite negb_orb. f_equal. f_equal. apply bool_decide_ext. done.
      * intros y. rewrite Hex. simpl. rewrite Ha, andb_true_r.
        unfold keys in *. rewrite Hel1, Hex1.
        destruct (decide (x = y)) as [-> | Hne].
        -- rewrite (bool_decide_eq_true_2 (y = y)) by done. simpl.
           rewrite (bool_decide_eq_true_2 (y ∈ key <$> elems c)).
           ++ rewrite lookup_delete_eq. by destruct (_ && _).
           ++ rewrite <- Hk. apply list_elem_of_fmap. eauto.
        -- rewrite (bool_decide_eq_false_2 (x = y)) by done. simpl.
           rewrite lookup_delete_ne by done.
           destruct (expiredIn now pairs y); [| done]. simpl.
           destruct (bool_decide (y ∈ key <$> elems c)) eqn:B1.
           ++ rewrite bool_decide_eq_true_2; [done |].
              apply bool_decide_eq_true in B1.
              apply keys_unlink_elem_of. split; [done | congruence].
           ++ rewrite bool_decide_eq_false_2; [done |].
              apply bool_decide_eq_false in B1.
              intros [? _]%keys_unlink_elem_of. done.
      * intros Hf. rewrite Hf. simpl. apply Hev. congruence.
    + cbn [mbind option_bind].
      destruct (IH c Hinv) as (c' & evs & E & Hinv' & Hel & Hex & Hmb & Hcb & Hev).
      rewrite E. cbn [mbind option_bind]. eexists _, _. split; [done |].
      split; [done |]. apply items_None in Hit. split_and!; try done.
      * rewrite Hel. apply filter_ext_in'. intros y Hy. simpl.
        rewrite Ha, andb_true_r. rewrite bool_decide_eq_false_2; [done |].
        intros Heq. apply Hit. rewrite Heq. apply list_elem_of_fmap. eauto.
      * intros y. rewrite Hex. simpl. rewrite Ha, andb_true_r.
        destruct (decide (x = y)) as [-> | Hne].
        -- rewrite (bool_decide_eq_false_2 (y ∈ keys c)) by done.
           by rewrite !andb_false_r.
        -- by rewrite (bool_decide_eq_false_2 (x = y)) by done.
    + cbn [mbind option_bind].
      destruct (IH c Hinv) as (c' & evs & E & Hinv' & Hel & Hex & Hmb & Hcb & Hev).
      rewrite E. cbn [mbind option_bind]. eexists _, _. split; [done |].
      split; [done |]. split_and!; try done.
      * rewrite Hel. apply filter_ext_in'. intros y Hy. simpl.
        by rewrite Ha, andb_false_r.
      * intros y. rewrite Hex. simpl. by rewrite Ha, andb_false_r.
Qed.

Lemma totalSize_filter f l : totalSize (List.filter f l) <= totalSize l.
Proof.
  induction l as [| e l IH]; simpl; [lia |].
  pose proof (entrySize_nonneg e). destruct (f e); simpl; lia.
Qed.

Lemma unlink_head e l :
  key e ∉ key <$> l → unlink (key e) (e :: l) = l.
Proof.
  intros H. unfold unlink. simpl. rewrite bool_decide_eq_true_2 by done.
  simpl. by apply unlink_absent.
Qed.

(** The second loop under the invariant: it never panics, it removes a
    prefix of the list, and on exit the budget is respected. *)
Lemma evictOver_inv rounds :
  ∀ c, inv c → (length (elems c) <= rounds)%nat →
  ∃ c' evs k, evictOver rounds c = Some (c', evs) ∧ inv c' ∧
    elems c' = drop k (elems c) ∧
    (∀ x, expires c' !! x =
          if bool_decide (x ∈ key <$> take k (elems c)) then None
          else expires c !! x) ∧
    maxBytes c' = maxBytes c ∧ onEvicted c' = onEvicted c ∧
    (0 < maxBytes c → usedBytes c' <= maxBytes c) ∧
    (¬ (0 < maxBytes c ∧ maxBytes c < usedBytes c) →
       c' = c ∧ evs = [] ∧ k = 0%nat) ∧
    (onEvicted c = false → evs = []).
Proof.
  induction rounds as [| rounds IH]; intros c Hinv Hlen.
  - exists c, [], 0%nat. simpl. split; [done |]. split; [done |].
    split_and!; try done.
    intros Hmb. destruct (elems c) eqn:E; [| simpl in Hlen; lia].
    rewrite (inv_used c Hinv), E. simpl. rewrite int64_small; lia.
  - cbn [evictOver].
    destruct (Z.ltb_spec 0 (maxBytes c)) as [H0 | H0]; cbn [andb].
    2:{ exists c, [], 0%nat. split; [done |]. split; [done |].
        split_and!; try done. lia. }
    destruct (Z.ltb_spec (maxBytes c) (usedBytes c)) as [H1 | H1]; cbn [andb].
    2:{ exists c, [], 0%nat. split; [done |]. split; [done |].
        split_and!; try done. }
    destruct (elems c) as [| front rest] eqn:Hel.
    { exfalso. rewrite (inv_used c Hinv), Hel in H1. simpl in H1.
      rewrite int64_small in H1; lia. }
    assert ((0 <? Z.of_nat (length (front :: rest))) = true) as ->
      by (apply Z.ltb_lt; simpl; lia).
    destruct (List.last (Some <$> front :: rest) None) eqn:Hlast;
      [| by apply Back_not_nil in Hlast].
    destruct (removeElement_inv c front Hinv) as (c1 & E1 & Hinv1 & Hel1 & Hex1 & Hmb1 & Hcb1).
    { rewrite Hel. apply list_elem_of_here. }
    rewrite E1. cbn [mbind option_bind].
    pose proof (inv_keys c Hinv) as Hnd. unfold keys in Hnd. rewrite Hel in Hnd.
    simpl in Hnd. apply NoDup_cons in Hnd as [Hfr Hnd].
    rewrite Hel, unlink_head in Hel1 by done.
    destruct (IH c1 Hinv1) as (c' & evs & k & E & Hinv' & Hel' & Hex' & Hmb' & Hcb' & Hbud & _ & Hev).
    { rewrite Hel1. simpl in Hlen. lia. }
    rewrite E. cbn [mbind option_bind]. eexists c', _, (S k).
    split; [done |]. split; [done |]. split_and!; try congruence.
    + simpl. congruence.
    + intros x. rewrite Hex', Hel1, Hex1. simpl.
      destruct (decide (key front = x)) as [<- | Hne].
      * rewrite (bool_decide_eq_true_2 (key front ∈ key front :: _))
          by apply list_elem_of_here.
        rewrite lookup_delete_eq. by destruct (bool_decide _).
      * rewrite lookup_delete_ne by done.
        destruct (bool_decide (x ∈ key <$> take k rest)) eqn:B.
        -- apply bool_decide_eq_true in B. rewrite bool_decide_eq_true_2; [done |].
           by apply list_elem_of_further.
        -- apply bool_decide_eq_false in B. rewrite bool_decide_eq_false_2; [done |].
           intros [? | ?]%elem_of_cons; done.
    + intros _. rewrite <- Hmb1. apply Hbud. lia.
    + intros Hn. exfalso. apply Hn. done.
    + intros Hf. rewrite Hf. simpl. apply Hev. congruence.
Qed.

Lemma ranges_elem_of order (exp : gmap string Z) x t :
  ranges order exp → (x, t) ∈ order ↔ exp !! x = Some t.
Proof.
  unfold ranges. intros H. rewrite H. apply elem_of_map_to_list.
Qed.

Lemma expiredIn_ranges c now order x :
  ranges order (expires c) → expiredIn now order x = expiredAt c now x.
Proof.
  intros Hr. unfold expiredIn, expiredAt. destruct (expires c !! x) as [t |] eqn:E.
  - destruct (after now t) eqn:Ha.
    + apply List.existsb_exists. exists (x, t). split.
      * apply list_elem_of_In, (ranges_elem_of _ _ _ _ Hr). done.
      * simpl. rewrite Ha. by rewrite bool_decide_eq_true_2.
    + apply not_true_is_false. intros [[y u] [Hin Hb]]%List.existsb_exists.
      apply list_elem_of_In, (ranges_elem_of _ _ _ _ Hr) in Hin.
      simpl in Hb. apply andb_true_iff in Hb as [Hy Hu].
      apply bool_decide_eq_true in Hy. subst y. congruence.
  - apply not_true_is_false. intros [[y u] [Hin Hb]]%List.existsb_exists.
    apply list_elem_of_In, (ranges_elem_of _ _ _ _ Hr) in Hin.
    simpl in Hb. apply andb_true_iff in Hb as [Hy Hu].
    apply bool_decide_eq_true in Hy. subst y. congruence.
Qed.

Lemma evict_inv c now order :
  inv c → ranges order (expires c) →
  ∃ c' evs k, evict c now order = Some (c', evs) ∧ inv c' ∧
    elems c' =
      drop k (List.filter (λ e, negb (expiredAt c now (key e))) (elems c)) ∧
    (∀ x, expires c' !! x = None ∨ expires c' !! x = expires c !! x) ∧
    (∀ x, expiredAt c now x = true → expires c' !! x = None) ∧
    (∀ x, x ∈ keys c' → expires c' !! x = expires c !! x) ∧
    maxBytes c' = maxBytes c ∧ onEvicted c' = onEvicted c ∧
    (0 < maxBytes c → usedBytes c' <= maxBytes c) ∧
    (maxBytes c <= 0 ∨
     totalSize (elems c) <= maxBytes c < 9223372036854775808 → k = 0%nat) ∧
    (onEvicted c = false → evs = []).
Proof.
  intros Hinv Hr. unfold evict.
  destruct (evictExpired_inv now order c Hinv)
    as (c1 & evs1 & E1 & Hinv1 & Hel1 & Hex1 & Hmb1 & Hcb1 & Hev1).
  rewrite E1. cbn [mbind option_bind].
  destruct (evictOver_inv (length (elems c1)) c1 Hinv1 ltac:(lia))
    as (c2 & evs2 & k & E2 & Hinv2 & Hel2 & Hex2 & Hmb2 & Hcb2 & Hbud & Hno & Hev2).
  rewrite E2. cbn [mbind option_bind].
  assert (elems c1 = List.filter (λ e, negb (expiredAt c now (key e))) (elems c)) as Hel1'.
  { rewrite Hel1. apply filter_ext_in'. intros e _. by rewrite (expiredIn_ranges c now order _ Hr). }
  assert (maxBytes c <= 0 ∨
          totalSize (elems c) <= maxBytes c < 9223372036854775808 →
          ¬ (0 < maxBytes c1 ∧ maxBytes c1 < usedBytes c1)) as Hfit.
  { intros [Hle | [Hle Hlt]]; [lia |]. rewrite (inv_used c1 Hinv1), Hel1', Hmb1.
    pose proof (totalSize_filter (λ e, negb (expiredAt c now (key e))) (elems c)).
    pose proof (totalSize_nonneg
                  (List.filter (λ e, negb (expiredAt c now (key e))) (elems c))).
    rewrite int64_small by lia. lia. }
  exists c2, (evs1 ++ evs2), k. split; [done |]. split; [done |].
  split_and!; try congruence.
  - intros x. rewrite Hex2, Hex1.
    destruct (bool_decide _); [by left |]. destruct (_ && _); [by left | by right].
  - intros x Hx. rewrite Hex2, Hex1. destruct (bool_decide _); [done |].
    rewrite (expiredIn_ranges c now order _ Hr), Hx. simpl.
    rewrite bool_decide_eq_true_2; [done |].
    apply (inv_expires c Hinv). unfold expiredAt in Hx.
    destruct (expires c !! x); [eauto | done].
  - intros x Hx. unfold keys in Hx. rewrite Hel2 in Hx.
    rewrite Hex2, Hex1.
    pose proof (inv_keys c1 Hinv1) as Hnd. unfold keys in Hnd.
    rewrite <- (take_drop k (elems c1)), fmap_app in Hnd.
    apply NoDup_app in Hnd as (_ & Hdisj & _).
    rewrite bool_decide_eq_false_2 by (intros Hin; by apply (Hdisj x Hin)).
    assert (x ∈ key <$> elems c1) as Hx1.
    { rewrite <- (take_drop k (elems c1)), fmap_app. apply elem_of_app. by right. }
    rewrite Hel1 in Hx1. apply list_elem_of_fmap in Hx1 as (e & -> & He).
    apply list_elem_of_In, List.filter_In in He as [_ He].
    apply negb_true_iff in He. by rewrite He.
  - intros Hp. rewrite <- Hmb1. apply Hbud. lia.
  - intros Hf. by destruct (Hno (Hfit Hf)) as (_ & _ & ->).
  - intros Hf. rewrite Hev1, Hev2 by congruence. done.
Qed.

Lemma Delete_inv c key_ :
  inv c →
  ∃ c' evs, Delete c key_ = Some (c', bool_decide (key_ ∈ keys c), evs) ∧ inv c' ∧
    elems c' = unlink key_ (elems c) ∧
    expires c' = delete key_ (expires c) ∧
    maxBytes c' = maxBytes c ∧ onEvicted c' = onEvicted c ∧
    evs = match items c key_ with
          | Some e => if onEvicted c then [(key_, value e)] else []
          | None => []
          end ∧
    usedBytes c' =
      int64 (usedBytes c - from_option entrySize 0 (items c key_)).
Proof.
  intros Hinv. unfold Delete. destruct (items c key_) as [e |] eqn:Hit.
  - pose proof (items_Some _ _ _ Hit) as [He Hk].
    destruct (removeElement_inv c e Hinv He) as (c' & E & Hinv' & Hel & Hex & Hmb & Hcb).
    rewrite E. cbn [mbind option_bind]. rewrite Hk in *.
    rewrite bool_decide_eq_true_2 by (apply items_is_Some; eauto).
    eexists _, _. split; [done |]. split_and!; try done.
    simpl. rewrite (inv_used c' Hinv'), (inv_used c Hinv), Hel.
    rewrite (totalSize_unlink key_ (elems c) e) by (done || apply Hinv).
    by rewrite int64_sub_l.
  - apply items_None in Hit as Hn. rewrite bool_decide_eq_false_2 by done.
    eexists _, _. split; [done |]. split_and!; try done.
    + by rewrite unlink_absent.
    + rewrite delete_id; [done |].
      destruct (expires c !! key_) eqn:E; [| done].
      exfalso. apply Hn. apply (inv_expires c Hinv). eauto.
    + simpl. rewrite Z.sub_0_r, (inv_used c Hinv).
      apply int64_eq. by rewrite int64_mod.
Qed.

Lemma inv_front c e l ex used :
  inv c → key e ∉ key <$> l → is_Some (value e) →
  NoDup (key <$> l) → Forall (λ e, is_Some (value e)) l →
  (∀ x, is_Some (ex !! x) → x = key e ∨ x ∈ key <$> l) →
  used = int64 (entrySize e + totalSize l) →
  inv (LruCache (e :: l) ex (maxBytes c) used (onEvicted c)).
Proof.
  intros _ Hk Hv Hnd Hvs Hex Hused. constructor; simpl.
  - apply NoDup_cons. done.
  - by apply Forall_cons.
  - intros x Hx. apply elem_of_cons. by apply Hex.
  - done.
Qed.

(** The update path of [SetWithExpiration]. *)
Lemma expiresAfter_held c key_ expiration now z :
  is_Some (expiresAfter c key_ expiration now !! z) →
  z = key_ ∨ is_Some (expires c !! z).
Proof.
  unfold expiresAfter. intros Hz.
  destruct (decide (z = key_)) as [-> | Hne]; [by left | right].
  destruct (0 <? expiration).
  - by rewrite lookup_insert_ne in Hz.
  - by rewrite lookup_delete_ne in Hz.
Qed.

Lemma expiresAfter_key c key_ expiration now :
  expiresAfter c key_ expiration now !! key_ =
    (if 0 <? expiration then Some (now + expiration) else None).
Proof.
  unfold expiresAfter.
  destruct (0 <? expiration); [apply lookup_insert_eq | apply lookup_delete_eq].
Qed.

Lemma expiresAfter_other c key_ expiration now z :
  z ≠ key_ → expiresAfter c key_ expiration now !! z = expires c !! z.
Proof.
  intros Hne. unfold expiresAfter.
  destruct (0 <? expiration);
    [by apply lookup_insert_ne | by apply lookup_delete_ne].
Qed.

Lemma SetWithExpiration_update c key_ x expiration now now' order old :
  inv c → items c key_ = Some old →
  SetWithExpiration c key_ (Some x) expiration now now' order =
    Some (LruCache (Entry key_ (Some x) :: unlink key_ (elems c))
            (expiresAfter c key_ expiration now)
            (maxBytes c)
            (int64 (entrySize (Entry key_ (Some x)) + totalSize (unlink key_ (elems c))))
            (onEvicted c), []) ∧
  inv (LruCache (Entry key_ (Some x) :: unlink key_ (elems c))
            (expiresAfter c key_ expiration now)
            (maxBytes c)
            (int64 (entrySize (Entry key_ (Some x)) + totalSize (unlink key_ (elems c))))
            (onEvicted c)).
Proof.
  intros Hinv Hit. pose proof (items_Some _ _ _ Hit) as [He Hk].
  pose proof (proj1 (Forall_forall _ _) (inv_values c Hinv) old He) as [y Hy].
  split.
  - unfold SetWithExpiration. rewrite Hit, Hy. simpl. do 3 f_equal.
    rewrite (inv_used c Hinv), int64_add_r, int64_add_l.
    rewrite (totalSize_unlink key_ (elems c) old) by (done || apply Hinv).
    f_equal. unfold entrySize. simpl. rewrite Hy, Hk. simpl. lia.
  - apply inv_front; simpl; try done.
    + intros [_ ?]%keys_unlink_elem_of. done.
    + apply unlink_NoDup, Hinv.
    + apply unlink_Forall, Hinv.
    + intros z Hz. destruct (decide (z = key_)) as [-> | Hne]; [by left |].
      right. apply keys_unlink_elem_of. split; [| done].
      apply (inv_expires c Hinv).
      by destruct (expiresAfter_held _ _ _ _ _ Hz).
Qed.

Lemma SetWithExpiration_insert c key_ x expiration now now' order :
  inv c → items c key_ = None →
  SetWithExpiration c key_ (Some x) expiration now now' order =
    evict (inserted c key_ x expiration now) now' order ∧
  inv (inserted c key_ x expiration now).
Proof.
  intros Hinv Hit. split.
  - unfold SetWithExpiration. by rewrite Hit.
  - apply items_None in Hit. unfold inserted. apply inv_front; simpl; try done.
    + apply Hinv.
    + apply Hinv.
    + intros z Hz. destruct (decide (z = key_)) as [-> | Hne]; [by left |].
      right. apply (inv_expires c Hinv).
      by destruct (expiresAfter_held _ _ _ _ _ Hz).
    + rewrite (inv_used c Hinv), int64_add_r, int64_add_l. f_equal.
      unfold entrySize. simpl. lia.
Qed.

Lemma SetWithExpiration_inv c key_ value_ expiration now now' order :
  inv c → ranges order (expiresAfter c key_ expiration now) →
  ∃ c' evs,
    SetWithExpiration c key_ value_ expiration now now' order =
      Some (c', evs) ∧
    inv c' ∧ maxBytes c' = maxBytes c ∧ onEvicted c' = onEvicted c.
Proof.
  intros Hinv Hr. destruct value_ as [x |].
  - destruct (items c key_) as [old |] eqn:Hit.
    + destruct (SetWithExpiration_update c key_ x expiration now now' order old Hinv Hit)
        as [-> Hinv'].
      eexists _, _. split; [done |]. done.
    + destruct (SetWithExpiration_insert c key_ x expiration now now' order Hinv Hit)
        as [-> Hinv0].
      destruct (evict_inv _ now' order Hinv0 Hr) as (c' & evs & k & E & Hinv' & _ & _ & _ & _ & Hmb & Hcb & _).
      rewrite E. eexists _, _. split; [done |]. done.
  - destruct (Delete_inv c key_ Hinv) as (c' & evs & E & Hinv' & _ & _ & Hmb & Hcb & _).
    unfold SetWithExpiration. rewrite E. simpl. eexists _, _. split; [done |]. done.
Qed.

Lemma moveToFront_held key_ l e :
  List.find (λ e, bool_decide (key e = key_)) l = Some e →
  moveToFront key_ l = e :: unlink key_ l.
Proof. unfold moveToFront. by intros ->. Qed.

Lemma inv_moveToFront c key_ :
  inv c →
  inv (LruCache (moveToFront key_ (elems c)) (expires c) (maxBytes c)
                (usedBytes c) (onEvicted c)).
Proof.
  intros Hinv. unfold moveToFront.
  destruct (List.find _ _) as [e |] eqn:Hit; [| by destruct c].
  pose proof (items_Some c key_ e Hit) as [He Hk].
  apply inv_front; simpl; try done.
  - rewrite Hk. intros [_ ?]%keys_unlink_elem_of. done.
  - apply (proj1 (Forall_forall _ _) (inv_values c Hinv) e He).
  - apply unlink_NoDup, Hinv.
  - apply unlink_Forall, Hinv.
  - intros z Hz. destruct (decide (z = key e)) as [-> | Hne]; [by left |].
    right. apply keys_unlink_elem_of. split; [| congruence].
    by apply (inv_expires c Hinv).
  - rewrite (inv_used c Hinv). f_equal.
    rewrite (totalSize_unlink key_ (elems c) e) by (done || apply Hinv). lia.
Qed.

Lemma Get_inv c key_ now : inv c → inv (Get c key_ now).1.2.
Proof.
  intros Hinv. unfold Get. destruct (items c key_); [| done].
  destruct (expires c !! key_) as [t |]; [destruct (after now t) |]; simpl;
    try done; by apply inv_moveToFront.
Qed.

Lemma GetWithExpiration_inv c key_ now :
  inv c → inv (GetWithExpiration c key_ now).2.
Proof.
  intros Hinv. unfold GetWithExpiration. destruct (items c key_); [| done].
  destruct (expires c !! key_) as [t |]; [destruct (after now t) |]; simpl;
    try done; by apply inv_moveToFront.
Qed.

Lemma Clear_inv c order : inv (Clear c order).1.
Proof.
  constructor; simpl; [apply NoDup_nil_2 | done | | done].
  intros x [? H]. by rewrite lookup_empty in H.
Qed.

Lemma UpdateExpiration_inv c key_ expiration now :
  inv c → inv (UpdateExpiration c key_ expiration now).2.
Proof.
  intros Hinv. unfold UpdateExpiration.
  destruct (items c key_) as [e |] eqn:Hit; [| done]. simpl.
  destruct Hinv as [H1 H2 H3 H4]. constructor; simpl; try done.
  intros z Hz. destruct (decide (z = key_)) as [-> | Hne].
  - apply items_is_Some. eauto.
  - apply H3. destruct (0 <? expiration).
    + by rewrite lookup_insert_ne in Hz.
    + by rewrite lookup_delete_ne in Hz.
Qed.

Lemma SetMaxBytes_inv c maxBytes_ now order :
  inv c → ranges order (expires c) →
  ∃ c' evs, SetMaxBytes c maxBytes_ now order = Some (c', evs) ∧ inv c' ∧
    maxBytes c' = maxBytes_ ∧ (0 < maxBytes_ → usedBytes c' <= maxBytes_).
Proof.
  intros Hinv Hr. unfold SetMaxBytes.
  assert (inv (LruCache (elems c) (expires c) maxBytes_ (usedBytes c) (onEvicted c)))
    as Hinv0 by (by destruct Hinv).
  destruct (Z.ltb_spec 0 maxBytes_).
  - destruct (evict_inv _ now order Hinv0 Hr) as (c' & evs & k & E & Hinv' & _ & _ & _ & _ & Hmb & _ & Hbud & _).
    rewrite E. eexists _, _. split; [done |]. simpl in *. split_and!; try done.
  - eexists _, _. split; [done |]. split_and!; try done. lia.
Qed.

Lemma inv_newLRUCache maxBytes_ onEvicted_ : inv (newLRUCache maxBytes_ onEvicted_).
Proof.
  constructor; simpl; [apply NoDup_nil_2 | done | | done].
  intros x [? H]. by rewrite lookup_empty in H.
Qed.

Lemma reachable_inv c : reachable c → inv c.
Proof.
  induction 1 as [mb cb | c key_ value_ d now now' order c' evs _ IH Hr H
                  | c key_ now _ IH | c key_ now _ IH
                  | c key_ c' r evs _ IH H | c order _ IH
                  | c key_ d now _ IH | c mb now order c' evs _ IH Hr H
                  | c now order c' evs _ IH Hr H].
  - apply inv_newLRUCache.
  - destruct (SetWithExpiration_inv c key_ value_ d now now' order IH Hr)
      as (? & ? & E & ? & _).
    congruence.
  - by apply Get_inv.
  - by apply GetWithExpiration_inv.
  - destruct (Delete_inv c key_ IH) as (? & ? & E & ? & _). congruence.
  - apply Clear_inv.
  - by apply UpdateExpiration_inv.
  - destruct (SetMaxBytes_inv c mb now order IH Hr) as (? & ? & E & ? & _).
    congruence.
  - destruct (evict_inv c now order IH Hr) as (? & ? & ? & E & ? & _). congruence.
Qed.

Lemma items_front e l ex mb used cb :
  items (LruCache (e :: l) ex mb used cb) (key e) = Some e.
Proof. unfold items. simpl. by rewrite bool_decide_eq_true_2. Qed.

Lemma find_filter_ne key_ key' (l : list lruEntry) :
  key' ≠ key_ →
  List.find (λ e, bool_decide (key e = key')) (unlink key_ l) =
  List.find (λ e, bool_decide (key e = key')) l.
Proof.
  intros Hne. unfold unlink. induction l as [| e l IH]; [done |]. simpl.
  destruct (decide (key e = key_)) as [Hk | Hk].
  - rewrite (bool_decide_eq_true_2 _ Hk). simpl.
    rewrite (bool_decide_eq_false_2 (key e = key')) by congruence. done.
  - rewrite (bool_decide_eq_false_2 _ Hk). simpl.
    destruct (bool_decide (key e = key')); done.
Qed.

Lemma filter_sublist {A} (f : A → bool) l : sublist (List.filter f l) l.
Proof.
  induction l as [| x l IH]; simpl; [constructor |].
  destruct (f x); by constructor.
Qed.

(** X14. Every cache reached from [newLRUCache] by the operations of the
    engine satisfies the invariant: one list element per key, no nil value,
    an expiry only for a key that is held, and [usedBytes] equal to the int64
    sum of [len(key) + value.Len()] over the elements held. *)
Theorem lruCache_invariant (c : lruCache) : reachable c → inv c.
Proof. apply reachable_inv. Qed.

(** X15. On a reachable cache no operation panics: [SetWithExpiration]
    (also with a nil value), [Delete], [SetMaxBytes] and [evict] always
    return. The one panic the code could raise, [value.Len()] on a nil
    interface, cannot occur because a nil value is never stored. *)
Theorem lruCache_never_panics (c : lruCache) (key_ : string) (value_ : Value)
    (expiration now now' maxBytes_ : Z) (order order' : list (string * Z)) :
  reachable c →
  ranges order (expiresAfter c key_ expiration now) →
  ranges order' (expires c) →
  is_Some (SetWithExpiration c key_ value_ expiration now now' order) ∧
  is_Some (Delete c key_) ∧
  is_Some (SetMaxBytes c maxBytes_ now order') ∧
  is_Some (evict c now order').
Proof.
  intros Hinv%reachable_inv Hr Hr'. split_and!.
  - destruct (SetWithExpiration_inv c key_ value_ expiration now now' order Hinv Hr)
      as (? & ? & -> & _). done.
  - destruct (Delete_inv c key_ Hinv) as (? & ? & -> & _). done.
  - destruct (SetMaxBytes_inv c maxBytes_ now order' Hinv Hr') as (? & ? & -> & _).
    done.
  - destruct (evict_inv c now order' Hinv Hr') as (? & ? & ? & -> & _). done.
Qed.

(** X16. A value written with [SetWithExpiration] is read back by [Get]:
    on a cache with no byte budget, or whose budget has room for the entry,
    and, when a duration is given, as long as [evict] and [Get] read the
    clock no later than the expiry. The key is then at the front of the
    list, its expiry is [now + expiration] (none for a duration that is not
    positive), and [Get] returns the value with true and starts no
    [Delete]. *)
Theorem SetWithExpiration_then_Get (c : lruCache) (key_ x : string)
    (expiration now now' t : Z) (order : list (string * Z)) :
  inv c → ranges order (expiresAfter c key_ expiration now) →
  maxBytes c <= 0 ∨
    totalSize (elems c) + entrySize (Entry key_ (Some x)) <= maxBytes c
      < 9223372036854775808 →
  (0 < expiration → now' <= now + expiration ∧ t <= now + expiration) →
  ∃ c' evs c'',
    SetWithExpiration c key_ (Some x) expiration now now' order =
      Some (c', evs) ∧
    Get c' key_ t = (Some x, true, c'', None) ∧
    GetExpiration c' key_ =
      (if 0 <? expiration then Some (now + expiration) else None) ∧
    List.hd_error (keys c') = Some key_ ∧ keys c'' = keys c'.
Proof.
  intros Hinv Hr Hfit Hexp.
  assert (∀ c1 : lruCache, ∀ l, inv c1 →
            elems c1 = Entry key_ (Some x) :: l →
            expires c1 !! key_ =
              (if 0 <? expiration then Some (now + expiration) else None) →
            ∃ c'', Get c1 key_ t = (Some x, true, c'', None) ∧
                   keys c'' = keys c1) as Hget.
  { intros c1 l Hinv1 Hel Hex. unfold Get, items. rewrite Hel. simpl.
    rewrite (bool_decide_eq_true_2 (key_ = key_)) by done. rewrite Hex.
    assert (moveToFront key_ (Entry key_ (Some x) :: l) =
            Entry key_ (Some x) :: l) as Hm.
    { unfold moveToFront. cbn [List.find key]. rewrite bool_decide_eq_true_2 by done.
      f_equal. apply (unlink_head (Entry key_ (Some x))).
      pose proof (inv_keys c1 Hinv1) as Hnd. unfold keys in Hnd.
      rewrite Hel in Hnd. simpl in Hnd. by apply NoDup_cons in Hnd as [? _]. }
    destruct (Z.ltb_spec 0 expiration) as [Hd | Hd].
    - destruct (Hexp Hd) as [_ Ht].
      unfold after. rewrite (proj2 (Z.ltb_ge _ _)) by lia.
      eexists. split; [done |]. unfold keys. simpl. rewrite Hel, Hm.
      simpl. done.
    - eexists. split; [done |]. unfold keys. simpl. rewrite Hel, Hm. done. }
  destruct (items c key_) as [old |] eqn:Hit.
  - destruct (SetWithExpiration_update c key_ x expiration now now' order old Hinv Hit)
      as [E Hinv'].
    rewrite E.
    edestruct (Hget _ _ Hinv' eq_refl) as (c'' & Eg & Hk).
    { simpl. apply expiresAfter_key. }
    eexists _, _, c''. split; [done |]. split; [exact Eg |].
    split; [| done]. unfold GetExpiration. simpl. apply expiresAfter_key.
  - destruct (SetWithExpiration_insert c key_ x expiration now now' order Hinv Hit)
      as [E Hinv0].
    rewrite E.
    destruct (evict_inv _ now' order Hinv0 Hr)
      as (c' & evs & k & Ee & Hinv' & Hel & _ & _ & Hkept & _ & _ & _ & Hk0 & _).
    rewrite Ee.
    assert (expires (inserted c key_ x expiration now) !! key_ =
            (if 0 <? expiration then Some (now + expiration) else None)) as Hex0.
    { simpl. apply expiresAfter_key. }
    assert (expiredAt (inserted c key_ x expiration now) now' key_ = false) as Hne.
    { unfold expiredAt. rewrite Hex0.
      destruct (Z.ltb_spec 0 expiration) as [Hd | Hd]; [| done].
      destruct (Hexp Hd) as [Ht _]. unfold after. apply Z.ltb_ge. lia. }
    rewrite Hk0 in Hel.
    2:{ simpl. destruct Hfit as [? | [? ?]]; [by left | right]. lia. }
    simpl in Hel. rewrite Hne in Hel. simpl in Hel.
    assert (expires c' !! key_ =
            (if 0 <? expiration then Some (now + expiration) else None)) as Hex'.
    { rewrite Hkept, Hex0; [done |]. unfold keys. rewrite Hel.
      apply list_elem_of_here. }
    edestruct (Hget c' _ Hinv' Hel Hex') as (c'' & Eg & Hk).
    eexists _, _, c''. split; [done |]. split; [exact Eg |].
    split; [exact Hex' |]. split; [| done]. unfold keys. by rewrite Hel.
Qed.

(** X17. [Delete] returns true exactly when the key was held, calls the
    callback (if there is one) once with the value held, and removes the
    element and the expiry: a [Get] that follows misses, the other keys keep
    their element and their expiry, and [usedBytes] is lowered by the size
    of the entry. *)
Theorem Delete_then_Get (c : lruCache) (key_ : string) (t : Z) :
  inv c →
  ∃ c' evs,
    Delete c key_ = Some (c', bool_decide (key_ ∈ keys c), evs) ∧
    evs = match items c key_ with
          | Some e => if onEvicted c then [(key_, value e)] else []
          | None => []
          end ∧
    Get c' key_ t = (None, false, c', None) ∧
    GetExpiration c' key_ = None ∧
    keys c' = List.filter (λ x, negb (bool_decide (x = key_))) (keys c) ∧
    (∀ key', key' ≠ key_ →
       items c' key' = items c key' ∧
       GetExpiration c' key' = GetExpiration c key') ∧
    UsedBytes c' = int64 (UsedBytes c - from_option entrySize 0 (items c key_)).
Proof.
  intros Hinv.
  destruct (Delete_inv c key_ Hinv)
    as (c' & evs & E & Hinv' & Hel & Hex & Hmb & Hcb & Hev & Hused).
  exists c', evs. split; [done |]. split; [done |].
  assert (items c' key_ = None) as Hnone.
  { apply items_None. unfold keys. rewrite Hel.
    intros [_ ?]%keys_unlink_elem_of. done. }
  split_and!.
  - unfold Get. by rewrite Hnone.
  - unfold GetExpiration. rewrite Hex. apply lookup_delete_eq.
  - unfold keys. rewrite Hel. apply unlink_keys.
  - intros key' Hne. unfold items, GetExpiration. rewrite Hel, Hex.
    split; [by apply find_filter_ne | by apply lookup_delete_ne].
  - done.
Qed.

(** X18. The byte budget after an eviction pass: a [SetWithExpiration] that
    inserts a new key into a cache with a positive budget, and a
    [SetMaxBytes] with a positive budget, both return with
    [usedBytes <= maxBytes]. *)
Theorem eviction_restores_budget (c : lruCache) (key_ x : string)
    (expiration now now' maxBytes_ : Z) (order order' : list (string * Z)) :
  inv c →
  ranges order (expiresAfter c key_ expiration now) →
  ranges order' (expires c) →
  (items c key_ = None → 0 < maxBytes c →
   ∃ c' evs,
     SetWithExpiration c key_ (Some x) expiration now now' order =
       Some (c', evs) ∧
     UsedBytes c' <= maxBytes c' ∧ maxBytes c' = maxBytes c) ∧
  (0 < maxBytes_ →
   ∃ c' evs,
     SetMaxBytes c maxBytes_ now order' = Some (c', evs) ∧
     UsedBytes c' <= maxBytes c' ∧ maxBytes c' = maxBytes_).
Proof.
  intros Hinv Hr Hr'. split.
  - intros Hit Hpos.
    destruct (SetWithExpiration_insert c key_ x expiration now now' order Hinv Hit)
      as [E Hinv0].
    destruct (evict_inv _ now' order Hinv0 Hr)
      as (c' & evs & k & Ee & _ & _ & _ & _ & _ & Hmb & _ & Hbud & _).
    rewrite E, Ee. eexists _, _. split; [done |]. simpl in *.
    rewrite Hmb. split; [| done]. by apply Hbud.
  - intros Hpos.
    destruct (SetMaxBytes_inv c maxBytes_ now order' Hinv Hr')
      as (c' & evs & E & _ & Hmb & Hbud).
    rewrite E. eexists _, _. split; [done |]. rewrite Hmb. split; [| done].
    by apply Hbud.
Qed.

(** X19. [evict] removes every key whose expiry is before [now], together
    with its expiry. What it keeps is a sublist of the list, so the
    survivors stay in their order, and they keep the expiry they had; without
    a byte budget it removes nothing else. *)
Theorem evict_removes_expired (c : lruCache) (now : Z)
    (order : list (string * Z)) :
  inv c → ranges order (expires c) →
  ∃ c' evs,
    evict c now order = Some (c', evs) ∧
    (∀ key_, expiredAt c now key_ = true →
       (key_ ∉ keys c') ∧ GetExpiration c' key_ = None) ∧
    sublist (elems c') (elems c) ∧
    (∀ key_, key_ ∈ keys c' → GetExpiration c' key_ = GetExpiration c key_) ∧
    (maxBytes c <= 0 →
     elems c' = List.filter (λ e, negb (expiredAt c now (key e))) (elems c)).
Proof.
  intros Hinv Hr.
  destruct (evict_inv c now order Hinv Hr)
    as (c' & evs & k & E & Hinv' & Hel & _ & Hgone & Hkept & _ & _ & _ & Hk0 & _).
  exists c', evs. split; [done |]. split_and!.
  - intros key_ Hx. split; [| by apply Hgone].
    intros Hin. pose proof (Hkept _ Hin) as Hsame.
    rewrite (Hgone _ Hx) in Hsame. unfold expiredAt in Hx.
    by rewrite <- Hsame in Hx.
  - rewrite Hel. etrans; [apply sublist_drop | apply filter_sublist].
  - done.
  - intros Hle. rewrite Hel, Hk0 by (by left). done.
Qed.

(** X21. [UpdateExpiration] returns true exactly when the key is held, and
    changes nothing otherwise. For a held key, [GetExpiration] then gives
    [now + expiration], or no expiry for a duration that is not positive; a
    [Get] no later than that time (at any time, without expiry) returns the
    stored value, and [GetWithExpiration] the time left as well; the list
    and the expiries of the other keys are unchanged. *)
Theorem UpdateExpiration_then_read (c : lruCache) (key_ : string)
    (expiration now t : Z) :
  inv c →
  ∃ c', UpdateExpiration c key_ expiration now =
          (bool_decide (key_ ∈ keys c), c') ∧
    inv c' ∧ elems c' = elems c ∧
    (key_ ∉ keys c → c' = c) ∧
    (key_ ∈ keys c →
       GetExpiration c' key_ =
         (if 0 <? expiration then Some (now + expiration) else None) ∧
       ((0 < expiration → t <= now + expiration) →
        ∃ e, items c key_ = Some e ∧ (Get c' key_ t).1.1 = (value e, true) ∧
             (GetWithExpiration c' key_ t).1 =
               (value e,
                if 0 <? expiration then Sub (now + expiration) t else 0,
                true))) ∧
    (∀ key', key' ≠ key_ → GetExpiration c' key' = GetExpiration c key').
Proof.
  intros Hinv. pose proof (UpdateExpiration_inv c key_ expiration now Hinv) as Hinv'.
  unfold UpdateExpiration in *. destruct (items c key_) as [e |] eqn:Hit.
  - eexists. rewrite bool_decide_eq_true_2 by (apply items_is_Some; eauto).
    split; [done |]. split; [done |]. split; [done |].
    split; [intros Hn; exfalso; apply Hn, items_is_Some; eauto |].
    assert ((if 0 <? expiration then <[key_ := now + expiration]> (expires c)
             else delete key_ (expires c)) !! key_ =
            (if 0 <? expiration then Some (now + expiration) else None)) as Hex.
    { destruct (0 <? expiration); [apply lookup_insert_eq | apply lookup_delete_eq]. }
    split.
    + intros _. split; [exact Hex |]. intros Ht. exists e. split; [done |].
      unfold Get, GetWithExpiration, items in *. simpl. rewrite Hit, Hex.
      destruct (Z.ltb_spec 0 expiration) as [Hd | Hd]; [| done].
      unfold after. rewrite (proj2 (Z.ltb_ge _ _)) by (specialize (Ht Hd); lia).
      done.
    + intros key' Hne. unfold GetExpiration. simpl.
      destruct (0 <? expiration);
        [by apply lookup_insert_ne | by apply lookup_delete_ne].
  - exists c. apply items_None in Hit.
    rewrite bool_decide_eq_false_2 by done. split_and!; try done.
Qed.

(** X22. [Get] of a held key. With an expiry before [now]: (nil, false),
    the cache is left as it is and a [Delete] of the key is started, which
    removes the key when it runs. Otherwise the stored value is returned with
    true and the element moves to the front of the list, while the elements
    held, the expiries, [usedBytes] and [Len] are unchanged. *)
Theorem Get_hit_moves_to_front (c : lruCache) (key_ : string) (now : Z)
    (e : lruEntry) :
  inv c → items c key_ = Some e →
  if expiredAt c now key_ then
    Get c key_ now = (None, false, c, Some key_) ∧
    ∃ c' evs, Delete c key_ = Some (c', true, evs) ∧ key_ ∉ keys c'
  else
    ∃ c', Get c key_ now = (value e, true, c', None) ∧
      keys c' = key_ :: List.filter (λ x, negb (bool_decide (x = key_))) (keys c) ∧
      (∀ key', items c' key' = items c key') ∧
      expires c' = expires c ∧ UsedBytes c' = UsedBytes c ∧ Len c' = Len c.
Proof.
  intros Hinv Hit. pose proof (items_Some _ _ _ Hit) as [He Hk].
  unfold expiredAt, Get. rewrite Hit.
  assert (∃ c', (value e, true,
                 LruCache (moveToFront key_ (elems c)) (expires c) (maxBytes c)
                   (usedBytes c) (onEvicted c), @None string) =
                (value e, true, c', None) ∧
      keys c' = key_ :: List.filter (λ x, negb (bool_decide (x = key_))) (keys c) ∧
      (∀ key', items c' key' = items c key') ∧
      expires c' = expires c ∧ UsedBytes c' = UsedBytes c ∧ Len c' = Len c) as Hhit.
  { eexists. split; [done |]. unfold keys, items, UsedBytes, Len. simpl.
    rewrite (moveToFront_held key_ (elems c) e Hit). simpl.
    rewrite Hk, unlink_keys. split; [done |]. split_and!; try done.
    - intros key'. simpl. destruct (decide (key_ = key')) as [Hkk | Hkk].
      + rewrite bool_decide_eq_true_2 by done. subst key'.
        symmetry. exact Hit.
      + rewrite bool_decide_eq_false_2 by done. apply find_filter_ne. congruence.
    - f_equal. pose proof (inv_keys c Hinv) as Hnd.
      assert (∀ l : list lruEntry, NoDup (key <$> l) → e ∈ l →
                S (length (unlink key_ l)) = length l) as Hlen.
      { clear -Hk. induction l as [| y l IH]; intros Hnd Hin;
          [by apply elem_of_nil in Hin |].
        simpl in Hnd. apply NoDup_cons in Hnd as [Hy Hnd].
        apply elem_of_cons in Hin as [<- | Hin].
        - rewrite <- Hk, unlink_head by done. done.
        - unfold unlink. simpl. rewrite bool_decide_eq_false_2.
          + simpl. f_equal. by apply IH.
          + intros Heq. apply Hy. rewrite Heq, <- Hk. apply list_elem_of_fmap. eauto. }
      by apply Hlen. }
  destruct (expires c !! key_) as [t |] eqn:Hex; [| exact Hhit].
  destruct (after now t); [| exact Hhit].
  split; [done |].
  destruct (Delete_inv c key_ Hinv) as (c' & evs & E & _ & Hel & _).
  rewrite bool_decide_eq_true_2 in E by (apply items_is_Some; eauto).
  exists c', evs. split; [done |]. unfold keys. rewrite Hel.
  intros [_ ?]%keys_unlink_elem_of. done.
Qed.

Lemma ranges_one : ranges [("a", 5)] (expires two_entry_cache).
Proof. unfold ranges. vm_compute. reflexivity. Qed.

Lemma two_entry_cache_reachable : reachable two_entry_cache.
Proof.
  apply (reach_SetWithExpiration one_entry_cache "b" (Some "2") 0 0 0 [("a", 5)]
           two_entry_cache []).
  - apply (reach_SetWithExpiration (newLRUCache 0 true) "a" (Some "1") 5 0 0
             [("a", 5)] one_entry_cache []).
    + apply reach_new.
    + unfold ranges. vm_compute. reflexivity.
    + vm_compute. reflexivity.
  - unfold ranges. vm_compute. reflexivity.
  - vm_compute. reflexivity.
Qed.

Lemma two_entry_cache_inv : inv two_entry_cache.
Proof. apply reachable_inv, two_entry_cache_reachable. Qed.

Lemma budget_cache_inv : inv budget_cache.
Proof.
  apply reachable_inv.
  apply (reach_SetWithExpiration (newLRUCache 4 true) "a" (Some "1") 0 0 0 []
           budget_cache []).
  - apply reach_new.
  - unfold ranges. vm_compute. reflexivity.
  - vm_compute. reflexivity.
Qed.


Lemma lruCache_invariant_witness : inv two_entry_cache.
Proof.
  apply (lruCache_invariant two_entry_cache). apply two_entry_cache_reachable.
Defined.

Lemma lruCache_never_panics_witness :
  is_Some (SetWithExpiration two_entry_cache "c" None 0 6 0 [("a", 5)]) ∧
  is_Some (Delete two_entry_cache "c") ∧
  is_Some (SetMaxBytes two_entry_cache 1 6 [("a", 5)]) ∧
  is_Some (evict two_entry_cache 6 [("a", 5)]).
Proof.
  apply (lruCache_never_panics two_entry_cache "c" None 0 6 0 1
           [("a", 5)] [("a", 5)]).
  - apply two_entry_cache_reachable.
  - unfold ranges. vm_compute. reflexivity.
  - apply ranges_one.
Defined.

Lemma SetWithExpiration_then_Get_witness :
  ∃ c' evs c'',
    SetWithExpiration two_entry_cache "c" (Some "3") 10 0 1
        [("a", 5); ("c", 10)] = Some (c', evs) ∧
    Get c' "c" 2 = (Some "3", true, c'', None) ∧
    GetExpiration c' "c" = (if 0 <? 10 then Some (0 + 10) else None) ∧
    List.hd_error (keys c') = Some "c" ∧ keys c'' = keys c'.
Proof.
  apply (SetWithExpiration_then_Get two_entry_cache "c" "3" 10 0 1 2
           [("a", 5); ("c", 10)]).
  - apply two_entry_cache_inv.
  - unfold ranges. vm_compute. apply perm_swap.
  - left. vm_compute. discriminate.
  - intros _. lia.
Defined.

Lemma Delete_then_Get_witness :
  ∃ c' evs,
    Delete two_entry_cache "a" =
      Some (c', bool_decide ("a" ∈ keys two_entry_cache), evs) ∧
    evs = match items two_entry_cache "a" with
          | Some e => if onEvicted two_entry_cache then [("a", value e)] else []
          | None => []
          end ∧
    Get c' "a" 0 = (None, false, c', None) ∧
    GetExpiration c' "a" = None ∧
    keys c' =
      List.filter (λ x, negb (bool_decide (x = "a"))) (keys two_entry_cache) ∧
    (∀ key', key' ≠ "a" →
       items c' key' = items two_entry_cache key' ∧
       GetExpiration c' key' = GetExpiration two_entry_cache key') ∧
    UsedBytes c' =
      int64 (UsedBytes two_entry_cache
             - from_option entrySize 0 (items two_entry_cache "a")).
Proof.
  apply (Delete_then_Get two_entry_cache "a" 0). apply two_entry_cache_inv.
Defined.

Lemma eviction_restores_budget_witness :
  (items budget_cache "b" = None → 0 < maxBytes budget_cache →
   ∃ c' evs,
     SetWithExpiration budget_cache "b" (Some "234") 0 0 0 [] = Some (c', evs) ∧
     UsedBytes c' <= maxBytes c' ∧ maxBytes c' = maxBytes budget_cache) ∧
  (0 < 1 →
   ∃ c' evs,
     SetMaxBytes budget_cache 1 0 [] = Some (c', evs) ∧
     UsedBytes c' <= maxBytes c' ∧ maxBytes c' = 1).
Proof.
  apply (eviction_restores_budget budget_cache "b" "234" 0 0 0 1 [] []).
  - apply budget_cache_inv.
  - unfold ranges. vm_compute. reflexivity.
  - unfold ranges. vm_compute. reflexivity.
Defined.

Lemma evict_removes_expired_witness :
  ∃ c' evs,
    evict two_entry_cache 6 [("a", 5)] = Some (c', evs) ∧
    (∀ key_, expiredAt two_entry_cache 6 key_ = true →
       (key_ ∉ keys c') ∧ GetExpiration c' key_ = None) ∧
    sublist (elems c') (elems two_entry_cache) ∧
    (∀ key_, key_ ∈ keys c' →
       GetExpiration c' key_ = GetExpiration two_entry_cache key_) ∧
    (maxBytes two_entry_cache <= 0 →
     elems c' =
       List.filter (λ e, negb (expiredAt two_entry_cache 6 (key e)))
         (elems two_entry_cache)).
Proof.
  apply (evict_removes_expired two_entry_cache 6 [("a", 5)]).
  - apply two_entry_cache_inv.
  - apply ranges_one.
Defined.

Lemma UpdateExpiration_then_read_witness :
  ∃ c', UpdateExpiration two_entry_cache "b" 10 0 =
          (bool_decide ("b" ∈ keys two_entry_cache), c') ∧
    inv c' ∧ elems c' = elems two_entry_cache ∧
    ("b" ∉ keys two_entry_cache → c' = two_entry_cache) ∧
    ("b" ∈ keys two_entry_cache →
       GetExpiration c' "b" = (if 0 <? 10 then Some (0 + 10) else None) ∧
       ((0 < 10 → 3 <= 0 + 10) →
        ∃ e, items two_entry_cache "b" = Some e ∧
             (Get c' "b" 3).1.1 = (value e, true) ∧
             (GetWithExpiration c' "b" 3).1 =
               (value e, if 0 <? 10 then Sub (0 + 10) 3 else 0, true))) ∧
    (∀ key', key' ≠ "b" →
       GetExpiration c' key' = GetExpiration two_entry_cache key').
Proof.
  apply (UpdateExpiration_then_read two_entry_cache "b" 10 0 3).
  apply two_entry_cache_inv.
Defined.

Lemma Get_hit_moves_to_front_witness :
  if expiredAt two_entry_cache 3 "a" then
    Get two_entry_cache "a" 3 = (None, false, two_entry_cache, Some "a") ∧
    ∃ c' evs, Delete two_entry_cache "a" = Some (c', true, evs) ∧ "a" ∉ keys c'
  else
    ∃ c', Get two_entry_cache "a" 3 =
            (value (Entry "a" (Some "1")), true, c', None) ∧
      keys c' =
        "a" :: List.filter (λ x, negb (bool_decide (x = "a")))
                 (keys two_entry_cache) ∧
      (∀ key', items c' key' = items two_entry_cache key') ∧
      expires c' = expires two_entry_cache ∧
      UsedBytes c' = UsedBytes two_entry_cache ∧ Len c' = Len two_entry_cache.
Proof.
  apply (Get_hit_moves_to_front two_entry_cache "a" 3 (Entry "a" (Some "1"))).
  - apply two_entry_cache_inv.
  - vm_compute. reflexivity.
Defined.




End LruFacts.

(* ===================================================================== *)
(** ** Facts about the clock task *)
(* ===================================================================== *)

Module ClockFacts.

Import Clock.

Lemma increment_value : int64 (100 * Microsecond) = 100000.
Proof. reflexivity. Qed.

Lemma nominal_value : nominal = 100000000.
Proof. reflexivity. Qed.

Lemma wall_rounds i elapsed w :
  (∀ j, nominal <= elapsed j) →
  wall w + Z.of_nat i * nominal <= wall (rounds i elapsed w).
Proof.
  intros Hel. induction i as [| i IH]; simpl; [lia |].
  pose proof (Hel i). lia.
Qed.

Lemma clock_rounds i elapsed w :
  - 9223372036854775808 <= clock w →
  clock w + Z.of_nat i * 100000 < 9223372036854775808 →
  clock (rounds i elapsed w) = clock w + Z.of_nat i * 100000.
Proof.
  intros H0. induction i as [| i IH]; intros H1; simpl; [lia |].
  rewrite IH by lia. rewrite increment_value.
  unfold plus64, int64. rewrite Z.mod_small by lia. lia.
Qed.

(** Between two samples the clock gains 100 microseconds per sleep of at
    least 100 milliseconds: it is never ahead of the wall clock, and after
    [i] rounds it is behind by at least [i] times 99.9 milliseconds. *)
Lemma staleness_rounds i elapsed w :
  (∀ j, nominal <= elapsed j) →
  0 <= wall w → wall w + 900000 < 9223372036854775808 → (i <= 9)%nat →
  Z.of_nat i * 99900000 <= staleness (rounds i elapsed (sample w)).
Proof.
  intros Hel H0 H1 Hi. unfold staleness, Now.
  rewrite clock_rounds by (simpl; lia).
  pose proof (wall_rounds i elapsed (sample w) Hel) as Hw.
  rewrite nominal_value in Hw. simpl in *. lia.
Qed.

(** C9. Every sleep taking exactly its 100 ms, nine rounds after a sample
    the wall clock has advanced by 900 ms and [Now()] by 0.9 ms: the value
    returned is 899.1 ms old. The increment added per round is 100000 ns, the
    sleep it accounts for 100000000 ns. *)
Theorem clock_is_899ms_behind_after_nine_rounds :
  let w := rounds 9 (λ _, nominal) (sample (World 0 1700000000000000000)) in
  int64 (100 * Microsecond) = 100000 ∧ nominal = 100000000 ∧
  wall w = 1700000000000000000 + 900000000 ∧
  Now w = 1700000000000000000 + 900000 ∧
  staleness w = 899100000.
Proof. repeat split; vm_compute; reflexivity. Qed.

(* ------------------------------------------------------------------- *)
(** *** The clock between two samples *)

Lemma wall_rounds_exact i elapsed w :
  wall (rounds i elapsed w) = wall w + slept i elapsed.
Proof. induction i as [| i IH]; simpl; [lia |]. rewrite IH. lia. Qed.

Lemma slept_lower i elapsed :
  (∀ j, nominal <= elapsed j) → Z.of_nat i * nominal <= slept i elapsed.
Proof.
  intros Hel. induction i as [| i IH]; [simpl; lia |].
  cbn [slept]. pose proof (Hel i). lia.
Qed.

Lemma Now_sleep a w : Now (sleep a w) = Now w.
Proof. reflexivity. Qed.

(** X13. Between two samples, with every sleep returning no earlier than
    asked: right after the sample [Now()] is the wall clock; after [i]
    rounds it has gained [i] times 100 microseconds, so it lags the wall
    clock by the time slept minus that gain, which is at least [i] times
    99.9 milliseconds, and it is never ahead; at the end of the iteration it
    stands 0.9 ms after the sampled value. *)
Theorem Now_lags_the_wall_clock (i : nat) (elapsed : nat → Z) (w : world) :
  (∀ j, nominal <= elapsed j) →
  0 <= wall w → wall w + 900000 < 9223372036854775808 → (i <= 9)%nat →
  staleness (sample w) = 0 ∧
  Now (rounds i elapsed (sample w)) = wall w + Z.of_nat i * 100000 ∧
  staleness (rounds i elapsed (sample w)) =
    slept i elapsed - Z.of_nat i * 100000 ∧
  Z.of_nat i * 99900000 <= staleness (rounds i elapsed (sample w)) ∧
  Now (iteration elapsed w) = wall w + 900000.
Proof.
  intros Hel H0 H1 Hi.
  assert (∀ j, (j <= 9)%nat →
            Now (rounds j elapsed (sample w)) = wall w + Z.of_nat j * 100000) as Hnow.
  { intros j Hj. unfold Now. rewrite clock_rounds; [done | simpl; lia |].
    change (clock (sample w)) with (wall w). lia. }
  assert (Now (iteration elapsed w) = wall w + 900000) as Hit.
  { unfold iteration. rewrite Now_sleep. rewrite (Hnow 9%nat) by lia. lia. }
  pose proof (slept_lower i elapsed Hel) as Hs. rewrite nominal_value in Hs.
  pose proof (Hnow i Hi) as Hn.
  pose proof (wall_rounds_exact i elapsed (sample w)) as Hw.
  change (wall (sample w)) with (wall w) in Hw.
  unfold staleness. rewrite Hn, Hw.
  split; [change (wall (sample w) - Now (sample w)) with (wall w - wall w); lia |].
  split; [done |]. split; [lia |]. split; [lia | exact Hit].
Qed.

Lemma Now_lags_the_wall_clock_witness :
  staleness (sample epoch_world) = 0 ∧
  Now (rounds 9 (λ _, nominal) (sample epoch_world)) =
    wall epoch_world + Z.of_nat 9 * 100000 ∧
  staleness (rounds 9 (λ _, nominal) (sample epoch_world)) =
    slept 9 (λ _, nominal) - Z.of_nat 9 * 100000 ∧
  Z.of_nat 9 * 99900000 <=
    staleness (rounds 9 (λ _, nominal) (sample epoch_world)) ∧
  Now (iteration (λ _, nominal) epoch_world) = wall epoch_world + 900000.
Proof.
  apply (Now_lags_the_wall_clock 9 (λ _, nominal) epoch_world).
  - intros _. apply Z.le_refl.
  - vm_compute. discriminate.
  - vm_compute. reflexivity.
  - apply Nat.le_refl.
Defined.

End ClockFacts.
